(** * DirDL: a shallow embedding of [script.js]

    DirDL is a browser script that, given the URL of a GitHub repository or
    of a directory inside one, lists the files below that path through the
    GitHub contents API, fetches every file and packs the results in a ZIP
    archive that the browser saves.

    The development follows the script top-down: the JavaScript strings and
    regular expressions the script uses, the URL parser, the directory
    lister, the archive builder, the click handler and the token prompt.

    Conventions.
    - A JavaScript string is a Rocq [string]; a character stands for one
      UTF-16 code unit below 256.
    - [fetch], [window.prompt] and [JSZip] belong to the browser: the remote
      API is a function from request to response, the user is the list of
      the answers typed at the prompts.
    - Every observable effect (a request, a status line, a console message, a
      write to [localStorage], the save of the archive) is an [event]; a
      computation returns the events it emitted and how it ended. *)

From Stdlib Require Import ZArith Ascii String List Lia Bool.
From stdpp Require Import base option list strings gmap pretty.

Local Open Scope Z_scope.
Local Open Scope stdpp_scope.

(* ===================================================================== *)
(** * JavaScript strings *)
(* ===================================================================== *)

Module JS.

(** [s.length] *)
Definition length (s : string) : nat := String.length s.

(** [c] is not the character [d]. *)
Definition is_not (d c : ascii) : bool := negb (Ascii.eqb c d).

(** Every character of [s] satisfies [p]. *)
Fixpoint all_chars (p : ascii -> bool) (s : string) : bool :=
  match s with
  | EmptyString => true
  | String c s' => p c && all_chars p s'
  end.

(** The characters of [s] that satisfy [p], in order. *)
Fixpoint filter_chars (p : ascii -> bool) (s : string) : string :=
  match s with
  | EmptyString => EmptyString
  | String c s' =>
      if p c then String c (filter_chars p s') else filter_chars p s'
  end.

(** The longest suffix of [s] that does not start with a [p] character. *)
Fixpoint drop_while (p : ascii -> bool) (s : string) : string :=
  match s with
  | EmptyString => EmptyString
  | String c s' => if p c then drop_while p s' else s
  end.

(** The longest prefix of [s] made of [p] characters. *)
Fixpoint take_while (p : ascii -> bool) (s : string) : string :=
  match s with
  | EmptyString => EmptyString
  | String c s' => if p c then String c (take_while p s') else EmptyString
  end.

(** White space as [String.prototype.trim] sees it, among the code units
    below 256: TAB, LF, VT, FF, CR, SPACE and NBSP. *)
Definition is_white_space (c : ascii) : bool :=
  match c with
  | "009" | "010" | "011" | "012" | "013" | " " | "160" => true
  | _ => false
  end%char.

(** [s.trimEnd()]: a character is kept when it is not white space or when
    something is kept after it. *)
Fixpoint trimEnd (s : string) : string :=
  match s with
  | EmptyString => EmptyString
  | String c s' =>
      match trimEnd s' with
      | EmptyString =>
          if is_white_space c then EmptyString else String c EmptyString
      | t => String c t
      end
  end.

(** [s.trim()] *)
Definition trim (s : string) : string :=
  trimEnd (drop_while is_white_space s).

(** [s.split(sep)] for a one-character separator: never empty, one piece
    more than there are separators. *)
Fixpoint split (sep : ascii) (s : string) : list string :=
  match s with
  | EmptyString => [EmptyString]
  | String c s' =>
      if Ascii.eqb c sep then EmptyString :: split sep s'
      else match split sep s' with
           | piece :: pieces => String c piece :: pieces
           | [] => [String c EmptyString]
           end
  end.

(** [a.pop()] as an expression: the last element, [undefined] on the empty
    array. *)
Definition pop (a : list string) : option string := List.last (Some <$> a) None.

(** [x || d] for a string-or-undefined [x]: the empty string and
    [undefined] are falsy. *)
Definition or_else (x : option string) (d : string) : string :=
  match x with
  | Some (String c s) => String c s
  | _ => d
  end.

(** Truthiness of a string-or-undefined (or null) value. *)
Definition truthy (x : option string) : bool :=
  match x with
  | Some (String _ _) => true
  | _ => false
  end.

End JS.

(* ===================================================================== *)
(** * Regular expressions *)
(* ===================================================================== *)

(** The fragment of JavaScript's regular expressions the script uses, with
    the backtracking semantics of the language: quantifiers are greedy, the
    alternatives are tried in order and the first match wins, a search tries
    the start positions from the left. *)
Module Regex.

(** What matches one character. *)
Inductive atom : Type :=
| Lit (c : ascii)        (** a literal character, escaped or not *)
| Dot                    (** [.]: anything but a line terminator *)
| NoneOf (c : ascii).    (** the class [[^c]] *)

Inductive t : Type :=
| Empty                  (** the empty pattern *)
| One (a : atom)
| Seq (r1 r2 : t)
| Plus (a : atom)        (** [a+] *)
| Star (a : atom)        (** [a*] *)
| Opt (r : t)            (** [r?] *)
| Group (r : t)          (** a capturing group [(r)] *)
| Eos.                   (** [$] without the [m] flag *)

(** The line terminators among the code units below 256. *)
Definition is_line_terminator (c : ascii) : bool :=
  match c with
  | "010" | "013" => true
  | _ => false
  end%char.

Definition accepts (a : atom) (c : ascii) : bool :=
  match a with
  | Lit d => Ascii.eqb c d
  | Dot => negb (is_line_terminator c)
  | NoneOf d => JS.is_not d c
  end.

(** A literal word: its characters in sequence. *)
Fixpoint word (w : string) : t :=
  match w with
  | EmptyString => Empty
  | String c w' => Seq (One (Lit c)) (word w')
  end.

(** The concatenation of the patterns of a list. *)
Definition seq (rs : list t) : t := fold_right Seq Empty rs.

(** The groups closed so far, in the order they closed. *)
Definition captures := list string.

(** What remains to be matched: from the rest of the input and the
    captures to the final captures, or a failure that makes the matcher
    backtrack. *)
Definition cont := string -> captures -> option captures.

(** [a*] then [k]: the longest run first, one character less on each
    failure. *)
Fixpoint star (a : atom) (s : string) (k : string -> option captures)
  : option captures :=
  match s with
  | EmptyString => k s
  | String c s' =>
      if accepts a c then
        match star a s' k with
        | Some r => Some r
        | None => k s
        end
      else k s
  end.

(** The text between the start [s] of a group and the rest [s'] left when
    it closes. *)
Definition consumed (s s' : string) : string :=
  String.substring 0 (String.length s - String.length s') s.

Fixpoint run (r : t) (s : string) (caps : captures) (k : cont)
  : option captures :=
  match r with
  | Empty => k s caps
  | One a =>
      match s with
      | String c s' => if accepts a c then k s' caps else None
      | EmptyString => None
      end
  | Seq r1 r2 => run r1 s caps (fun s1 caps1 => run r2 s1 caps1 k)
  | Plus a =>
      match s with
      | String c s' =>
          if accepts a c then star a s' (fun s1 => k s1 caps) else None
      | EmptyString => None
      end
  | Star a => star a s (fun s1 => k s1 caps)
  | Opt r1 =>
      match run r1 s caps k with
      | Some res => Some res
      | None => k s caps
      end
  | Group r1 => run r1 s caps (fun s1 caps1 => k s1 (caps1 ++ [consumed s s1]))
  | Eos =>
      match s with
      | EmptyString => k s caps
      | String _ _ => None
      end
  end.

(** A match that starts at the first character of [s]. *)
Definition run_here (r : t) (s : string) : option captures :=
  run r s [] (fun _ caps => Some caps).

(** [s.match(r)] for a regular expression without the [g] flag: the
    captures of the leftmost match, [None] for [null]. *)
Fixpoint exec (r : t) (s : string) : option captures :=
  match run_here r s with
  | Some caps => Some caps
  | None =>
      match s with
      | String _ s' => exec r s'
      | EmptyString => None
      end
  end.

End Regex.

(* ===================================================================== *)
(** * Errors and computations *)
(* ===================================================================== *)

(** What the script throws, and what the browser throws under it. *)
Inductive error : Type :=
| InvalidUrlError                                 (** [parseGitHubUrl] *)
| AuthError                                       (** listing, status 401 *)
| NotFoundError                                   (** listing, status 404 *)
| RemoteApiError (status : Z) (statusText : string) (** listing, other status *)
| NetworkError                                    (** [fetch] rejected *)
| JsonSyntaxError                                 (** [response.json()] rejected *)
| NotIterableError                                (** [for ... of] over a non-iterable *)
| FileFetchError (name : string) (status : Z)     (** file request, not ok *)
| InvalidCharacterError                           (** [atob] *)
| LibraryLoadError                                (** JSZip did not load *)
| NoFilesDownloadedError                          (** no file made it *)
| EmptyArchiveError.                              (** the blob has size 0 *)

(** [error.message]. The texts of the errors of the script are its own.
    Those of the errors of the browser change with the browser and, for a
    JSON syntax error, with the body that failed to parse: the texts here
    stand for them, and no statement below depends on them. *)
Definition message (e : error) : string :=
  match e with
  | InvalidUrlError =>
      "Invalid GitHub URL. Please enter a repository URL (github.com/owner/repo) or directory URL (github.com/owner/repo/tree/branch/path)"
  | AuthError => "Invalid GitHub token or insufficient permissions"
  | NotFoundError => "Repository or directory not found"
  | RemoteApiError status statusText =>
      "GitHub API error: " +:+ pretty status +:+ " - " +:+ statusText
  | NetworkError => "Failed to fetch"
  | JsonSyntaxError => "Unexpected token in JSON"
  | NotIterableError => "contents is not iterable"
  | FileFetchError name status =>
      "Failed to fetch " +:+ name +:+ ": " +:+ pretty status
  | InvalidCharacterError => "The string to be decoded is not correctly encoded."
  | LibraryLoadError => "Failed to load JSZip library"
  | NoFilesDownloadedError => "No files were successfully downloaded"
  | EmptyArchiveError => "Generated ZIP file is empty"
  end.

(** How a call ends: with a value, with an exception, or not at all within
    the recursion depth, or the answers of the user, that the model was
    given. *)
Inductive outcome (A : Type) : Type :=
| Return (a : A)
| Throw (e : error)
| Pending.

Arguments Return {A} a.
Arguments Throw {A} e.
Arguments Pending {A}.

(* ===================================================================== *)
(** * The URL parser *)
(* ===================================================================== *)

(** The object [parseGitHubUrl] returns. *)
Module Target.
Record t : Type := make
  { owner : string; repo : string; path : string; isRepo : bool }.
End Target.

(** [/github\.com\/([^\/]+)\/([^\/]+)$/] *)
Definition repoRegex : Regex.t :=
  Regex.seq
    [ Regex.word "github.com/";
      Regex.Group (Regex.Plus (Regex.NoneOf "/"));
      Regex.word "/";
      Regex.Group (Regex.Plus (Regex.NoneOf "/"));
      Regex.Eos ].

(** [/github\.com\/([^\/]+)\/([^\/]+)\/tree\/[^\/]+\/?(.* )/], the last group
    being [.] under a star. *)
Definition dirRegex : Regex.t :=
  Regex.seq
    [ Regex.word "github.com/";
      Regex.Group (Regex.Plus (Regex.NoneOf "/"));
      Regex.word "/";
      Regex.Group (Regex.Plus (Regex.NoneOf "/"));
      Regex.word "/tree/";
      Regex.Plus (Regex.NoneOf "/");
      Regex.Opt (Regex.word "/");
      Regex.Group (Regex.Star Regex.Dot) ].

(** [url.replace(/\/$/, '')]: one slash at the very end is removed. *)
Fixpoint strip_trailing_slash (url : string) : string :=
  match url with
  | EmptyString => EmptyString
  | String c EmptyString =>
      if Ascii.eqb c "/" then EmptyString else url
  | String c url' => String c (strip_trailing_slash url')
  end.

(** [const [, a, b, c] = m]: the groups of a match by position. *)
Definition group (i : nat) (m : Regex.captures) : option string := m !! i.

Definition parseGitHubUrl (url : string) : outcome Target.t :=
  let url := strip_trailing_slash url in
  match Regex.exec repoRegex url with
  | Some repoMatch =>
      Return (Target.make (default "" (group 0 repoMatch))
                          (default "" (group 1 repoMatch))
                          ""
                          true)
  | None =>
      match Regex.exec dirRegex url with
      | Some dirMatch =>
          Return (Target.make (default "" (group 0 dirMatch))
                              (default "" (group 1 dirMatch))
                              (JS.or_else (group 2 dirMatch) "")
                              false)
      | None => Throw InvalidUrlError
      end
  end.

(* ===================================================================== *)
(** * The remote API and the browser *)
(* ===================================================================== *)

(** An object of the contents API: an entry of a directory listing, or the
    answer for a single file, which also has a [content]. A field the
    script does not read is left out. *)
Module Item.
Record t : Type := make
  { type : string; path : string; sha : string; name : string; size : Z;
    content : option string }.
End Item.

(** What [response.json()] resolves to. *)
Inductive json : Type :=
| JArray (items : list Item.t)
| JObject (o : Item.t).

(** A response; [body] is [None] when the payload is not JSON. *)
Module Response.
Record t : Type := make
  { status : Z; statusText : string; body : option json }.

(** [response.ok] *)
Definition ok (r : t) : bool := (200 <=? status r) && (status r <=? 299).
End Response.

(** What [allFiles] collects. *)
Module File.
Record t : Type := make
  { path : string; sha : string; name : string; size : Z }.
End File.

(** A [Uint8Array] is a [list Z] of numbers below 256. A [JSZip] instance is
    the map from the names given to [zip.file] to the bytes given with
    them, a [gmap string (list Z)]: a second file under a name replaces the
    first, and the folder entries that JSZip adds for the directories of a
    name are not part of the model. *)

(** The part of the world the script talks to. [fetch url token] is the
    answer to a GET of [url] with [token] as bearer, [None] when the request
    itself fails. *)
Module World.
Record t : Type := make
  { fetch : string -> string -> option Response.t;
    JSZip_defined : bool;           (** [typeof JSZip !== 'undefined'] *)
    script_loads : bool;            (** the JSZip script tag fires [onload] *)
    blob_size : gmap string (list Z) -> Z }. (** [zipBlob.size] *)
End World.

Inductive event : Type :=
| Request (url token : string)          (** [fetch(url, {headers})] *)
| Status (text type : string)           (** [log(text, type)] *)
| ConsoleWarn (text : string) (e : option error)
| ConsoleError (text : string) (e : error)
| Disabled (b : bool)                   (** [downloadBtn.disabled = b] *)
| LoadScript (src : string)
| Generate (zip : gmap string (list Z)) (** [zip.generateAsync(...)] *)
| Save (download : string) (zip : gmap string (list Z)) (** [link.click()] *)
| Prompt (text : string)                (** [window.prompt(text)] *)
| Alert (text : string)
| SetItem (key value : string).         (** [localStorage.setItem] *)

(** A computation: the events emitted, in order, and the outcome. *)
Definition M (A : Type) : Type := list event * outcome A.

Definition ret {A} (a : A) : M A := ([], Return a).
Definition throw {A} (e : error) : M A := ([], Throw e).
Definition emit (ev : event) : M unit := ([ev], Return tt).
Definition lift {A} (o : outcome A) : M A := ([], o).

Definition bind {A B} (f : A -> M B) (m : M A) : M B :=
  match m with
  | (tr, Return a) => let '(tr', r) := f a in (tr ++ tr', r)
  | (tr, Throw e) => (tr, Throw e)
  | (tr, Pending) => (tr, Pending)
  end.

#[global] Instance M_ret : MRet M := @ret.
#[global] Instance M_bind : MBind M := @bind.

(** [try { m } catch (error) { h error }] *)
Definition try_catch {A} (m : M A) (h : error -> M A) : M A :=
  match m with
  | (tr, Throw e) => let '(tr', r) := h e in (tr ++ tr', r)
  | _ => m
  end.

(** [try { m } finally { f }] *)
Definition finally {A} (m : M A) (f : M unit) : M A :=
  match m with
  | (tr, Pending) => (tr, Pending)
  | (tr, r) => let '(tr', r') := f in
               (tr ++ tr', match r' with Return _ => r | Throw e => Throw e | Pending => Pending end)
  end.

(** [for (const x of l) { st = body x st }] *)
Fixpoint for_of {A S : Type} (l : list A) (body : A -> S -> M S) (st : S) : M S :=
  match l with
  | [] => ret st
  | x :: l' => st' ← body x st; for_of l' body st'
  end.

(* ===================================================================== *)
(** * [atob] *)
(* ===================================================================== *)

(** The forgiving base64 decoding of the HTML standard, which is [atob]. *)
Module Base64.

Definition code (c : ascii) : Z := Z.of_N (N_of_ascii c).

(** The value of a character of the base64 alphabet. *)
Definition value (c : ascii) : option Z :=
  let n := code c in
  if (65 <=? n) && (n <=? 90) then Some (n - 65)
  else if (97 <=? n) && (n <=? 122) then Some (n - 71)
  else if (48 <=? n) && (n <=? 57) then Some (n + 4)
  else if n =? 43 then Some 62
  else if n =? 47 then Some 63
  else None.

(** ASCII white space: TAB, LF, FF, CR and SPACE. *)
Definition is_ascii_whitespace (c : ascii) : bool :=
  match c with
  | "009" | "010" | "012" | "013" | " " => true
  | _ => false
  end%char.

(** With a length that is a multiple of four, one or two [=] at the end
    are removed. *)
Definition strip_padding (l : list ascii) : list ascii :=
  if (length l mod 4 =? 0)%nat then
    match rev l with
    | "="%char :: "="%char :: r => rev r
    | "="%char :: r => rev r
    | _ => l
    end
  else l.

(** Four characters give three bytes; what is left at the end gives two
    bytes (of three characters) or one (of two), the spare bits being
    dropped. *)
Fixpoint decode (l : list Z) : list Z :=
  match l with
  | a :: b :: c :: d :: rest =>
      let n := a * 262144 + b * 4096 + c * 64 + d in
      n / 65536 :: (n / 256) mod 256 :: n mod 256 :: decode rest
  | [a; b; c] =>
      let n := (a * 4096 + b * 64 + c) / 4 in
      [n / 256; n mod 256]
  | [a; b] => [(a * 64 + b) / 16]
  | _ => []
  end.

(** [atob(data)], [None] when it throws. The result is a binary string:
    one character per byte. *)
Definition atob (data : string) : option string :=
  let l := filter (fun c => is_ascii_whitespace c = false)
                  (list_ascii_of_string data) in
  let l := strip_padding l in
  if (length l mod 4 =? 1)%nat then None
  else
    values ← mapM value l;
    Some (string_of_list_ascii
            ((fun n => ascii_of_N (Z.to_N n)) <$> decode values)).

(** [binaryString.charCodeAt(i)] stored at [bytes[i]] for every [i]: a
    [Uint8Array] keeps a number modulo 256. *)
Definition to_Uint8Array (binaryString : string) : list Z :=
  (fun c => code c mod 256) <$> list_ascii_of_string binaryString.

End Base64.

(* ===================================================================== *)
(** * The directory lister *)
(* ===================================================================== *)

Section Script.

Variable W : World.t.
(** The token in use once the prompt loop is over. *)
Variable DIR_DL_TOKEN : string.

(** [await fetch(apiUrl, {headers: ...})] *)
Definition fetch (apiUrl : string) : M Response.t :=
  emit (Request apiUrl DIR_DL_TOKEN);;
  match World.fetch W apiUrl DIR_DL_TOKEN with
  | Some response => ret response
  | None => throw NetworkError
  end.

(** [await response.json()] *)
Definition json_of (response : Response.t) : M json :=
  match Response.body response with
  | Some j => ret j
  | None => throw JsonSyntaxError
  end.

Definition contents_url (owner repo path : string) : string :=
  "https://api.github.com/repos/" +:+ owner +:+ "/" +:+ repo
    +:+ "/contents/" +:+ path.

(** The recursion of the script is bounded by the remote tree only; here
    [fuel] bounds its depth, and a call that needs more is [Pending].
    [allFiles] is one array for a whole walk: every call pushes to it and
    returns it, and a call made by the loop hands it on; here each call
    takes the array as it is and returns it as it leaves it. An exception
    leaves no array to the caller. *)
Fixpoint fetchDirectoryContents (fuel : nat) (owner repo path : string)
    (allFiles : list File.t) : M (list File.t) :=
  match fuel with
  | O => ([], Pending)
  | S fuel' =>
      let apiUrl := contents_url owner repo path in
      response ← fetch apiUrl;
      if negb (Response.ok response) then
        if Response.status response =? 401 then throw AuthError
        else if Response.status response =? 404 then throw NotFoundError
        else throw (RemoteApiError (Response.status response)
                                   (Response.statusText response))
      else
        contents ← json_of response;
        match contents with
        | JObject _ => throw NotIterableError
        | JArray items =>
            for_of items
              (fun item allFiles =>
                 if String.eqb (Item.type item) "file" then
                   ret (allFiles ++
                          [File.make (Item.path item) (Item.sha item)
                                     (Item.name item) (Item.size item)])
                 else if String.eqb (Item.type item) "dir" then
                   fetchDirectoryContents fuel' owner repo (Item.path item)
                                          allFiles
                 else ret allFiles)
              allFiles
        end
  end.

(* =================================================================== *)
(** * The archive builder *)
(* =================================================================== *)

(** The variables of [createAndDownloadZip] that its loop updates. *)
Record zip_state : Type := ZipState
  { zip : gmap string (list Z);
    downloadedCount : nat;
    successfulDownloads : nat }.

(** [s.replace(/\n/g, '')] *)
Definition remove_newlines (s : string) : string :=
  JS.filter_chars (JS.is_not "010") s.

(** [fileData.content] of what a file request returned; an array has no
    such property. *)
Definition content_of (fileData : json) : option string :=
  match fileData with
  | JObject o => Item.content o
  | JArray _ => None
  end.

(** One turn of the loop over [files]. Whatever the [try] block throws, it
    throws before it touches [zip] or a counter, so the handler resumes
    from the state the turn started with. *)
Definition download_file (totalFiles : nat) (owner repo : string)
    (file : File.t) (st : zip_state) : M zip_state :=
  try_catch
    (emit (Status ("Downloading " +:+ File.name file +:+ " ("
                     +:+ pretty (downloadedCount st + 1)%nat +:+ "/"
                     +:+ pretty totalFiles +:+ ")...") "info");;
     let apiUrl := contents_url owner repo (File.path file) in
     response ← fetch apiUrl;
     if negb (Response.ok response) then
       throw (FileFetchError (File.name file) (Response.status response))
     else
       fileData ← json_of response;
       st' ← (if JS.truthy (content_of fileData) then
                match Base64.atob
                        (remove_newlines (default "" (content_of fileData))) with
                | None => throw InvalidCharacterError
                | Some binaryString =>
                    let bytes := Base64.to_Uint8Array binaryString in
                    ret (ZipState (<[File.path file := bytes]> (zip st))
                                  (downloadedCount st)
                                  (successfulDownloads st + 1))
                end
              else
                emit (ConsoleWarn ("No content found for " +:+ File.name file)
                                  None);;
                ret st);
       ret (ZipState (zip st') (downloadedCount st' + 1)
                     (successfulDownloads st')))
    (fun error =>
       emit (ConsoleWarn ("Failed to download " +:+ File.name file +:+ ":")
                         (Some error));;
       ret st).

(** [(size / 1024 / 1024).toFixed(2)]: the division by a power of two is
    exact, and [toFixed] rounds the exact value to the nearest hundredth,
    upwards on a tie. *)
Definition megabytes (size : Z) : string :=
  let h := (size * 200 + 1048576) / 2097152 in
  pretty (h / 100) +:+ "." +:+ pretty (h mod 100 / 10) +:+ pretty (h mod 10).

Definition createAndDownloadZip (files : list File.t)
    (folderName owner repo : string) : M unit :=
  (if World.JSZip_defined W then ret tt
   else
     emit (LoadScript
             "https://cdnjs.cloudflare.com/ajax/libs/jszip/3.10.1/jszip.min.js");;
     if World.script_loads W then ret tt else throw LibraryLoadError);;
  let totalFiles := length files in
  st ← for_of files (download_file totalFiles owner repo)
              (ZipState ∅ 0 0);
  if (successfulDownloads st =? 0)%nat then throw NoFilesDownloadedError
  else
    emit (Status ("Generating ZIP file with " +:+ pretty (successfulDownloads st)
                    +:+ " files...") "info");;
    emit (Generate (zip st));;
    let size := World.blob_size W (zip st) in
    if size =? 0 then throw EmptyArchiveError
    else
      emit (Save (folderName +:+ ".zip") (zip st));;
      emit (Status ("ZIP created successfully! Size: " +:+ megabytes size
                      +:+ " MB") "success").

(* =================================================================== *)
(** * The click handler *)
(* =================================================================== *)

(** [isRepo ? repo : `${repo}-${path.split('/').pop() || 'root'}`] *)
Definition folderName_of (t : Target.t) : string :=
  if Target.isRepo t then Target.repo t
  else Target.repo t +:+ "-"
         +:+ JS.or_else (JS.pop (JS.split "/" (Target.path t))) "root".

(** [downloadContent], with [value] the text of the input field. The
    [return] on an empty input comes before the [try]; the one on an empty
    listing leaves through the [finally] block. *)
Definition downloadContent (fuel : nat) (value : string) : M unit :=
  let url := JS.trim value in
  if negb (JS.truthy (Some url)) then
    emit (Status "Please enter a GitHub repository or directory URL" "error")
  else
    finally
      (try_catch
         (emit (Status "Parsing URL..." "info");;
          t ← lift (parseGitHubUrl url);
          emit (Status "Fetching directory contents..." "info");;
          emit (Disabled true);;
          files ← fetchDirectoryContents fuel (Target.owner t) (Target.repo t)
                                         (Target.path t) [];
          if (length files =? 0)%nat then
            emit (Status "No files found in the directory" "error")
          else
            emit (Status ("Found " +:+ pretty (length files)
                            +:+ " files. Creating ZIP...") "info");;
            createAndDownloadZip files (folderName_of t)
                                 (Target.owner t) (Target.repo t);;
            emit (Status "Download completed successfully!" "success"))
         (fun error =>
            emit (ConsoleError "Download failed:" error);;
            emit (Status ("Download failed: " +:+ message error) "error")))
      (emit (Disabled false)).

End Script.

(* ===================================================================== *)
(** * The token prompt *)
(* ===================================================================== *)

(** The globals of the first lines of the script, and the store behind
    [localStorage]. *)
Record session : Type := Session
  { DIR_DL_TOKEN : option string;
    isTokenValid : bool;
    localStorage : gmap string string }.

(** [localStorage.getItem("DIR_DL_TOKEN") || null] *)
Definition stored_token (storage : gmap string string) : option string :=
  if JS.truthy (storage !! "DIR_DL_TOKEN") then storage !! "DIR_DL_TOKEN"
  else None.

(** The [while] loop; [answers] is what the user does at the successive
    prompts, [None] for a cancelled one. The loop runs as long as it has to,
    and is [Pending] at a prompt when the answers are used up. *)
Fixpoint prompt_loop (answers : list (option string)) (st : session)
  : M session :=
  if negb (isTokenValid st) && negb (JS.truthy (DIR_DL_TOKEN st)) then
    emit (Prompt "Enter GitHub Token:");;
    match answers with
    | [] => ([], Pending)
    | resp :: answers' =>
        if negb (JS.truthy resp)
           || (JS.length (default "" resp) <=? 10)%nat then
          emit (Alert "Invalid token. Please enter a valid GitHub token.");;
          prompt_loop answers' st
        else
          emit (SetItem "DIR_DL_TOKEN" (default "" resp));;
          prompt_loop answers'
            (Session resp true
                     (<["DIR_DL_TOKEN" := default "" resp]> (localStorage st)))
    end
  else ret st.

(** The script up to the end of the loop. *)
Definition startup (storage : gmap string string)
    (answers : list (option string)) : M session :=
  prompt_loop answers (Session (stored_token storage) false storage).


(* ===================================================================== *)
(** * The shapes of the URLs the parser accepts *)
(* ===================================================================== *)

(** A path segment: not empty, without a slash. *)
Definition segment (x : string) : bool :=
  negb (String.eqb x "") && JS.all_chars (JS.is_not "/") x.

(** [.../<owner>/<repo>], nothing after the repository. *)
Definition repo_shape (s : string) : Prop :=
  ∃ pre owner repo,
    s = pre +:+ "github.com/" +:+ owner +:+ "/" +:+ repo
    ∧ segment owner = true ∧ segment repo = true.

(** [.../<owner>/<repo>/tree/<branch>] and whatever follows. *)
Definition dir_shape (s : string) : Prop :=
  ∃ pre owner repo branch rest,
    s = pre +:+ "github.com/" +:+ owner +:+ "/" +:+ repo +:+ "/tree/"
          +:+ branch +:+ rest
    ∧ segment owner = true ∧ segment repo = true ∧ segment branch = true.

(** What follows the branch: the slash after it, if there is one, is not
    part of the path, and the path ends with the line. *)
Definition path_after_branch (rest : string) : string :=
  JS.take_while (Regex.accepts Regex.Dot)
    match rest with
    | String "/" p => p
    | _ => rest
    end.

(* ===================================================================== *)
(** * The remote tree, as the script sees it *)
(* ===================================================================== *)

(** The requests of a trace, in order. *)
Definition requests (tr : list event) : list string :=
  omap (fun ev => match ev with Request url _ => Some url | _ => None end) tr.

(** The archives a trace saves, with their names. *)
Definition saves (tr : list event) : list (string * gmap string (list Z)) :=
  omap (fun ev => match ev with Save n z => Some (n, z) | _ => None end) tr.

(** The archives a trace asks JSZip to generate. *)
Definition generated (tr : list event) : list (gmap string (list Z)) :=
  omap (fun ev => match ev with Generate z => Some z | _ => None end) tr.

(** The console warnings of a trace. *)
Definition warnings (tr : list event) : list (string * option error) :=
  omap (fun ev => match ev with ConsoleWarn t e => Some (t, e) | _ => None end) tr.

(* ===================================================================== *)
(** * The base64 decoding, bit by bit *)
(* ===================================================================== *)

(** What the specification calls the base64 decoding of a payload, written
    after RFC 4648 and not after the script: a character of the alphabet
    stands for its index in the alphabet, on six bits; the bits of the
    characters, put end to end, are cut into bytes of eight bits; the bits
    left over at the end are dropped. The text is read as [atob] reads it:
    ASCII white space does not count, and the padding may be left out. *)
Module Spec.

Definition alphabet : list ascii :=
  list_ascii_of_string
    "ABCDEFGHIJKLMNOPQRSTUVWXYZabcdefghijklmnopqrstuvwxyz0123456789+/".

(** The index of a character in the alphabet. *)
Definition index (c : ascii) : option nat :=
  fst <$> list_find (fun x => x = c) alphabet.

(** The [w] low bits of a number, the highest first. *)
Fixpoint bits (w n : nat) : list bool :=
  match w with
  | O => []
  | S w' => Nat.testbit n w' :: bits w' n
  end.

(** The number that has the given bits, the highest first. *)
Definition number (bs : list bool) : Z :=
  foldl (fun n (b : bool) => 2 * n + (if b then 1 else 0)) 0 bs.

(** The bytes of a run of bits; fewer than eight bits give no byte. *)
Fixpoint octets (bs : list bool) : list Z :=
  match bs with
  | b7 :: b6 :: b5 :: b4 :: b3 :: b2 :: b1 :: b0 :: rest =>
      number [b7; b6; b5; b4; b3; b2; b1; b0] :: octets rest
  | _ => []
  end.

(** TAB, LF, FF, CR and SPACE. *)
Definition white_space : list ascii :=
  ["009"; "010"; "012"; "013"; " "]%char.

Definition ends_with (l e : list ascii) : bool :=
  bool_decide (drop (length l - length e) l = e).

(** The text without its padding: of a text whose length is a multiple of
    four, the [==] or the [=] it ends with. *)
Definition without_padding (l : list ascii) : list ascii :=
  if bool_decide (length l mod 4 = 0)%nat then
    if ends_with l ["="; "="]%char then take (length l - 2) l
    else if ends_with l ["="]%char then take (length l - 1) l
    else l
  else l.

(** The bytes a text stands for; [None] when a character that is left is
    not of the alphabet, or when the number of characters is one more than
    a multiple of four. *)
Definition base64_decoding (s : string) : option (list Z) :=
  let l := without_padding
             (filter (fun c => c ∉ white_space) (list_ascii_of_string s)) in
  if bool_decide (length l mod 4 = 1)%nat then None
  else digits ← mapM index l; Some (octets (digits ≫= bits 6)).

(** The base64 text of some bytes, after RFC 4648: the bits of the bytes,
    eight a byte, are cut into groups of six, the last group being filled
    up with zeros; a group gives the character at its index in the
    alphabet; [=] signs bring the number of characters to a multiple of
    four. *)
Fixpoint sextets (bs : list bool) : list nat :=
  match bs with
  | [] => []
  | b5 :: b4 :: b3 :: b2 :: b1 :: b0 :: rest =>
      Z.to_nat (number [b5; b4; b3; b2; b1; b0]) :: sextets rest
  | _ => [Z.to_nat (number (take 6 (bs ++ replicate 6 false)))]
  end.

Definition base64_encoding (bytes : list Z) : string :=
  let chars :=
    (fun d => nth d alphabet "="%char)
      <$> sextets (bytes ≫= fun b => bits 8 (Z.to_nat b)) in
  string_of_list_ascii
    (chars ++ replicate ((4 - length chars mod 4) mod 4) "="%char).

(** The text without its line feeds. *)
Definition without_newlines (s : string) : string :=
  string_of_list_ascii
    (filter (fun c => c ≠ "010"%char) (list_ascii_of_string s)).

End Spec.

Section Remote.

Variable W : World.t.
Variables token owner repo : string.

(** The answer of the contents endpoint for a path of the repository. *)
Definition served (path : string) : option Response.t :=
  World.fetch W (contents_url owner repo path) token.

(** The descriptor of a listed file. *)
Definition descriptor (item : Item.t) : File.t :=
  File.make (Item.path item) (Item.sha item) (Item.name item) (Item.size item).

(** [lists path files]: every directory from [path] down answers with a
    success and an array, and [files] are the regular files met on the
    way, a directory being walked where its entry stands. *)
Inductive lists : string -> list File.t -> Prop :=
| lists_dir path r items files :
    served path = Some r ->
    Response.ok r = true ->
    Response.body r = Some (JArray items) ->
    lists_items items files ->
    lists path files
with lists_items : list Item.t -> list File.t -> Prop :=
| lists_nil : lists_items [] []
| lists_file item items files :
    Item.type item = "file" ->
    lists_items items files ->
    lists_items (item :: items) (descriptor item :: files)
| lists_subdir item items files1 files2 :
    Item.type item = "dir" ->
    lists (Item.path item) files1 ->
    lists_items items files2 ->
    lists_items (item :: items) (files1 ++ files2)
| lists_other item items files :
    Item.type item <> "file" ->
    Item.type item <> "dir" ->
    lists_items items files ->
    lists_items (item :: items) files.

(** A regular file is reachable under [path] when the listing of [path]
    has it, or has a directory under which it is reachable. *)
Inductive reachable : string -> File.t -> Prop :=
| reachable_file path r items item :
    served path = Some r ->
    Response.ok r = true ->
    Response.body r = Some (JArray items) ->
    item ∈ items ->
    Item.type item = "file" ->
    reachable path (descriptor item)
| reachable_subdir path r items item file :
    served path = Some r ->
    Response.ok r = true ->
    Response.body r = Some (JArray items) ->
    item ∈ items ->
    Item.type item = "dir" ->
    reachable (Item.path item) file ->
    reachable path file.

(** The payload of a file request that succeeds: the response is a
    success and a JSON object, and the object has a [content]. *)
Definition payload (file : File.t) : option string :=
  r ← served (File.path file);
  if Response.ok r then
    match Response.body r with
    | Some (JObject o) => Item.content o
    | _ => None
    end
  else None.

(** The bytes of a file that makes it to the archive: its payload is not
    empty and, without its newlines, is base64. *)
Definition decoded (file : File.t) : option (list Z) :=
  data ← payload file;
  if String.eqb data "" then None
  else Base64.to_Uint8Array <$> Base64.atob (remove_newlines data).

(** The archive of a list of files: each file that decodes, under its
    path. *)
Definition add_file (z : gmap string (list Z)) (file : File.t)
  : gmap string (list Z) :=
  match decoded file with
  | Some b => <[File.path file := b]> z
  | None => z
  end.

Definition archive_of (files : list File.t) : gmap string (list Z) :=
  foldl add_file ∅ files.

(** How many files of a list decode. *)
Definition decoded_count (files : list File.t) : nat :=
  length (filter (fun file => is_Some (decoded file)) files).

(** The entry of a file as the specification has it: the file is fetched
    with a success and a content that is not empty, and the bytes are the
    base64 decoding of the content without its line feeds. *)
Definition entry (file : File.t) : option (list Z) :=
  data ← payload file;
  if decide (data = "") then None
  else Spec.base64_decoding (Spec.without_newlines data).

(** A file that is fetched with a success and comes without a content, or
    with a content that is empty. *)
Definition no_content (file : File.t) : Prop :=
  ∃ r j,
    served (File.path file) = Some r ∧ Response.ok r = true
    ∧ Response.body r = Some j
    ∧ match j with
      | JObject o => Item.content o = None ∨ Item.content o = Some ""
      | JArray _ => True
      end.

End Remote.

(** The error of the lister by status. *)
Definition listing_error (r : Response.t) : error :=
  if Response.status r =? 401 then AuthError
  else if Response.status r =? 404 then NotFoundError
  else RemoteApiError (Response.status r) (Response.statusText r).

(* ===================================================================== *)
(** * The events of a run, by name *)
(* ===================================================================== *)

(** The texts of the two warnings about a file. *)
Definition warns_about (file : File.t) (text : string) : Prop :=
  text = "Failed to download " +:+ File.name file +:+ ":"
  ∨ text = "No content found for " +:+ File.name file.

(** The status line of a turn of the loop. *)
Definition downloading (file : File.t) (i totalFiles : nat) : event :=
  Status ("Downloading " +:+ File.name file +:+ " (" +:+ pretty i +:+ "/"
            +:+ pretty totalFiles +:+ ")...") "info".

(** The events of the load of JSZip. *)
Definition library_events (W : World.t) : list event :=
  if World.JSZip_defined W then []
  else [LoadScript
          "https://cdnjs.cloudflare.com/ajax/libs/jszip/3.10.1/jszip.min.js"].

(** The status lines after the loop, for [n] files in the archive [z]. *)
Definition generating (n : nat) : event :=
  Status ("Generating ZIP file with " +:+ pretty n +:+ " files...") "info".

Definition created (W : World.t) (z : gmap string (list Z)) : event :=
  Status ("ZIP created successfully! Size: "
            +:+ megabytes (World.blob_size W z) +:+ " MB") "success".

(** The events of the click handler before the listing and after a
    failure, and its status line after the listing. *)
Definition starting : list event :=
  [Status "Parsing URL..." "info";
   Status "Fetching directory contents..." "info";
   Disabled true].

Definition failing (e : error) : list event :=
  [ConsoleError "Download failed:" e;
   Status ("Download failed: " +:+ message e) "error";
   Disabled false].

Definition found (files : list File.t) : event :=
  Status ("Found " +:+ pretty (length files) +:+ " files. Creating ZIP...")
         "info".

(* ===================================================================== *)
(** * The answers at the prompt *)
(* ===================================================================== *)

(** An answer the prompt loop rejects: a cancelled prompt, or a text of at
    most ten characters (the empty one among them). *)
Definition rejected (resp : option string) : Prop :=
  match resp with
  | None => True
  | Some s => (String.length s <= 10)%nat
  end.

(** The events of a rejected answer, and of the accepted one. *)
Definition rejection : list event :=
  [Prompt "Enter GitHub Token:";
   Alert "Invalid token. Please enter a valid GitHub token."].

Definition acceptance (token : string) : list event :=
  [Prompt "Enter GitHub Token:"; SetItem "DIR_DL_TOKEN" token].

(* ===================================================================== *)
(** * A remote to run the script on *)
(* ===================================================================== *)

(** The repository [acme/widgets]: at the root a README, an empty file, a
    directory [src], a submodule and a symbolic link; in [src] a directory
    [utils] with two files, and a file that the API refuses to serve. The
    repository [acme/secret] is closed to the token, and the listing of the
    directory [gone] of [acme/broken] fails. *)
Module Demo.

Definition entry (type path name : string) (size : Z) : Item.t :=
  Item.make type path ("sha-" +:+ name) name size None.

Definition file_object (path name : string) (size : Z) (content : string)
  : Item.t :=
  Item.make "file" path ("sha-" +:+ name) name size (Some content).

Definition ok (j : json) : option Response.t :=
  Some (Response.make 200 "OK" (Some j)).

Definition base : string := "https://api.github.com/repos/acme/".

Definition routes : list (string * option Response.t) :=
  [ ("widgets/contents/",
     ok (JArray [entry "file" "README.md" "README.md" 5;
                 entry "file" ".gitkeep" ".gitkeep" 0;
                 entry "dir" "src" "src" 0;
                 entry "submodule" "lib" "lib" 0;
                 entry "symlink" "link" "link" 9]));
    ("widgets/contents/src",
     ok (JArray [entry "dir" "src/utils" "utils" 0;
                 entry "file" "src/main.js" "main.js" 7]));
    ("widgets/contents/src/utils",
     ok (JArray [entry "file" "src/utils/a.js" "a.js" 1;
                 entry "file" "src/utils/b.js" "b.js" 1]));
    ("widgets/contents/README.md",
     ok (JObject (file_object "README.md" "README.md" 5 "SGVs
bG8=
")));
    ("widgets/contents/.gitkeep",
     ok (JObject (file_object ".gitkeep" ".gitkeep" 0 "")));
    ("widgets/contents/src/utils/a.js",
     ok (JObject (file_object "src/utils/a.js" "a.js" 1 "YQ==
")));
    ("widgets/contents/src/utils/b.js",
     ok (JObject (file_object "src/utils/b.js" "b.js" 1 "Yg==
")));
    ("widgets/contents/src/main.js",
     Some (Response.make 403 "Forbidden" None));
    ("secret/contents/",
     Some (Response.make 401 "Unauthorized" None));
    ("broken/contents/",
     ok (JArray [entry "file" "x.txt" "x.txt" 1;
                 entry "dir" "gone" "gone" 0;
                 entry "file" "y.txt" "y.txt" 1]));
    ("broken/contents/gone",
     Some (Response.make 500 "Internal Server Error" None)) ].

Fixpoint route (url : string) (rs : list (string * option Response.t))
  : option Response.t :=
  match rs with
  | [] => Some (Response.make 404 "Not Found" None)
  | (u, r) :: rs' => if String.eqb url (base +:+ u) then r else route url rs'
  end.

Definition world : World.t :=
  World.make (fun url _ => route url routes) false true
             (fun z => 1048576 * Z.of_nat (size z)).

Definition token : string := "ghp_0123456789abcdef".

Definition gitkeep : File.t :=
  File.make ".gitkeep" "sha-.gitkeep" ".gitkeep" 0.

(** The URL of a directory of vendored sources, in a browser. *)
Definition vendor_url : string :=
  "https://github.com/kubernetes/kubernetes/tree/master/vendor/github.com/spf13/cobra".

Definition root_files : list File.t :=
  [ File.make "README.md" "sha-README.md" "README.md" 5;
    File.make ".gitkeep" "sha-.gitkeep" ".gitkeep" 0;
    File.make "src/utils/a.js" "sha-a.js" "a.js" 1;
    File.make "src/utils/b.js" "sha-b.js" "b.js" 1;
    File.make "src/main.js" "sha-main.js" "main.js" 7 ].

End Demo.

(** Other remotes: the repository [acme/bare], with a submodule and an
    empty directory and no file; the demo remote in a browser that cannot
    load JSZip; and the demo remote with a JSZip that generates an empty
    blob. *)
Module Edge.

Definition bare_routes : list (string * option Response.t) :=
  [ ("bare/contents/",
     Demo.ok (JArray [Demo.entry "submodule" "lib" "lib" 0;
                      Demo.entry "dir" "docs" "docs" 0]));
    ("bare/contents/docs", Demo.ok (JArray [])) ].

Definition bare : World.t :=
  World.make (fun url _ => Demo.route url bare_routes) true true (fun _ => 1).

Definition offline : World.t :=
  World.make (World.fetch Demo.world) false false (World.blob_size Demo.world).

Definition hollow : World.t :=
  World.make (World.fetch Demo.world) true true (fun _ => 0).

Definition utils_files : list File.t :=
  [ File.make "src/utils/a.js" "sha-a.js" "a.js" 1;
    File.make "src/utils/b.js" "sha-b.js" "b.js" 1 ].

(** A remote that answers for the path [src/], with its slash, and a URL
    of the directory [src] with two slashes at its end. *)
Definition slash_routes : list (string * option Response.t) :=
  [ ("widgets/contents/src/",
     Demo.ok (JArray [Demo.entry "file" "src/main.js" "main.js" 7]));
    ("widgets/contents/src/main.js",
     Demo.ok (JObject (Demo.file_object "src/main.js" "main.js" 7 "bWFpbigpOwo="))) ].

Definition slashed : World.t :=
  World.make (fun url _ => Demo.route url slash_routes) true true (fun _ => 1).

Definition slashed_url : string :=
  "https://github.com/acme/widgets/tree/main/src//".

End Edge.

(* ===================================================================== *)
(** * The page: the status line, the button, the reset *)
(* ===================================================================== *)

(** The element [#log]. *)
Module LogElement.
Record t : Type := make { className : string; textContent : string }.
End LogElement.

(** [log(text, type)] *)
Definition log (text type : string) (logElement : LogElement.t) : LogElement.t :=
  LogElement.make ("log-" +:+ type) text.

(** The status line after the events of a trace. *)
Definition status_line (tr : list event) (logElement : LogElement.t)
  : LogElement.t :=
  foldl (fun el ev => match ev with Status text type => log text type el | _ => el end)
        logElement tr.

(** [downloadBtn.disabled] after the events of a trace. *)
Definition disabled_after (tr : list event) (disabled : bool) : bool :=
  foldl (fun b ev => match ev with Disabled b' => b' | _ => b end) disabled tr.

(** The click on [#reload]: the token is removed from [localStorage] and
    the page is loaded again, which runs the script from its first line. *)
Definition reload (storage : gmap string string)
    (answers : list (option string)) : M session :=
  startup (delete "DIR_DL_TOKEN" storage) answers.

(** Whether every request of a trace is sent while the button is disabled,
    [disabled] being the state of the button before the trace. *)
Fixpoint guarded (tr : list event) (disabled : bool) : bool :=
  match tr with
  | [] => true
  | Disabled b :: tr' => guarded tr' b
  | Request _ _ :: tr' => disabled && guarded tr' disabled
  | _ :: tr' => guarded tr' disabled
  end.

(** What the lister and the archive builder may do for a repository: tell
    the user, ask the contents API about a path of that repository with
    the token, load JSZip, generate and save. *)
Definition zip_event (token owner repo : string) (ev : event) : Prop :=
  match ev with
  | Status _ _ | ConsoleWarn _ _ | LoadScript _ | Generate _ | Save _ _ => True
  | Request url tk => tk = token ∧ ∃ path, url = contents_url owner repo path
  | _ => False
  end.

(* ===================================================================== *)
(** * The directories of a remote tree *)
(* ===================================================================== *)

Section Directories.

Variable W : World.t.
Variables token owner repo : string.

(** [visits path dirs]: the tree under [path] lists, and [dirs] are [path]
    and the directories below it, each before what it contains and in the
    order of the listings. *)
Inductive visits : string -> list string -> Prop :=
| visits_dir path r items dirs :
    served W token owner repo path = Some r ->
    Response.ok r = true ->
    Response.body r = Some (JArray items) ->
    visits_items items dirs ->
    visits path (path :: dirs)
with visits_items : list Item.t -> list string -> Prop :=
| visits_nil : visits_items [] []
| visits_subdir item items dirs1 dirs2 :
    Item.type item = "dir" ->
    visits (Item.path item) dirs1 ->
    visits_items items dirs2 ->
    visits_items (item :: items) (dirs1 ++ dirs2)
| visits_skip item items dirs :
    Item.type item <> "dir" ->
    visits_items items dirs ->
    visits_items (item :: items) dirs.

End Directories.

(* ===================================================================== *)
(** * Strings: concatenation, prefixes and runs *)
(* ===================================================================== *)

Section StringFacts.

Implicit Types (s t u : string) (c : ascii) (p : ascii -> bool).

Lemma append_nil_l s : "" +:+ s = s.
Proof. reflexivity. Qed.

Lemma append_cons c s t : String c s +:+ t = String c (s +:+ t).
Proof. reflexivity. Qed.

Lemma append_nil_r s : s +:+ "" = s.
Proof. induction s as [|c s IH]; [done|]. by rewrite append_cons, IH. Qed.

Lemma append_assoc s t u : (s +:+ t) +:+ u = s +:+ t +:+ u.
Proof. induction s as [|c s IH]; [done|]. by rewrite !append_cons, IH. Qed.

Lemma append_length s t :
  String.length (s +:+ t) = (String.length s + String.length t)%nat.
Proof. induction s as [|c s IH]; [done|]. rewrite append_cons. simpl. lia. Qed.

Lemma append_eq_nil s t : s +:+ t = "" → s = "" ∧ t = "".
Proof. destruct s; [done|]. by rewrite append_cons. Qed.

Lemma all_chars_app p s t :
  JS.all_chars p (s +:+ t) = JS.all_chars p s && JS.all_chars p t.
Proof.
  induction s as [|c s IH]; [done|].
  rewrite append_cons. simpl. by rewrite IH, andb_assoc.
Qed.

Lemma take_drop_while p s : JS.take_while p s +:+ JS.drop_while p s = s.
Proof.
  induction s as [|c s IH]; [done|].
  simpl. destruct (p c); [|done]. by rewrite append_cons, IH.
Qed.

Lemma all_chars_take_while p s : JS.all_chars p (JS.take_while p s) = true.
Proof.
  induction s as [|c s IH]; [done|].
  simpl. destruct (p c) eqn:E; [|done]. simpl. by rewrite E.
Qed.

(** After a run of [p] characters that is followed by something that does
    not start with one, [drop_while] leaves what follows. *)
Lemma drop_while_run p s t :
  JS.all_chars p s = true → JS.take_while p t = "" →
  JS.drop_while p (s +:+ t) = t.
Proof.
  intros Hs Ht. induction s as [|c s IH].
  - rewrite append_nil_l. destruct t as [|c t]; [done|].
    simpl in *. by destruct (p c).
  - rewrite append_cons. simpl in *. apply andb_true_iff in Hs as [-> Hs]. auto.
Qed.

Lemma take_while_nil_iff p s :
  JS.take_while p s = "" ↔ s = "" ∨ ∃ c s', s = String c s' ∧ p c = false.
Proof.
  destruct s as [|c s]; simpl; [by split; [left|]|].
  destruct (p c) eqn:E; split; try done.
  - intros [|(c' & s' & ? & ?)]; [done|]. congruence.
  - intros _. right. by exists c, s.
Qed.

Lemma take_while_drop_while p s : JS.take_while p (JS.drop_while p s) = "".
Proof.
  induction s as [|c s IH]; [done|].
  simpl. destruct (p c) eqn:E; [done|]. simpl. by rewrite E.
Qed.

Lemma substring_app_l s t :
  String.substring 0 (String.length s) (s +:+ t) = s.
Proof.
  induction s as [|c s IH].
  - by destruct t.
  - rewrite append_cons. simpl. by rewrite IH.
Qed.

(** What a group captured, knowing what it left. *)
Lemma consumed_app s t : Regex.consumed (s +:+ t) t = s.
Proof.
  unfold Regex.consumed. rewrite append_length.
  replace (String.length s + String.length t - String.length t)%nat
    with (String.length s) by lia.
  apply substring_app_l.
Qed.

Lemma segment_spec s :
  segment s = true ↔ s ≠ "" ∧ JS.all_chars (JS.is_not "/") s = true.
Proof.
  unfold segment. rewrite andb_true_iff, negb_true_iff, String.eqb_neq.
  done.
Qed.

Lemma is_not_spec c d : JS.is_not d c = true ↔ c ≠ d.
Proof. unfold JS.is_not. by rewrite negb_true_iff, Ascii.eqb_neq. Qed.

(** A slash-free text has no slash. *)
Lemma no_slash_app_slash s t :
  JS.all_chars (JS.is_not "/") (s +:+ "/" +:+ t) = false.
Proof.
  rewrite all_chars_app, append_cons. simpl.
  by rewrite andb_false_r.
Qed.

(** The text after the last slash, and so the text before it, is
    determined. *)
Lemma last_slash_unique s s' t t' :
  JS.all_chars (JS.is_not "/") t = true →
  JS.all_chars (JS.is_not "/") t' = true →
  s +:+ "/" +:+ t = s' +:+ "/" +:+ t' → s = s' ∧ t = t'.
Proof.
  intros Ht Ht'. revert s'.
  induction s as [|c s IH]; intros [|c' s'] E; simplify_eq;
    rewrite ?append_nil_l in *; simplify_eq.
  - done.
  - by rewrite no_slash_app_slash in Ht.
  - by rewrite no_slash_app_slash in Ht'.
  - destruct (IH s') as [-> ->]; done.
Qed.

End StringFacts.

(* ===================================================================== *)
(** * The matcher on the patterns of the script *)
(* ===================================================================== *)

Section RegexFacts.

Import Regex.

Implicit Types (s t : string) (c d : ascii) (a : atom) (caps : captures).

Lemma run_seq r1 r2 s caps k :
  run (Seq r1 r2) s caps k = run r1 s caps (fun s1 caps1 => run r2 s1 caps1 k).
Proof. reflexivity. Qed.

(** A literal word matches itself and nothing else. *)
Lemma run_word w s caps k x :
  run (word w) s caps k = Some x ↔ ∃ s', s = w +:+ s' ∧ k s' caps = Some x.
Proof.
  revert s. induction w as [|d w IH]; intros s; simpl.
  - split; [by exists s|]. by intros (s' & -> & ?).
  - destruct s as [|c s].
    + split; [done|]. by intros (s' & ? & ?).
    + destruct (Ascii.eqb_spec c d) as [->|Hne].
      * rewrite IH. split; intros (s' & E & ?); exists s'.
        -- by rewrite append_cons, E.
        -- rewrite append_cons in E. by simplify_eq.
      * split; [done|]. intros (s' & E & ?).
        rewrite append_cons in E. by simplify_eq.
Qed.

Lemma run_opt r s caps k :
  run (Opt r) s caps k =
  match run r s caps k with Some res => Some res | None => k s caps end.
Proof. reflexivity. Qed.

Lemma run_word_app w s caps k : run (word w) (w +:+ s) caps k = k s caps.
Proof.
  induction w as [|d w IH]; [done|].
  rewrite append_cons. simpl. by rewrite Ascii.eqb_refl.
Qed.

Lemma run_word_mismatch d w c s caps k :
  c ≠ d → run (word (String d w)) (String c s) caps k = None.
Proof. intros Hne. simpl. by destruct (Ascii.eqb_spec c d). Qed.

(** When what follows cannot start with a character of the run, only the
    longest run is a candidate. *)
Lemma star_longest a s k :
  (∀ c s', accepts a c = true → k (String c s') = None) →
  star a s k = k (JS.drop_while (accepts a) s).
Proof.
  intros Hk. induction s as [|c s IH]; [done|].
  simpl. destruct (accepts a c) eqn:E; [|done].
  rewrite IH. destruct (k (JS.drop_while _ s)) eqn:E'; [done|]. by apply Hk.
Qed.

(** When what follows accepts the longest run, that is the match. *)
Lemma star_greedy a s k :
  is_Some (k (JS.drop_while (accepts a) s)) →
  star a s k = k (JS.drop_while (accepts a) s).
Proof.
  intros Hk. induction s as [|c s IH]; [done|].
  simpl in *. destruct (accepts a c) eqn:E; [|done].
  rewrite (IH Hk). by destruct Hk as [r ->].
Qed.

(** [(a+)] before something that cannot start with an [a] character: the
    group is the whole run and the run is not empty. *)
Lemma run_group_plus a s caps k x :
  (∀ c s' cs, accepts a c = true → k (String c s') cs = None) →
  run (Group (Plus a)) s caps k = Some x ↔
  ∃ seg rest, s = seg +:+ rest ∧ seg ≠ ""
              ∧ JS.all_chars (accepts a) seg = true
              ∧ k rest (caps ++ [seg]) = Some x.
Proof.
  intros Hk. simpl. split.
  - destruct s as [|c s]; [done|].
    destruct (accepts a c) eqn:E; [|done].
    rewrite star_longest by (intros; by apply Hk).
    intros H. exists (String c (JS.take_while (accepts a) s)),
                     (JS.drop_while (accepts a) s).
    assert (String c s = String c (JS.take_while (accepts a) s)
                           +:+ JS.drop_while (accepts a) s) as Es
      by (by rewrite append_cons, take_drop_while).
    split; [done|]. split; [done|]. split.
    + simpl. by rewrite E, all_chars_take_while.
    + rewrite Es, consumed_app in H. done.
  - intros (seg & rest & -> & Hne & Hall & H).
    destruct seg as [|c seg]; [done|].
    rewrite append_cons. simpl in Hall. apply andb_true_iff in Hall as [Hc Hall].
    rewrite Hc.
    assert (JS.take_while (accepts a) rest = "") as Hrest.
    { apply take_while_nil_iff. destruct rest as [|c' rest']; [by left|].
      right. exists c', rest'. split; [done|].
      destruct (accepts a c') eqn:E; [|done].
      by rewrite Hk in H. }
    rewrite star_longest by (intros; by apply Hk).
    rewrite drop_while_run by done.
    by rewrite <-append_cons, consumed_app.
Qed.

(** [a+] without a group, before something that always matches. *)
Lemma run_plus_greedy a s caps k :
  (∀ s' cs, is_Some (k s' cs)) →
  run (Plus a) s caps k =
  match s with
  | String c s' =>
      if accepts a c then k (JS.drop_while (accepts a) s') caps else None
  | EmptyString => None
  end.
Proof.
  intros Hk. simpl. destruct s as [|c s]; [done|].
  destruct (accepts a c); [|done]. by rewrite star_greedy.
Qed.

(** [(.* )] at the end of a pattern takes the rest of the line. *)
Lemma run_group_star_dot s caps :
  run (Group (Star Dot)) s caps (fun _ caps' => Some caps') =
  Some (caps ++ [JS.take_while (accepts Dot) s]).
Proof.
  simpl. rewrite star_greedy by done.
  rewrite <-(take_drop_while (accepts Dot) s) at 1.
  by rewrite consumed_app.
Qed.

(** The searches, from the matches at a position. *)
Lemma exec_Some r s caps :
  exec r s = Some caps →
  ∃ pre suf, s = pre +:+ suf ∧ run_here r suf = Some caps.
Proof.
  induction s as [|c s IH]; simpl.
  - destruct (run_here r "") eqn:E; [|done].
    intros [= <-]. by exists "", "".
  - destruct (run_here r (String c s)) eqn:E.
    + intros [= <-]. by exists "", (String c s).
    + intros (pre & suf & -> & H)%IH. by exists (String c pre), suf.
Qed.

Lemma exec_None r s :
  exec r s = None ↔ ∀ pre suf, s = pre +:+ suf → run_here r suf = None.
Proof.
  induction s as [|c s IH]; simpl.
  - destruct (run_here r "") eqn:E.
    + split; [done|]. intros H. by rewrite (H "" "") in E.
    + split; [|done]. intros _ pre suf [-> ->]%eq_sym%append_eq_nil. done.
  - destruct (run_here r (String c s)) eqn:E.
    + split; [done|]. intros H. by rewrite (H "" (String c s)) in E.
    + rewrite IH. split.
      * intros H [|c' pre] suf Es.
        -- rewrite append_nil_l in Es. by subst.
        -- rewrite append_cons in Es. simplify_eq. by apply (H pre).
      * intros H pre suf ->. by apply (H (String c pre)).
Qed.

End RegexFacts.

(* ===================================================================== *)
(** * What the two patterns of the parser match *)
(* ===================================================================== *)

Section Patterns.

Import Regex.

Lemma segment_not_slash x :
  segment x = true ↔ x ≠ "" ∧ JS.all_chars (accepts (NoneOf "/")) x = true.
Proof. apply segment_spec. Qed.

(** [repoRegex] at a position: the host, two segments and the end. *)
Lemma run_here_repo s caps :
  run_here repoRegex s = Some caps ↔
  ∃ owner repo,
    s = "github.com/" +:+ owner +:+ "/" +:+ repo
    ∧ segment owner = true ∧ segment repo = true ∧ caps = [owner; repo].
Proof.
  unfold run_here, repoRegex, seq. cbn [fold_right].
  rewrite run_seq, run_word.
  assert (∀ s1 caps1 x,
    run (Seq (Group (Plus (NoneOf "/"))) (Seq Eos Empty)) s1 caps1
        (fun _ caps' => Some caps') = Some x ↔
    ∃ repo, s1 = repo ∧ segment repo = true ∧ x = caps1 ++ [repo]) as Hrepo.
  { intros s1 caps1 x. rewrite run_seq, run_group_plus by done.
    setoid_rewrite segment_not_slash. split.
    - intros (seg & rest & -> & ? & ? & H). destruct rest; [|done].
      simpl in H. exists seg. rewrite append_nil_r. naive_solver.
    - intros (repo & -> & [? ?] & ->). exists repo, "".
      by rewrite append_nil_r. }
  split.
  - intros (s1 & -> & H). rewrite run_seq in H.
    apply run_group_plus in H as (owner & rest & -> & ? & ? & H).
    + rewrite run_seq in H. apply run_word in H as (s2 & -> & H).
      apply Hrepo in H as (repo & -> & ? & ->).
      exists owner, repo. by rewrite segment_not_slash.
    + intros c s' cs Hc. rewrite run_seq.
      apply run_word_mismatch. by apply is_not_spec.
  - intros (owner & repo & -> & [? ?]%segment_not_slash & ? & ->).
    eexists. split; [done|]. rewrite run_seq.
    apply run_group_plus.
    + intros c s' cs Hc. rewrite run_seq.
      apply run_word_mismatch. by apply is_not_spec.
    + exists owner, ("/" +:+ repo). repeat (split; [done|]).
      rewrite run_seq. apply run_word. eexists. split; [done|].
      apply Hrepo. by exists repo.
Qed.

(** The end of [dirRegex], from the optional slash on: it always matches,
    and its group is the path. *)
Lemma run_dir_tail s caps :
  run (Seq (Opt (word "/")) (Seq (Group (Star Dot)) Empty)) s caps
      (fun _ caps' => Some caps') =
  Some (caps ++ [path_after_branch s]).
Proof.
  rewrite run_seq, run_opt.
  destruct s as [|c s].
  - by rewrite run_seq, run_group_star_dot.
  - destruct (Ascii.eqb_spec c "/") as [->|Hne].
    + change (String "/" s) with ("/" +:+ s) at 1.
      by rewrite run_word_app, run_seq, run_group_star_dot.
    + rewrite run_word_mismatch by done.
      rewrite run_seq, run_group_star_dot.
      unfold path_after_branch.
      destruct c as [[] [] [] [] [] [] [] []]; done.
Qed.

(** The branch and what follows it. *)
Lemma run_dir_branch s caps :
  run (Seq (Plus (NoneOf "/"))
           (Seq (Opt (word "/")) (Seq (Group (Star Dot)) Empty))) s caps
      (fun _ caps' => Some caps') =
  match s with
  | String c s' =>
      if accepts (NoneOf "/") c then
        Some (caps ++ [path_after_branch
                         (JS.drop_while (accepts (NoneOf "/")) s')])
      else None
  | EmptyString => None
  end.
Proof.
  rewrite run_seq, run_plus_greedy.
  - destruct s as [|c s]; [done|].
    destruct (accepts _ c); [|done]. apply run_dir_tail.
  - intros s' cs. rewrite run_dir_tail. by eexists.
Qed.

(** [dirRegex] at a position: the host, two segments, [tree], a branch,
    and the path on the rest of the line. *)
Lemma run_here_dir s caps :
  run_here dirRegex s = Some caps ↔
  ∃ owner repo branch rest,
    s = "github.com/" +:+ owner +:+ "/" +:+ repo +:+ "/tree/"
          +:+ branch +:+ rest
    ∧ segment owner = true ∧ segment repo = true ∧ segment branch = true
    ∧ JS.take_while (accepts (NoneOf "/")) rest = ""
    ∧ caps = [owner; repo; path_after_branch rest].
Proof.
  unfold run_here, dirRegex, seq. cbn [fold_right].
  rewrite run_seq, run_word.
  assert (∀ c s' cs k, accepts (NoneOf "/") c = true →
    run (Seq (word "/") k) (String c s') cs
        (fun _ caps' => Some caps') = None) as Hslash.
  { intros c s' cs k Hc. rewrite run_seq.
    apply run_word_mismatch. by apply is_not_spec. }
  assert (∀ c s' cs k, accepts (NoneOf "/") c = true →
    run (Seq (word "/tree/") k) (String c s') cs
        (fun _ caps' => Some caps') = None) as Htree.
  { intros c s' cs k Hc. rewrite run_seq.
    apply run_word_mismatch. by apply is_not_spec. }
  split.
  - intros (s1 & -> & H). rewrite run_seq in H.
    apply run_group_plus in H as (owner & s2 & -> & ? & ? & H);
      [|by intros; apply Hslash].
    rewrite run_seq in H. apply run_word in H as (s3 & -> & H).
    rewrite run_seq in H.
    apply run_group_plus in H as (repo & s4 & -> & ? & ? & H);
      [|by intros; apply Htree].
    rewrite run_seq in H. apply run_word in H as (s5 & -> & H).
    rewrite run_dir_branch in H.
    destruct s5 as [|c s5]; [done|].
    destruct (accepts (NoneOf "/") c) eqn:Ec; [|done].
    simplify_eq.
    exists owner, repo, (String c (JS.take_while (accepts (NoneOf "/")) s5)),
           (JS.drop_while (accepts (NoneOf "/")) s5).
    rewrite !segment_not_slash.
    rewrite (append_cons c (JS.take_while _ s5)), take_drop_while.
    repeat (split; [done|]). split.
    + split; [done|]. simpl in *. by rewrite Ec, all_chars_take_while.
    + by rewrite take_while_drop_while.
  - intros (owner & repo & branch & rest & -> & [? ?]%segment_not_slash
              & [? ?]%segment_not_slash & [Hb ?]%segment_not_slash & Hrest & ->).
    eexists. split; [done|]. rewrite run_seq.
    apply run_group_plus; [by intros; apply Hslash|].
    exists owner. eexists. repeat (split; [done|]).
    rewrite run_seq. apply run_word. eexists. split; [done|].
    rewrite run_seq.
    apply run_group_plus; [by intros; apply Htree|].
    exists repo. eexists. repeat (split; [done|]).
    rewrite run_seq. apply run_word. eexists. split; [done|].
    rewrite run_dir_branch.
    destruct branch as [|c branch]; [done|].
    rewrite append_cons. simpl in *.
    destruct (JS.is_not "/" c) eqn:Ec; [|done].
    by rewrite drop_while_run.
Qed.

End Patterns.

(* ===================================================================== *)
(** * The parser on the two shapes *)
(* ===================================================================== *)

Section ParserFacts.

Import Regex.

Lemma strip_trailing_slash_segment x :
  segment x = true → strip_trailing_slash x = x.
Proof.
  intros [Hne Hall]%segment_spec. induction x as [|c x IH]; [done|].
  simpl in Hall. apply andb_true_iff in Hall as [Hc Hall].
  destruct x as [|c' x].
  - simpl. apply is_not_spec in Hc. by destruct (Ascii.eqb_spec c "/").
  - change (strip_trailing_slash (String c (String c' x)))
      with (String c (strip_trailing_slash (String c' x))).
    by rewrite IH.
Qed.

Lemma strip_trailing_slash_app s t :
  t ≠ "" → strip_trailing_slash (s +:+ t) = s +:+ strip_trailing_slash t.
Proof.
  intros Ht. induction s as [|c s IH]; [done|].
  rewrite !append_cons, <-IH.
  destruct (s +:+ t) eqn:E; [|done].
  by apply append_eq_nil in E as [_ ?].
Qed.

(** What is stripped lies after any segment of the text. *)
Lemma strip_trailing_slash_after_segment x rest :
  segment x = true →
  ∃ rest', strip_trailing_slash (x +:+ rest) = x +:+ rest'.
Proof.
  intros Hx. destruct rest as [|c rest].
  - exists "". by rewrite append_nil_r, strip_trailing_slash_segment.
  - eexists. by apply strip_trailing_slash_app.
Qed.

(** The whole-repository pattern finds the last two segments, wherever
    the host starts. *)
Lemma exec_repo s caps :
  exec repoRegex s = Some caps ↔
  ∃ pre owner repo,
    s = pre +:+ "github.com/" +:+ owner +:+ "/" +:+ repo
    ∧ segment owner = true ∧ segment repo = true ∧ caps = [owner; repo].
Proof.
  split.
  - intros (pre & suf & -> & (owner & repo & -> & ? & ? & ->)%run_here_repo)%exec_Some.
    by exists pre, owner, repo.
  - intros (pre & owner & repo & -> & Ho & Hr & ->).
    destruct (exec repoRegex _) as [caps|] eqn:E.
    + apply exec_Some in E
        as (pre' & suf & Es & (owner' & repo' & -> & Ho' & Hr' & ->)%run_here_repo).
      apply segment_spec in Ho as [_ Ho], Hr as [_ Hr].
      apply segment_spec in Ho' as [_ Ho'], Hr' as [_ Hr'].
      assert ((pre +:+ "github.com/" +:+ owner) +:+ "/" +:+ repo
              = (pre' +:+ "github.com/" +:+ owner') +:+ "/" +:+ repo') as E1
        by (rewrite !append_assoc; exact Es).
      apply last_slash_unique in E1 as [E1 ->]; [|done..].
      assert ((pre +:+ "github.com") +:+ "/" +:+ owner
              = (pre' +:+ "github.com") +:+ "/" +:+ owner') as E2
        by (rewrite !append_assoc; exact E1).
      by apply last_slash_unique in E2 as [_ ->].
    + exfalso. assert (run_here repoRegex ("github.com/" +:+ owner +:+ "/" +:+ repo) = None) as E'
        by (by eapply exec_None).
      assert (is_Some (@None captures)) as [? [=]].
      rewrite <-E'. eexists. apply run_here_repo. by exists owner, repo.
Qed.

Lemma exec_repo_None s : exec repoRegex s = None ↔ ¬ repo_shape s.
Proof.
  split.
  - intros E (pre & owner & repo & Hs & Ho & Hr).
    assert (exec repoRegex s = Some [owner; repo]) as E'
      by (apply exec_repo; by exists pre, owner, repo).
    congruence.
  - intros Hs. destruct (exec repoRegex s) as [caps|] eqn:E; [|done].
    destruct Hs. apply exec_repo in E as (pre & owner & repo & ? & ? & ? & _).
    by exists pre, owner, repo.
Qed.

(** A branch can be read up to the next slash. *)
Lemma branch_extend branch rest :
  segment branch = true →
  ∃ branch' rest',
    branch +:+ rest = branch' +:+ rest' ∧ segment branch' = true
    ∧ JS.take_while (accepts (NoneOf "/")) rest' = "".
Proof.
  intros [Hne Hall]%segment_spec.
  exists (branch +:+ JS.take_while (accepts (NoneOf "/")) rest),
         (JS.drop_while (accepts (NoneOf "/")) rest).
  rewrite append_assoc, take_drop_while. split; [done|]. split.
  - apply segment_spec. split.
    + intros [? _]%append_eq_nil. done.
    + rewrite all_chars_app, Hall. apply all_chars_take_while.
  - apply take_while_drop_while.
Qed.

(** The directory pattern finds the host, two segments, [tree] and a
    branch, wherever they are; the third group is the path. *)
Lemma exec_dir_Some s caps :
  exec dirRegex s = Some caps →
  ∃ pre owner repo branch rest,
    s = pre +:+ "github.com/" +:+ owner +:+ "/" +:+ repo +:+ "/tree/"
          +:+ branch +:+ rest
    ∧ segment owner = true ∧ segment repo = true ∧ segment branch = true
    ∧ JS.take_while (accepts (NoneOf "/")) rest = ""
    ∧ caps = [owner; repo; path_after_branch rest].
Proof.
  intros (pre & suf & -> & H)%exec_Some.
  apply run_here_dir in H as (owner & repo & branch & rest & -> & ?).
  by exists pre, owner, repo, branch, rest.
Qed.

Lemma exec_dir_None s : exec dirRegex s = None ↔ ¬ dir_shape s.
Proof.
  split.
  - intros E (pre & owner & repo & branch & rest & -> & Ho & Hr & Hb).
    destruct (branch_extend branch rest Hb) as (branch' & rest' & Eb & Hb' & Hrest).
    assert (run_here dirRegex ("github.com/" +:+ owner +:+ "/" +:+ repo
              +:+ "/tree/" +:+ branch +:+ rest) = None) as E'
      by (by eapply exec_None).
    assert (is_Some (@None captures)) as [? [=]].
    rewrite <-E', Eb. eexists. apply run_here_dir.
    by exists owner, repo, branch', rest'.
  - intros Hs. destruct (exec dirRegex s) as [caps|] eqn:E; [|done].
    destruct Hs.
    apply exec_dir_Some in E
      as (pre & owner & repo & branch & rest & ? & ? & ? & ? & _).
    by exists pre, owner, repo, branch, rest.
Qed.

Lemma or_else_empty p : JS.or_else (Some p) "" = p.
Proof. by destruct p. Qed.

(** The three ways out of [parseGitHubUrl]. *)
Lemma parse_repo url pre owner repo :
  strip_trailing_slash url = pre +:+ "github.com/" +:+ owner +:+ "/" +:+ repo →
  segment owner = true → segment repo = true →
  parseGitHubUrl url = Return (Target.make owner repo "" true).
Proof.
  intros Es Ho Hr. unfold parseGitHubUrl.
  assert (exec repoRegex (strip_trailing_slash url) = Some [owner; repo]) as ->
    by (apply exec_repo; by exists pre, owner, repo).
  done.
Qed.

Lemma parse_dir url :
  ¬ repo_shape (strip_trailing_slash url) →
  dir_shape (strip_trailing_slash url) →
  ∃ pre owner repo branch rest,
    strip_trailing_slash url =
      pre +:+ "github.com/" +:+ owner +:+ "/" +:+ repo +:+ "/tree/"
        +:+ branch +:+ rest
    ∧ segment owner = true ∧ segment repo = true ∧ segment branch = true
    ∧ JS.take_while (accepts (NoneOf "/")) rest = ""
    ∧ parseGitHubUrl url =
        Return (Target.make owner repo (path_after_branch rest) false).
Proof.
  intros Hrepo%exec_repo_None Hdir. unfold parseGitHubUrl. rewrite Hrepo.
  destruct (exec dirRegex _) as [caps|] eqn:E;
    [|by apply exec_dir_None in E].
  apply exec_dir_Some in E
    as (pre & owner & repo & branch & rest & Es & ? & ? & ? & ? & ->).
  exists pre, owner, repo, branch, rest.
  repeat (split; [done|]).
  do 2 f_equal. apply or_else_empty.
Qed.

Lemma parse_invalid url :
  ¬ repo_shape (strip_trailing_slash url) →
  ¬ dir_shape (strip_trailing_slash url) →
  parseGitHubUrl url = Throw InvalidUrlError.
Proof.
  intros Hrepo%exec_repo_None Hdir%exec_dir_None.
  unfold parseGitHubUrl. by rewrite Hrepo, Hdir.
Qed.

(** A directory URL is still one without its last slash. *)
Lemma dir_shape_strip s : dir_shape s → dir_shape (strip_trailing_slash s).
Proof.
  intros (pre & owner & repo & branch & rest & -> & Ho & Hr & Hb).
  destruct (strip_trailing_slash_after_segment branch rest Hb) as [rest' E].
  assert (branch +:+ rest ≠ "") as Hne.
  { intros [-> _]%append_eq_nil. done. }
  exists pre, owner, repo, branch, rest'.
  split; [|done].
  replace (pre +:+ "github.com/" +:+ owner +:+ "/" +:+ repo +:+ "/tree/"
             +:+ branch +:+ rest)
    with ((pre +:+ "github.com/" +:+ owner +:+ "/" +:+ repo +:+ "/tree/")
            +:+ branch +:+ rest) by (by rewrite !append_assoc).
  rewrite strip_trailing_slash_app, E by done.
  by rewrite !append_assoc.
Qed.

End ParserFacts.

(* ===================================================================== *)
(** * Computations *)
(* ===================================================================== *)

Section MonadFacts.

Context {A B : Type}.

Lemma bind_Return (f : A -> M B) tr a :
  bind f (tr, Return a) = (tr ++ (f a).1, (f a).2).
Proof. simpl. by destruct (f a). Qed.

Lemma bind_Throw (f : A -> M B) tr e : bind f (tr, Throw e) = (tr, Throw e).
Proof. reflexivity. Qed.

Lemma bind_Pending (f : A -> M B) tr : bind f (tr, Pending) = (tr, Pending).
Proof. reflexivity. Qed.

Lemma mbind_unfold (f : A -> M B) (m : M A) : mbind f m = bind f m.
Proof. reflexivity. Qed.

Lemma bind_inv (f : A -> M B) (m : M A) tr res :
  bind f m = (tr, res) →
  (∃ tr1 a tr2, m = (tr1, Return a) ∧ f a = (tr2, res) ∧ tr = tr1 ++ tr2)
  ∨ (∃ e, m = (tr, Throw e) ∧ res = Throw e)
  ∨ (m = (tr, Pending) ∧ res = Pending).
Proof.
  destruct m as [tr1 [a|e|]]; simpl.
  - destruct (f a) as [tr2 r] eqn:E. intros [= <- <-].
    left. by exists tr1, a, tr2.
  - intros [= <- <-]. right. left. by exists e.
  - intros [= <- <-]. by right; right.
Qed.

End MonadFacts.

Lemma fetch_unfold W token apiUrl :
  fetch W token apiUrl =
  ([Request apiUrl token],
   match World.fetch W apiUrl token with
   | Some response => Return response
   | None => Throw NetworkError
   end).
Proof.
  unfold fetch. rewrite mbind_unfold. unfold emit. rewrite bind_Return.
  by destruct (World.fetch W apiUrl token).
Qed.

Lemma json_of_unfold response :
  json_of response =
  ([], match Response.body response with
       | Some j => Return j
       | None => Throw JsonSyntaxError
       end).
Proof. unfold json_of. by destruct (Response.body response). Qed.

Lemma requests_app tr1 tr2 : requests (tr1 ++ tr2) = requests tr1 ++ requests tr2.
Proof. apply omap_app. Qed.

Lemma saves_app tr1 tr2 : saves (tr1 ++ tr2) = saves tr1 ++ saves tr2.
Proof. apply omap_app. Qed.

Lemma generated_app tr1 tr2 :
  generated (tr1 ++ tr2) = generated tr1 ++ generated tr2.
Proof. apply omap_app. Qed.

Lemma warnings_app tr1 tr2 : warnings (tr1 ++ tr2) = warnings tr1 ++ warnings tr2.
Proof. apply omap_app. Qed.

(* ===================================================================== *)
(** * The directory lister on a remote tree *)
(* ===================================================================== *)

Scheme lists_mut := Induction for lists Sort Prop
  with lists_items_mut := Induction for lists_items Sort Prop.

Section ListerFacts.

Variable W : World.t.
Variables token owner repo : string.

(** The body of the loop of [fetchDirectoryContents], the recursive call
    having [fuel] left. *)
Let visit (fuel : nat) (item : Item.t) (allFiles : list File.t)
  : M (list File.t) :=
  if String.eqb (Item.type item) "file" then
    ret (allFiles ++ [descriptor item])
  else if String.eqb (Item.type item) "dir" then
    fetchDirectoryContents W token fuel owner repo (Item.path item) allFiles
  else ret allFiles.

(** One level of the lister. *)
Lemma fetchDirectoryContents_S fuel path allFiles :
  fetchDirectoryContents W token (S fuel) owner repo path allFiles =
  match served W token owner repo path with
  | None => ([Request (contents_url owner repo path) token], Throw NetworkError)
  | Some r =>
      if Response.ok r then
        match Response.body r with
        | None => ([Request (contents_url owner repo path) token],
                   Throw JsonSyntaxError)
        | Some (JObject _) => ([Request (contents_url owner repo path) token],
                               Throw NotIterableError)
        | Some (JArray items) =>
            let '(tr, res) := for_of items (visit fuel) allFiles in
            (Request (contents_url owner repo path) token :: tr, res)
        end
      else ([Request (contents_url owner repo path) token],
            Throw (listing_error r))
  end.
Proof.
  unfold served. cbn [fetchDirectoryContents].
  rewrite mbind_unfold, fetch_unfold.
  destruct (World.fetch W _ token) as [r|]; [|done].
  rewrite bind_Return. cbn [fst snd].
  destruct (Response.ok r); cbn [negb].
  - rewrite mbind_unfold, json_of_unfold.
    destruct (Response.body r) as [[items|o]|]; [|done..].
    rewrite bind_Return. cbn [fst snd app].
    fold (visit fuel).
    change (λ item allFiles0, _) with (visit fuel).
    by destruct (for_of items (visit fuel) allFiles).
  - unfold listing_error.
    destruct (Response.status r =? 401); [done|].
    by destruct (Response.status r =? 404).
Qed.

Lemma for_of_cons {X S} (x : X) l (body : X -> S -> M S) st :
  for_of (x :: l) body st = bind (for_of l body) (body x st).
Proof. reflexivity. Qed.

Lemma visit_file fuel item allFiles :
  Item.type item = "file" →
  visit fuel item allFiles = ([], Return (allFiles ++ [descriptor item])).
Proof. intros E. unfold visit. by rewrite E. Qed.

Lemma visit_dir fuel item allFiles :
  Item.type item = "dir" →
  visit fuel item allFiles =
  fetchDirectoryContents W token fuel owner repo (Item.path item) allFiles.
Proof. intros E. unfold visit. by rewrite E. Qed.

Lemma visit_other fuel item allFiles :
  Item.type item ≠ "file" → Item.type item ≠ "dir" →
  visit fuel item allFiles = ([], Return allFiles).
Proof.
  intros E1%String.eqb_neq E2%String.eqb_neq. unfold visit.
  by rewrite E1, E2.
Qed.

(** On a tree that lists, a walk that is given enough depth returns the
    files of the tree after those it started with. *)
Lemma lists_returns path files :
  lists W token owner repo path files →
  ∃ n, ∀ fuel, (n ≤ fuel)%nat → ∀ allFiles,
    (fetchDirectoryContents W token fuel owner repo path allFiles).2
    = Return (allFiles ++ files).
Proof.
  intros H.
  induction H using lists_mut with
    (P0 := fun items files _ =>
       ∃ n, ∀ fuel, (n ≤ fuel)%nat → ∀ allFiles,
         (for_of items (visit fuel) allFiles).2 = Return (allFiles ++ files)).
  - destruct IHlists as [n Hn]. exists (S n).
    intros [|fuel] Hle allFiles; [lia|].
    rewrite fetchDirectoryContents_S, e, e0, e1.
    specialize (Hn fuel ltac:(lia) allFiles).
    by destruct (for_of items (visit fuel) allFiles).
  - exists 0%nat. intros fuel _ allFiles. simpl. by rewrite app_nil_r.
  - destruct IHlists as [n Hn]. exists n. intros fuel Hle allFiles.
    rewrite for_of_cons, visit_file, bind_Return by done. cbn [snd].
    rewrite Hn by done. by rewrite <-app_assoc.
  - destruct IHlists as [n1 Hn1], IHlists0 as [n2 Hn2].
    exists (n1 `max` n2)%nat. intros fuel Hle allFiles.
    rewrite for_of_cons, visit_dir by done.
    specialize (Hn1 fuel ltac:(lia) allFiles).
    destruct (fetchDirectoryContents _ _ fuel _ _ _ allFiles) as [tr res].
    simpl in Hn1. subst res. rewrite bind_Return. cbn [snd].
    rewrite Hn2 by lia. by rewrite <-app_assoc.
  - destruct IHlists as [k Hk]. exists k. intros fuel Hle allFiles.
    rewrite for_of_cons, visit_other, bind_Return by done. cbn [snd].
    by apply Hk.
Qed.

(** The files of a tree that lists are the reachable regular files. *)
Lemma lists_reachable path files :
  lists W token owner repo path files →
  ∀ file, file ∈ files ↔ reachable W token owner repo path file.
Proof.
  intros H.
  induction H using lists_mut with
    (P0 := fun items files _ => ∀ file,
       file ∈ files ↔
       (∃ item, item ∈ items ∧ Item.type item = "file"
                ∧ file = descriptor item)
       ∨ (∃ item, item ∈ items ∧ Item.type item = "dir"
                  ∧ reachable W token owner repo (Item.path item) file)).
  - intros file. rewrite IHlists. split.
    + intros [(item & ? & ? & ->)|(item & ? & ? & ?)].
      * by eapply reachable_file.
      * by eapply reachable_subdir.
    + intros Hr. inversion Hr; simplify_eq.
      * left. by eexists.
      * right. by eexists.
  - intros file. split; [by intros ?%elem_of_nil|].
    intros [(? & ?%elem_of_nil & _)|(? & ?%elem_of_nil & _)]; done.
  - intros file. rewrite elem_of_cons, IHlists. split.
    + intros [->|[(i & ? & ?)|(i & ? & ?)]].
      * left. exists item. split; [by left|done].
      * left. exists i. split; [by right|done].
      * right. exists i. split; [by right|done].
    + intros [(i & [->|?]%elem_of_cons & ? & ->)|(i & [->|?]%elem_of_cons & ? & ?)].
      * by left.
      * right. left. by exists i.
      * congruence.
      * right. right. by exists i.
  - intros file. rewrite elem_of_app, IHlists, IHlists0. split.
    + intros [?|[(i & ? & ?)|(i & ? & ?)]].
      * right. exists item. split; [by left|done].
      * left. exists i. split; [by right|done].
      * right. exists i. split; [by right|done].
    + intros [(i & [->|?]%elem_of_cons & ? & ->)|(i & [->|?]%elem_of_cons & ? & ?)].
      * congruence.
      * right. left. by exists i.
      * by left.
      * right. right. by exists i.
  - intros file. rewrite IHlists. split.
    + intros [(i & ? & ?)|(i & ? & ?)].
      * left. exists i. split; [by right|done].
      * right. exists i. split; [by right|done].
    + intros [(i & [->|?]%elem_of_cons & ? & ->)|(i & [->|?]%elem_of_cons & ? & ?)].
      * done.
      * left. by exists i.
      * done.
      * right. by exists i.
Qed.

(** A request of a walk that is answered with a failure ends the walk:
    it is the last event, and the walk throws the error of its status. *)
Lemma listing_aborts fuel path allFiles tr res url r :
  fetchDirectoryContents W token fuel owner repo path allFiles = (tr, res) →
  Request url token ∈ tr →
  World.fetch W url token = Some r →
  Response.ok r = false →
  res = Throw (listing_error r) ∧ last tr = Some (Request url token).
Proof.
  revert path allFiles tr res.
  induction fuel as [|fuel IH]; intros path allFiles tr res.
  { intros [= <- <-] ?%elem_of_nil. done. }
  assert (∀ items acc tr res,
    for_of items (visit fuel) acc = (tr, res) →
    Request url token ∈ tr →
    World.fetch W url token = Some r → Response.ok r = false →
    res = Throw (listing_error r) ∧ last tr = Some (Request url token))
    as Hloop.
  { induction items as [|item items IHitems]; intros acc tr' res' E Hin Hr Hok.
    { injection E as <- <-. by apply elem_of_nil in Hin. }
    rewrite for_of_cons in E.
    assert (∀ tr1 res1, visit fuel item acc = (tr1, res1) →
              Request url token ∈ tr1 →
              res1 = Throw (listing_error r)
              ∧ last tr1 = Some (Request url token)) as Hvisit.
    { intros tr1 res1 E1 Hin1. unfold visit in E1.
      destruct (String.eqb (Item.type item) "file").
      { injection E1 as <- <-. by apply elem_of_nil in Hin1. }
      destruct (String.eqb (Item.type item) "dir"); [by eapply IH|].
      injection E1 as <- <-. by apply elem_of_nil in Hin1. }
    apply bind_inv in E
        as [(tr1 & a & tr2 & E1 & E2 & ->)|[(e & E1 & ->)|[E1 ->]]].
    - apply elem_of_app in Hin as [Hin|Hin].
      + by destruct (Hvisit _ _ E1 Hin) as [[=] _].
      + destruct (IHitems _ _ _ E2 Hin Hr Hok) as [-> Hlast].
        split; [done|]. by rewrite last_app, Hlast.
    - by apply Hvisit.
    - by destruct (Hvisit _ _ E1 Hin) as [[=] _]. }
  rewrite fetchDirectoryContents_S. unfold served.
  intros E Hin Hr Hok.
  destruct (World.fetch W (contents_url owner repo path) token) as [r0|] eqn:E0.
  - destruct (Response.ok r0) eqn:Hok0.
    + destruct (Response.body r0) as [[items|o]|].
      * destruct (for_of items (visit fuel) allFiles) as [tr' res'] eqn:E'.
        injection E as <- <-.
        apply elem_of_cons in Hin as [Heq|Hin]; [simplify_eq; congruence|].
        destruct (Hloop _ _ _ _ E' Hin Hr Hok) as [-> Hlast].
        split; [done|]. by rewrite last_cons, Hlast.
      * injection E as <- <-.
        apply list_elem_of_singleton in Hin. simplify_eq. congruence.
      * injection E as <- <-.
        apply list_elem_of_singleton in Hin. simplify_eq. congruence.
    + injection E as <- <-.
      apply list_elem_of_singleton in Hin. simplify_eq. done.
  - injection E as <- <-.
    apply list_elem_of_singleton in Hin. simplify_eq.
Qed.

End ListerFacts.

(* ===================================================================== *)
(** * The archive builder on a remote *)
(* ===================================================================== *)

Section ZipFacts.

Variable W : World.t.
Variables token owner repo : string.

Local Abbreviation decoded' := (decoded W token owner repo).
Local Abbreviation add_file' := (add_file W token owner repo).
Local Abbreviation archive_of' := (archive_of W token owner repo).
Local Abbreviation decoded_count' := (decoded_count W token owner repo).

(** A turn of the loop on a file that decodes: the file is added. *)
Lemma download_file_decoded totalFiles file st b :
  decoded' file = Some b →
  download_file W token totalFiles owner repo file st =
  ([downloading file (downloadedCount st + 1) totalFiles;
    Request (contents_url owner repo (File.path file)) token],
   Return (ZipState (<[File.path file := b]> (zip st))
                    (downloadedCount st + 1)
                    (successfulDownloads st + 1))).
Proof.
  unfold decoded, payload, served, download_file.
  rewrite !mbind_unfold, fetch_unfold.
  destruct (World.fetch W _ token) as [r|]; [|done].
  cbn -[pretty String.append contents_url Base64.atob].
  destruct (Response.ok r); [|done].
  cbn -[pretty String.append contents_url Base64.atob].
  rewrite json_of_unfold.
  destruct (Response.body r) as [[items|o]|]; [done| |done].
  cbn -[pretty String.append contents_url Base64.atob].
  destruct (Item.content o) as [data|]; [|done].
  destruct data as [|c data]; [done|].
  cbn -[pretty String.append contents_url Base64.atob].
  destruct (Base64.atob _) as [bin|]; [|done].
  intros [= <-]. reflexivity.
Qed.

(** A turn of the loop on a file that does not: a warning, and the
    archive and the count of successes are as before. *)
Lemma download_file_failed totalFiles file st :
  decoded' file = None →
  ∃ text e downloadedCount',
    download_file W token totalFiles owner repo file st =
    ([downloading file (downloadedCount st + 1) totalFiles;
      Request (contents_url owner repo (File.path file)) token;
      ConsoleWarn text e],
     Return (ZipState (zip st) downloadedCount' (successfulDownloads st)))
    ∧ warns_about file text.
Proof.
  unfold decoded, payload, served, download_file, warns_about.
  rewrite !mbind_unfold, fetch_unfold.
  destruct st as [z dc sd].
  destruct (World.fetch W _ token) as [r|];
    [|intros _; eexists _, _, _; split; [reflexivity|by left]].
  cbn -[pretty String.append contents_url Base64.atob].
  destruct (Response.ok r);
    [|intros _; eexists _, _, _; split; [reflexivity|by left]].
  cbn -[pretty String.append contents_url Base64.atob].
  rewrite json_of_unfold.
  destruct (Response.body r) as [[items|o]|];
    [intros _; eexists _, _, _; split; [reflexivity|by right]|
    |intros _; eexists _, _, _; split; [reflexivity|by left]].
  cbn -[pretty String.append contents_url Base64.atob].
  destruct (Item.content o) as [data|];
    [|intros _; eexists _, _, _; split; [reflexivity|by right]].
  destruct data as [|c data];
    [intros _; eexists _, _, _; split; [reflexivity|by right]|].
  cbn -[pretty String.append contents_url Base64.atob].
  destruct (Base64.atob _) as [bin|]; [done|].
  intros _; eexists _, _, _; split; [reflexivity|by left].
Qed.

Lemma decoded_count_cons file files :
  decoded_count' (file :: files) =
  (match decoded' file with Some _ => 1 | None => 0 end
   + decoded_count' files)%nat.
Proof.
  unfold decoded_count. rewrite filter_cons.
  destruct (decoded' file) eqn:E; case_decide as H; simpl; try done.
  destruct H. by eexists.
Qed.

Lemma add_file_Some z file b :
  decoded' file = Some b → add_file' z file = <[File.path file := b]> z.
Proof. intros E. unfold add_file. by rewrite E. Qed.

Lemma add_file_None z file : decoded' file = None → add_file' z file = z.
Proof. intros E. unfold add_file. by rewrite E. Qed.

(** The loop over the files: it gets to its end, asks for every file in
    turn, builds the archive of the files, counts those that decode and
    warns about the others. Nothing is generated or saved on the way. *)
Lemma download_loop totalFiles files st :
  ∃ tr st',
    for_of files (download_file W token totalFiles owner repo) st
    = (tr, Return st')
    ∧ zip st' = foldl add_file' (zip st) files
    ∧ successfulDownloads st' =
        (successfulDownloads st + decoded_count' files)%nat
    ∧ requests tr = (fun file => contents_url owner repo (File.path file)) <$> files
    ∧ saves tr = [] ∧ generated tr = []
    ∧ (∀ file, file ∈ files → decoded' file = None →
         ∃ text e, (text, e) ∈ warnings tr ∧ warns_about file text)
    ∧ length (warnings tr) = (length files - decoded_count' files)%nat.
Proof.
  revert st. induction files as [|file files IH]; intros st.
  { exists [], st.
    split_and!; [done|done| |done|done|done| |done].
    - unfold decoded_count. simpl. lia.
    - by intros file ?%elem_of_nil. }
  assert (decoded_count' files ≤ length files)%nat as Hle
    by apply length_filter.
  rewrite for_of_cons, decoded_count_cons.
  destruct (decoded' file) as [b|] eqn:E.
  - rewrite (download_file_decoded _ _ _ b E), bind_Return.
    destruct (IH (ZipState (<[File.path file:=b]> (zip st))
                           (downloadedCount st + 1)
                           (successfulDownloads st + 1)))
      as (tr & st' & -> & Hz & Hs & Hr & Hsv & Hg & Hw & Hl).
    eexists _, _. split; [done|]. cbn [fst snd zip successfulDownloads] in *.
    cbn [foldl]. rewrite (add_file_Some _ _ b) by done.
    split_and!; [done|lia| | | | |].
    + by rewrite requests_app, Hr.
    + by rewrite saves_app, Hsv.
    + by rewrite generated_app, Hg.
    + intros f [->|Hf]%elem_of_cons Hd; [congruence|].
      destruct (Hw f Hf Hd) as (text & e & ? & ?). exists text, e.
      split; [|done]. rewrite warnings_app. apply elem_of_app. by right.
    + rewrite warnings_app, length_app, Hl. cbn. lia.
  - destruct (download_file_failed totalFiles file st E)
      as (text & e & dc & -> & Hwarn).
    rewrite bind_Return.
    destruct (IH (ZipState (zip st) dc (successfulDownloads st)))
      as (tr & st' & -> & Hz & Hs & Hr & Hsv & Hg & Hw & Hl).
    eexists _, _. split; [done|]. cbn [fst snd zip successfulDownloads] in *.
    cbn [foldl]. rewrite add_file_None by done.
    split_and!; [done|lia| | | | |].
    + by rewrite requests_app, Hr.
    + by rewrite saves_app, Hsv.
    + by rewrite generated_app, Hg.
    + intros f [->|Hf]%elem_of_cons Hd.
      * exists text, e. split; [|done]. rewrite warnings_app.
        apply elem_of_app. left. cbn. by left.
      * destruct (Hw f Hf Hd) as (text' & e' & ? & ?).
        exists text', e'. split; [|done]. rewrite warnings_app.
        apply elem_of_app. by right.
    + rewrite warnings_app, length_app, Hl. cbn. lia.
Qed.

(** The archive of a list of files, entry by entry. *)
Lemma foldl_add_file_inv files z p b :
  foldl add_file' z files !! p = Some b →
  z !! p = Some b
  ∨ ∃ file, file ∈ files ∧ File.path file = p ∧ decoded' file = Some b.
Proof.
  revert z. induction files as [|file files IH]; intros z; [by left|].
  simpl. intros [H|(f & ? & ? & ?)]%IH.
  - unfold add_file in H. destruct (decoded' file) as [b'|] eqn:E; [|by left].
    destruct (decide (File.path file = p)) as [<-|Hne].
    + rewrite lookup_insert_eq in H. simplify_eq.
      right. exists file. split; [by left|done].
    + rewrite lookup_insert_ne in H by done. by left.
  - right. exists f. split; [by right|done].
Qed.

Lemma foldl_add_file_other files z p :
  p ∉ File.path <$> files → foldl add_file' z files !! p = z !! p.
Proof.
  revert z. induction files as [|file files IH]; intros z; [done|].
  rewrite fmap_cons, not_elem_of_cons. intros [Hne Hp]. simpl.
  rewrite IH by done. unfold add_file.
  destruct (decoded' file); [|done]. by rewrite lookup_insert_ne.
Qed.

Lemma foldl_add_file_lookup files z file :
  NoDup (File.path <$> files) → file ∈ files →
  foldl add_file' z files !! File.path file =
  match decoded' file with
  | Some b => Some b
  | None => z !! File.path file
  end.
Proof.
  revert z. induction files as [|f files IH]; intros z;
    [by intros _ ?%elem_of_nil|].
  rewrite fmap_cons, NoDup_cons. intros [Hf Hnd] [->|Hin]%elem_of_cons; simpl.
  - rewrite foldl_add_file_other by done. unfold add_file.
    destruct (decoded' f); [|done]. by rewrite lookup_insert_eq.
  - rewrite IH by done. destruct (decoded' file); [done|].
    unfold add_file. destruct (decoded' f); [|done].
    rewrite lookup_insert_ne; [done|].
    intros E. apply Hf. rewrite E. by apply list_elem_of_fmap_2.
Qed.

Lemma foldl_add_file_size files z :
  NoDup (File.path <$> files) →
  (∀ file, file ∈ files → z !! File.path file = None) →
  size (foldl add_file' z files) = (size z + decoded_count' files)%nat.
Proof.
  revert z. induction files as [|f files IH]; intros z.
  { intros _ _. unfold decoded_count. simpl. lia. }
  rewrite fmap_cons, NoDup_cons. intros [Hf Hnd] Hz.
  simpl. rewrite decoded_count_cons.
  assert (z !! File.path f = None) as Hzf by (apply Hz; by left).
  unfold add_file at 2. destruct (decoded' f) as [b|].
  - rewrite IH; [|done|].
    + rewrite map_size_insert_None by done. lia.
    + intros file Hin. rewrite lookup_insert_ne.
      * apply Hz. by right.
      * intros E. apply Hf. rewrite E. by apply list_elem_of_fmap_2.
  - rewrite IH; [lia|done|]. intros file Hin. apply Hz. by right.
Qed.

Lemma createAndDownloadZip_no_library files folderName :
  World.JSZip_defined W = false → World.script_loads W = false →
  createAndDownloadZip W token files folderName owner repo =
  (library_events W, Throw LibraryLoadError).
Proof.
  intros E1 E2. unfold createAndDownloadZip, library_events.
  by rewrite E1, E2.
Qed.

(** [createAndDownloadZip] once JSZip is there: the loop, then the three
    ways out. *)
Lemma createAndDownloadZip_spec files folderName :
  World.JSZip_defined W || World.script_loads W = true →
  ∃ tr,
    requests tr = (fun file => contents_url owner repo (File.path file)) <$> files
    ∧ saves tr = [] ∧ generated tr = []
    ∧ (∀ file, file ∈ files → decoded' file = None →
         ∃ text e, (text, e) ∈ warnings tr ∧ warns_about file text)
    ∧ length (warnings tr) = (length files - decoded_count' files)%nat
    ∧ createAndDownloadZip W token files folderName owner repo =
      if (decoded_count' files =? 0)%nat then
        (library_events W ++ tr, Throw NoFilesDownloadedError)
      else if World.blob_size W (archive_of' files) =? 0 then
        (library_events W ++ tr
           ++ [generating (decoded_count' files); Generate (archive_of' files)],
         Throw EmptyArchiveError)
      else
        (library_events W ++ tr
           ++ [generating (decoded_count' files); Generate (archive_of' files);
               Save (folderName +:+ ".zip") (archive_of' files);
               created W (archive_of' files)],
         Return tt).
Proof.
  intros Hlib.
  destruct (download_loop (length files) files (ZipState ∅ 0 0))
    as (tr & st' & Eloop & Hz & Hs & Hr & Hsv & Hg & Hw & Hl).
  exists tr. split_and!; [done..|].
  unfold createAndDownloadZip, library_events, generating, created, archive_of.
  cbn [zip successfulDownloads] in Hz, Hs. rewrite Nat.add_0_l in Hs.
  rewrite <-Hz, <-Hs.
  assert ((if World.JSZip_defined W then ret tt
           else emit (LoadScript
                 "https://cdnjs.cloudflare.com/ajax/libs/jszip/3.10.1/jszip.min.js");;
                if World.script_loads W then ret tt else throw LibraryLoadError)
          = (if World.JSZip_defined W then []
             else [LoadScript
                 "https://cdnjs.cloudflare.com/ajax/libs/jszip/3.10.1/jszip.min.js"],
             Return tt)) as ->.
  { destruct (World.JSZip_defined W); [done|].
    simpl in Hlib. by rewrite Hlib. }
  rewrite !mbind_unfold, bind_Return. cbn [fst snd].
  rewrite Eloop. rewrite bind_Return.
  destruct (successfulDownloads st' =? 0)%nat.
  { cbn [fst snd throw]. by rewrite app_nil_r. }
  destruct (World.blob_size W (zip st') =? 0); cbn; by rewrite ?app_nil_r.
Qed.

End ZipFacts.

(* ===================================================================== *)
(** * The click handler, stage by stage *)
(* ===================================================================== *)

Section HandlerFacts.

Variable W : World.t.
Variable token : string.

Lemma downloadContent_empty fuel value :
  JS.trim value = "" →
  downloadContent W token fuel value =
  ([Status "Please enter a GitHub repository or directory URL" "error"],
   Return tt).
Proof. intros E. unfold downloadContent. by rewrite E. Qed.

Lemma downloadContent_invalid fuel value :
  JS.trim value ≠ "" →
  parseGitHubUrl (JS.trim value) = Throw InvalidUrlError →
  downloadContent W token fuel value =
  (Status "Parsing URL..." "info" :: failing InvalidUrlError, Return tt).
Proof.
  intros Hne E. unfold downloadContent. rewrite E.
  by destruct (JS.trim value).
Qed.

(** After the parser: the listing, then the archive, and what the
    handler makes of their outcomes. *)
Lemma downloadContent_parsed fuel value t :
  JS.trim value ≠ "" →
  parseGitHubUrl (JS.trim value) = Return t →
  downloadContent W token fuel value =
  let '(trl, resl) :=
    fetchDirectoryContents W token fuel (Target.owner t) (Target.repo t)
                           (Target.path t) [] in
  match resl with
  | Pending => (starting ++ trl, Pending)
  | Throw e => (starting ++ trl ++ failing e, Return tt)
  | Return files =>
      if (length files =? 0)%nat then
        (starting ++ trl
           ++ [Status "No files found in the directory" "error";
               Disabled false],
         Return tt)
      else
        let '(trz, resz) :=
          createAndDownloadZip W token files (folderName_of t)
                               (Target.owner t) (Target.repo t) in
        match resz with
        | Return _ =>
            (starting ++ trl ++ found files :: trz
               ++ [Status "Download completed successfully!" "success";
                   Disabled false],
             Return tt)
        | Throw e => (starting ++ trl ++ found files :: trz ++ failing e,
                      Return tt)
        | Pending => (starting ++ trl ++ found files :: trz, Pending)
        end
  end.
Proof.
  intros Hne E. unfold downloadContent. rewrite E.
  destruct (JS.trim value) as [|c url]; [done|]. cbn [JS.truthy negb].
  cbn -[fetchDirectoryContents createAndDownloadZip String.append pretty
        message folderName_of].
  destruct (fetchDirectoryContents _ _ _ _ _ _ _) as [trl [files|e|]];
    cbn -[fetchDirectoryContents createAndDownloadZip String.append pretty
          message folderName_of];
    [|by rewrite ?app_nil_r, <-?app_assoc..].
  destruct (length files =? 0)%nat;
    cbn -[fetchDirectoryContents createAndDownloadZip String.append pretty
          message folderName_of];
    [by rewrite ?app_nil_r, <-?app_assoc|].
  destruct (createAndDownloadZip _ _ _ _ _ _) as [trz [[]|e|]];
    cbn -[String.append pretty message];
    repeat first [rewrite <-app_assoc | rewrite app_nil_r | progress cbn [app]];
    done.
Qed.

End HandlerFacts.

(* ===================================================================== *)
(** * The last segment of a path *)
(* ===================================================================== *)

Section SplitFacts.

Implicit Types (s seg : string) (c : ascii).

Lemma split_nonempty c s : JS.split c s ≠ [].
Proof.
  induction s as [|d s IH]; [done|].
  simpl. destruct (Ascii.eqb d c); [done|]. by destruct (JS.split c s).
Qed.

Lemma pop_cons x l : l ≠ [] → JS.pop (x :: l) = JS.pop l.
Proof. unfold JS.pop. by destruct l. Qed.

(** A text without a slash is one piece. *)
Lemma split_segment seg :
  JS.all_chars (JS.is_not "/") seg = true → JS.split "/" seg = [seg].
Proof.
  induction seg as [|c seg IH]; [done|].
  simpl. intros [Hc Hseg]%andb_true_iff.
  apply is_not_spec in Hc. destruct (Ascii.eqb_spec c "/"); [done|].
  by rewrite IH.
Qed.

(** A slash makes two pieces at least. *)
Lemma split_length_slash s t :
  (2 ≤ length (JS.split "/" (s +:+ "/" +:+ t)))%nat.
Proof.
  induction s as [|c s IH].
  - rewrite append_nil_l, append_cons, append_nil_l. simpl.
    pose proof (split_nonempty "/" t). destruct (JS.split "/" t); [done|].
    simpl. lia.
  - rewrite append_cons. simpl. destruct (Ascii.eqb c "/").
    + simpl. lia.
    + destruct (JS.split "/" (s +:+ "/" +:+ t)); simpl in *; lia.
Qed.

(** What [split] and [pop] find after the last slash. *)
Lemma pop_split_after_slash s seg :
  JS.all_chars (JS.is_not "/") seg = true →
  JS.pop (JS.split "/" (s +:+ "/" +:+ seg)) = Some seg.
Proof.
  intros Hseg. induction s as [|c s IH].
  - rewrite append_nil_l, append_cons, append_nil_l. cbn [JS.split].
    rewrite Ascii.eqb_refl, pop_cons by apply split_nonempty.
    by rewrite split_segment.
  - rewrite append_cons. cbn [JS.split].
    destruct (Ascii.eqb c "/").
    + rewrite pop_cons by apply split_nonempty. exact IH.
    + pose proof (split_length_slash s seg) as Hlen.
      destruct (JS.split "/" (s +:+ "/" +:+ seg)) as [|piece [|piece' pieces]];
        [simpl in Hlen; lia..|].
      rewrite pop_cons by done. by rewrite pop_cons in IH by done.
Qed.

Lemma pop_split_segment seg :
  JS.all_chars (JS.is_not "/") seg = true →
  JS.pop (JS.split "/" seg) = Some seg.
Proof. intros H. by rewrite split_segment. Qed.

End SplitFacts.

(* ===================================================================== *)
(** * The prompt loop *)
(* ===================================================================== *)

Section PromptFacts.

Lemma prompt_loop_done answers st :
  isTokenValid st = true → prompt_loop answers st = ([], Return st).
Proof. intros E. destruct answers; simpl; by rewrite E. Qed.

Lemma rejected_test resp :
  rejected resp →
  negb (JS.truthy resp) || (JS.length (default "" resp) <=? 10)%nat = true.
Proof.
  destruct resp as [s|]; [|done]. simpl. intros H%Nat.leb_le.
  unfold JS.length. rewrite H. apply orb_true_r.
Qed.

Lemma accepted_test good :
  (10 < String.length good)%nat →
  negb (JS.truthy (Some good))
  || (JS.length (default "" (Some good)) <=? 10)%nat = false.
Proof.
  intros H. unfold JS.length. simpl.
  destruct good; [simpl in H; lia|]. simpl.
  apply Nat.leb_gt. simpl in H. lia.
Qed.

(** While the loop waits for a token, a rejected answer costs a prompt
    and an alert and changes nothing. *)
Lemma prompt_loop_rejected bad answers st :
  isTokenValid st = false → JS.truthy (DIR_DL_TOKEN st) = false →
  Forall rejected bad →
  prompt_loop (bad ++ answers) st =
  ((bad ≫= fun _ => rejection) ++ (prompt_loop answers st).1,
   (prompt_loop answers st).2).
Proof.
  intros Hv Ht Hbad. induction Hbad as [|resp bad Hresp _ IH].
  { simpl. by destruct (prompt_loop answers st). }
  cbn [app prompt_loop]. rewrite Hv, Ht. cbn [negb andb].
  rewrite (rejected_test _ Hresp), IH.
  unfold rejection. cbn. by destruct (prompt_loop answers st).
Qed.

Lemma prompt_loop_waiting st :
  isTokenValid st = false → JS.truthy (DIR_DL_TOKEN st) = false →
  prompt_loop [] st = ([Prompt "Enter GitHub Token:"], Pending).
Proof. intros Hv Ht. simpl. by rewrite Hv, Ht. Qed.

Lemma prompt_loop_accepted good answers st :
  isTokenValid st = false → JS.truthy (DIR_DL_TOKEN st) = false →
  (10 < String.length good)%nat →
  prompt_loop (Some good :: answers) st =
  (acceptance good,
   Return (Session (Some good) true
                   (<["DIR_DL_TOKEN" := good]> (localStorage st)))).
Proof.
  intros Hv Ht Hgood. cbn [prompt_loop]. rewrite Hv, Ht. cbn [negb andb].
  rewrite (accepted_test _ Hgood), prompt_loop_done by done.
  reflexivity.
Qed.

End PromptFacts.

(* ===================================================================== *)
(** * The URL parser: claims C5, C6 and C10 *)
(* ===================================================================== *)

(** C5. A URL of the branch-subdirectory shape is not always parsed as one:
    the whole-repository pattern is tried first and is not anchored, so the
    URL of the directory [vendor/github.com/spf13/cobra] of the repository
    [kubernetes/kubernetes], which ends with [github.com/spf13/cobra], comes
    out as the whole repository [spf13/cobra] with an empty path, and not
    as [kubernetes/kubernetes] with the path after the branch. *)
Theorem directory_url_parsed_as_repository :
  Demo.vendor_url
  = "https://" +:+ "github.com/" +:+ "kubernetes" +:+ "/" +:+ "kubernetes"
      +:+ "/tree/" +:+ "master" +:+ "/vendor/github.com/spf13/cobra"
  ∧ dir_shape Demo.vendor_url
  ∧ JS.trim Demo.vendor_url = Demo.vendor_url
  ∧ path_after_branch "/vendor/github.com/spf13/cobra"
    = "vendor/github.com/spf13/cobra"
  ∧ parseGitHubUrl Demo.vendor_url
    = Return (Target.make "spf13" "cobra" "" true).
Proof.
  split_and!; try reflexivity.
  by exists "https://", "kubernetes", "kubernetes", "master",
            "/vendor/github.com/spf13/cobra".
Qed.

(** C6. An input that, once its trailing slash is stripped, has neither the
    whole-repository shape nor the branch-subdirectory shape is refused by
    the parser with [InvalidUrlError]; and when the text of the input field
    is such an input once trimmed, the click handler sends no request (and
    saves nothing). *)
Theorem invalid_url_is_rejected url :
  ¬ repo_shape (strip_trailing_slash url) →
  ¬ dir_shape (strip_trailing_slash url) →
  parseGitHubUrl url = Throw InvalidUrlError
  ∧ ∀ W token fuel value,
      JS.trim value = url →
      requests (downloadContent W token fuel value).1 = []
      ∧ saves (downloadContent W token fuel value).1 = []
      ∧ (downloadContent W token fuel value).2 = Return tt.
Proof.
  intros Hrepo Hdir.
  pose proof (parse_invalid url Hrepo Hdir) as E. split; [done|].
  intros W token fuel value <-.
  destruct (decide (JS.trim value = "")) as [Hempty|Hne].
  - by rewrite downloadContent_empty.
  - by rewrite downloadContent_invalid.
Qed.

(** The URL of a repository on another forge, with blanks around it. *)
Lemma invalid_url_is_rejected_witness :
  parseGitHubUrl "https://gitlab.com/acme/widgets" = Throw InvalidUrlError
  ∧ requests (downloadContent Demo.world Demo.token 10
                " https://gitlab.com/acme/widgets ").1 = [].
Proof.
  assert (¬ repo_shape (strip_trailing_slash "https://gitlab.com/acme/widgets"))
    as Hrepo by (apply exec_repo_None; vm_compute; reflexivity).
  assert (¬ dir_shape (strip_trailing_slash "https://gitlab.com/acme/widgets"))
    as Hdir by (apply exec_dir_None; vm_compute; reflexivity).
  destruct (invalid_url_is_rejected "https://gitlab.com/acme/widgets" Hrepo Hdir)
    as [Hparse Hop].
  split; [exact Hparse|].
  apply (Hop Demo.world Demo.token 10%nat " https://gitlab.com/acme/widgets ").
  vm_compute. reflexivity.
Defined.

(** C10. The patterns of the parser are not anchored at the start of the
    input. A string that ends with [github.com/<owner>/<repo>], whatever
    comes before, is parsed as that repository. A string that contains
    [github.com/<owner>/<repo>/tree/<branch>] anywhere is accepted too, and
    parsed from such a substring of it (as a whole repository when it also
    ends like one). So [see github.com/a/b] parses as owner [a], repository
    [b], and is not refused with [InvalidUrlError]. *)
Theorem parser_is_not_anchored :
  (∀ pre owner repo,
     segment owner = true → segment repo = true →
     parseGitHubUrl (pre +:+ "github.com/" +:+ owner +:+ "/" +:+ repo)
     = Return (Target.make owner repo "" true))
  ∧ (∀ s, dir_shape s →
       ∃ t pre,
         parseGitHubUrl s = Return t
         ∧ segment (Target.owner t) = true ∧ segment (Target.repo t) = true
         ∧ ((Target.isRepo t = true ∧ Target.path t = ""
             ∧ strip_trailing_slash s =
                 pre +:+ "github.com/" +:+ Target.owner t +:+ "/"
                   +:+ Target.repo t)
            ∨ (Target.isRepo t = false
               ∧ ∃ branch rest,
                   strip_trailing_slash s =
                     pre +:+ "github.com/" +:+ Target.owner t +:+ "/"
                       +:+ Target.repo t +:+ "/tree/" +:+ branch +:+ rest
                   ∧ segment branch = true
                   ∧ Target.path t = path_after_branch rest)))
  ∧ parseGitHubUrl "see github.com/a/b" = Return (Target.make "a" "b" "" true).
Proof.
  split_and!; [| |reflexivity].
  - intros pre owner repo Ho Hr.
    apply (parse_repo _ pre); [|done..].
    replace (pre +:+ "github.com/" +:+ owner +:+ "/" +:+ repo)
      with ((pre +:+ "github.com/" +:+ owner +:+ "/") +:+ repo)
      by (by rewrite !append_assoc).
    rewrite strip_trailing_slash_app, strip_trailing_slash_segment; [done..|].
    by apply segment_spec in Hr as [? _].
  - intros s Hs%dir_shape_strip.
    destruct (Regex.exec repoRegex (strip_trailing_slash s)) as [caps|] eqn:E.
    + apply exec_repo in E as (pre & owner & repo & Es & Ho & Hr & ->).
      exists (Target.make owner repo "" true), pre.
      split; [by eapply parse_repo|]. split; [done|]. split; [done|].
      left. by split_and!.
    + apply exec_repo_None in E.
      destruct (parse_dir s E Hs)
        as (pre & owner & repo & branch & rest & Es & Ho & Hr & Hb & _ & Hp).
      exists (Target.make owner repo (path_after_branch rest) false), pre.
      split; [done|]. split; [done|]. split; [done|].
      right. split; [done|]. by exists branch, rest.
Qed.

(** A repository and a directory, each in the middle of a sentence. *)
Lemma parser_is_not_anchored_witness :
  parseGitHubUrl ("mirror of " +:+ "github.com/" +:+ "acme" +:+ "/" +:+ "widgets")
  = Return (Target.make "acme" "widgets" "" true)
  ∧ ∃ t pre, parseGitHubUrl "look at github.com/acme/widgets/tree/main/src, please"
             = Return t
      ∧ segment (Target.owner t) = true ∧ segment (Target.repo t) = true
      ∧ ((Target.isRepo t = true ∧ Target.path t = ""
          ∧ strip_trailing_slash
              "look at github.com/acme/widgets/tree/main/src, please" =
              pre +:+ "github.com/" +:+ Target.owner t +:+ "/"
                +:+ Target.repo t)
         ∨ (Target.isRepo t = false
            ∧ ∃ branch rest,
                strip_trailing_slash
                  "look at github.com/acme/widgets/tree/main/src, please" =
                  pre +:+ "github.com/" +:+ Target.owner t +:+ "/"
                    +:+ Target.repo t +:+ "/tree/" +:+ branch +:+ rest
                ∧ segment branch = true
                ∧ Target.path t = path_after_branch rest)).
Proof.
  destruct parser_is_not_anchored as (Hrepo & Hdir & _). split.
  - apply Hrepo; reflexivity.
  - apply Hdir.
    exists "look at ", "acme", "widgets", "main", "/src, please".
    split_and!; reflexivity.
Defined.

(* ===================================================================== *)
(** * The directory lister: claims C2, C4 and C9 *)
(* ===================================================================== *)

(** A walk does nothing but send requests. *)
Lemma listing_only_requests W token fuel owner repo path allFiles :
  Forall (fun ev => ∃ url, ev = Request url token)
         (fetchDirectoryContents W token fuel owner repo path allFiles).1.
Proof.
  revert path allFiles. induction fuel as [|fuel IH]; intros path allFiles;
    [by constructor|].
  rewrite fetchDirectoryContents_S.
  assert (∀ items acc,
    Forall (fun ev => ∃ url, ev = Request url token)
      (for_of items
         (fun item allFiles =>
            if String.eqb (Item.type item) "file" then
              ret (allFiles ++ [descriptor item])
            else if String.eqb (Item.type item) "dir" then
              fetchDirectoryContents W token fuel owner repo (Item.path item)
                                     allFiles
            else ret allFiles) acc).1) as Hloop.
  { induction items as [|item items IHitems]; intros acc; [by constructor|].
    rewrite for_of_cons.
    assert (Forall (fun ev => ∃ url, ev = Request url token)
              (if String.eqb (Item.type item) "file" then
                 ret (acc ++ [descriptor item])
               else if String.eqb (Item.type item) "dir" then
                 fetchDirectoryContents W token fuel owner repo (Item.path item) acc
               else ret acc).1) as Hitem.
    { destruct (String.eqb (Item.type item) "file"); [by constructor|].
      destruct (String.eqb (Item.type item) "dir"); [apply IH|by constructor]. }
    destruct (if String.eqb (Item.type item) "file" then _ else _)
      as [tr1 [acc'|e|]]; [|done..].
    rewrite bind_Return. cbn [fst]. apply Forall_app. split; [done|apply IHitems]. }
  destruct (served W token owner repo path) as [r|];
    [|constructor; [by eexists|constructor]].
  destruct (Response.ok r);
    [|constructor; [by eexists|constructor]].
  destruct (Response.body r) as [[items|o]|];
    [|constructor; [by eexists|constructor]..].
  specialize (Hloop items allFiles).
  destruct (for_of items _ allFiles) as [tr res].
  constructor; [by eexists|done].
Qed.

(** C2. When the remote tree under [path] lists, that is when every
    directory from [path] down answers with a success and an array, the
    lister, given the depth the tree needs, returns the flat list of the
    descriptors of the regular files under [path], a subdirectory being
    walked where its entry stands (depth first); the files returned are
    exactly the regular files reachable under [path], so an entry whose
    type is neither [file] nor [dir] gives no descriptor; and the walk only
    sends requests: it neither throws nor warns about such an entry. *)
Theorem lister_returns_reachable_files W token owner repo path files :
  lists W token owner repo path files →
  (∃ n, ∀ fuel, (n ≤ fuel)%nat →
     (fetchDirectoryContents W token fuel owner repo path []).2 = Return files
     ∧ Forall (fun ev => ∃ url, ev = Request url token)
              (fetchDirectoryContents W token fuel owner repo path []).1)
  ∧ (∀ file, file ∈ files ↔ reachable W token owner repo path file).
Proof.
  intros H. split.
  - destruct (lists_returns _ _ _ _ _ _ H) as [n Hn]. exists n.
    intros fuel Hle. split; [by apply Hn|apply listing_only_requests].
  - by apply lists_reachable.
Qed.

(** The tree of [acme/widgets] lists: five regular files, the submodule and
    the symbolic link left out. *)
Lemma lister_returns_reachable_files_witness :
  (∃ n, ∀ fuel, (n ≤ fuel)%nat →
     (fetchDirectoryContents Demo.world Demo.token fuel "acme" "widgets" "" []).2
     = Return Demo.root_files
     ∧ Forall (fun ev => ∃ url, ev = Request url Demo.token)
         (fetchDirectoryContents Demo.world Demo.token fuel "acme" "widgets" "" []).1)
  ∧ (∀ file, file ∈ Demo.root_files
             ↔ reachable Demo.world Demo.token "acme" "widgets" "" file).
Proof.
  apply lister_returns_reachable_files.
  eapply lists_dir; [reflexivity..|].
  apply (lists_file _ _ _ _ (Demo.entry "file" "README.md" "README.md" 5));
    [reflexivity|].
  apply (lists_file _ _ _ _ (Demo.entry "file" ".gitkeep" ".gitkeep" 0));
    [reflexivity|].
  apply (lists_subdir _ _ _ _ (Demo.entry "dir" "src" "src" 0) _
           [File.make "src/utils/a.js" "sha-a.js" "a.js" 1;
            File.make "src/utils/b.js" "sha-b.js" "b.js" 1;
            File.make "src/main.js" "sha-main.js" "main.js" 7] []);
    [reflexivity| |].
  - eapply lists_dir; [reflexivity..|].
    apply (lists_subdir _ _ _ _ (Demo.entry "dir" "src/utils" "utils" 0) _
             [File.make "src/utils/a.js" "sha-a.js" "a.js" 1;
              File.make "src/utils/b.js" "sha-b.js" "b.js" 1]
             [File.make "src/main.js" "sha-main.js" "main.js" 7]);
      [reflexivity| |].
    + eapply lists_dir; [reflexivity..|].
      apply (lists_file _ _ _ _ (Demo.entry "file" "src/utils/a.js" "a.js" 1));
        [reflexivity|].
      apply (lists_file _ _ _ _ (Demo.entry "file" "src/utils/b.js" "b.js" 1));
        [reflexivity|].
      apply lists_nil.
    + apply (lists_file _ _ _ _ (Demo.entry "file" "src/main.js" "main.js" 7));
        [reflexivity|].
      apply lists_nil.
  - apply lists_other; [done|done|].
    apply lists_other; [done|done|].
    apply lists_nil.
Defined.

Lemma only_requests_quiet token tr :
  Forall (fun ev => ∃ url, ev = Request url token) tr →
  saves tr = [] ∧ generated tr = [] ∧ warnings tr = [].
Proof.
  induction 1 as [|ev tr [url ->] _ IH]; [done|].
  destruct IH as (? & ? & ?). by split_and!.
Qed.

(** C4. When a request of the walk is answered with a status that is not a
    success, the lister throws [AuthError] for a 401, [NotFoundError] for a
    404 and [RemoteApiError] with the status for any other one; that
    request is the last thing the walk does, and what the caller gets is
    the exception, not a list: the click handler goes from the requests of
    the walk straight to the report of the failure, asking for no file and
    saving nothing. *)
Theorem listing_failure_aborts W token fuel owner repo path allFiles url r :
  Request url token
    ∈ (fetchDirectoryContents W token fuel owner repo path allFiles).1 →
  World.fetch W url token = Some r →
  Response.ok r = false →
  (Response.status r = 401 →
     (fetchDirectoryContents W token fuel owner repo path allFiles).2
     = Throw AuthError)
  ∧ (Response.status r = 404 →
       (fetchDirectoryContents W token fuel owner repo path allFiles).2
       = Throw NotFoundError)
  ∧ (Response.status r ≠ 401 → Response.status r ≠ 404 →
       (fetchDirectoryContents W token fuel owner repo path allFiles).2
       = Throw (RemoteApiError (Response.status r) (Response.statusText r)))
  ∧ last (fetchDirectoryContents W token fuel owner repo path allFiles).1
    = Some (Request url token)
  ∧ ∀ value t,
      JS.trim value ≠ "" →
      parseGitHubUrl (JS.trim value) = Return t →
      Target.owner t = owner → Target.repo t = repo → Target.path t = path →
      allFiles = [] →
      downloadContent W token fuel value =
      (starting
         ++ (fetchDirectoryContents W token fuel owner repo path allFiles).1
         ++ failing (listing_error r),
       Return tt)
      ∧ saves (downloadContent W token fuel value).1 = [].
Proof.
  intros Hin Hr Hok.
  destruct (fetchDirectoryContents W token fuel owner repo path allFiles)
    as [tr res] eqn:E.
  destruct (listing_aborts _ _ _ _ _ _ _ _ _ _ _ E Hin Hr Hok) as [-> Hlast].
  cbn [fst snd]. unfold listing_error. split_and!.
  - intros ->. done.
  - intros ->. done.
  - intros H1%Z.eqb_neq H2%Z.eqb_neq. by rewrite H1, H2.
  - done.
  - intros value t Hne Hparse <- <- <- ->.
    pose proof (listing_only_requests W token fuel (Target.owner t)
                  (Target.repo t) (Target.path t) []) as Hq.
    rewrite E in Hq. apply only_requests_quiet in Hq as (Hs & _ & _).
    rewrite (downloadContent_parsed _ _ _ _ t Hne Hparse), E.
    cbn [fst snd] in *. split; [done|].
    by rewrite !saves_app, Hs.
Qed.

(** In [acme/broken] the listing of [gone] fails after [x.txt] was collected:
    the walk throws, and [y.txt] is never looked at. *)
Lemma listing_failure_aborts_witness :
  (fetchDirectoryContents Demo.world Demo.token 10 "acme" "broken" "" []).2
  = Throw (RemoteApiError 500 "Internal Server Error")
  ∧ last (fetchDirectoryContents Demo.world Demo.token 10 "acme" "broken" "" []).1
    = Some (Request "https://api.github.com/repos/acme/broken/contents/gone"
                    Demo.token).
Proof.
  destruct (listing_failure_aborts Demo.world Demo.token 10 "acme" "broken" "" []
              "https://api.github.com/repos/acme/broken/contents/gone"
              (Response.make 500 "Internal Server Error" None))
    as (_ & _ & Hother & Hlast & _).
  - vm_compute. right. left.
  - reflexivity.
  - reflexivity.
  - split; [|exact Hlast]. apply Hother; vm_compute; discriminate.
Defined.

(** C9. When the contents endpoint answers a listing request with a success
    and a single object, because the path is a file, the lister returns no
    list, of one element or other: the iteration over the object throws.
    The click handler reports the failure after that one request; the file
    is not asked for and nothing is saved. *)
Theorem single_file_response_throws W token fuel t r o :
  served W token (Target.owner t) (Target.repo t) (Target.path t) = Some r →
  Response.ok r = true →
  Response.body r = Some (JObject o) →
  (∀ allFiles,
     fetchDirectoryContents W token (S fuel) (Target.owner t) (Target.repo t)
                            (Target.path t) allFiles
     = ([Request (contents_url (Target.owner t) (Target.repo t) (Target.path t))
                 token],
        Throw NotIterableError))
  ∧ ∀ value,
      JS.trim value ≠ "" →
      parseGitHubUrl (JS.trim value) = Return t →
      downloadContent W token (S fuel) value =
      (starting
         ++ [Request (contents_url (Target.owner t) (Target.repo t)
                                   (Target.path t)) token]
         ++ failing NotIterableError,
       Return tt).
Proof.
  intros Hr Hok Hbody.
  assert (∀ allFiles,
     fetchDirectoryContents W token (S fuel) (Target.owner t) (Target.repo t)
                            (Target.path t) allFiles
     = ([Request (contents_url (Target.owner t) (Target.repo t) (Target.path t))
                 token],
        Throw NotIterableError)) as Hlist.
  { intros allFiles. by rewrite fetchDirectoryContents_S, Hr, Hok, Hbody. }
  split; [done|].
  intros value Hne Hparse.
  by rewrite (downloadContent_parsed _ _ _ _ t Hne Hparse), Hlist.
Qed.

(** The URL of the README of [acme/widgets], given as a directory. *)
Lemma single_file_response_throws_witness :
  downloadContent Demo.world Demo.token 10
    "https://github.com/acme/widgets/tree/main/README.md" =
  (starting
     ++ [Request "https://api.github.com/repos/acme/widgets/contents/README.md"
                 Demo.token]
     ++ failing NotIterableError,
   Return tt).
Proof.
  destruct (single_file_response_throws Demo.world Demo.token 9
              (Target.make "acme" "widgets" "README.md" false)
              (Response.make 200 "OK"
                 (Some (JObject (Demo.file_object "README.md" "README.md" 5
                                   "SGVs
bG8=
"))))
              (Demo.file_object "README.md" "README.md" 5 "SGVs
bG8=
"))
    as [_ Hop]; [reflexivity..|].
  apply Hop; [by vm_compute|reflexivity].
Defined.

(* ===================================================================== *)
(** * [atob] and the bytes of the script against the decoding by bits *)
(* ===================================================================== *)

Section Base64Facts.

Lemma value_index c : Base64.value c = Z.of_nat <$> Spec.index c.
Proof. by destruct c as [[] [] [] [] [] [] [] []]. Qed.

Lemma index_range c d : Spec.index c = Some d → (d < 64)%nat.
Proof.
  destruct c as [[] [] [] [] [] [] [] []]; vm_compute; intros [= <-]; lia.
Qed.

Lemma white_space_test c :
  Base64.is_ascii_whitespace c = false ↔ c ∉ Spec.white_space.
Proof.
  rewrite <-(bool_decide_spec (c ∉ Spec.white_space)).
  destruct c as [[] [] [] [] [] [] [] []]; vm_compute; (split; [done|done]).
Qed.

(** The padding. *)
Lemma strip_padding_cases l :
  Base64.strip_padding l =
  if (length l mod 4 =? 0)%nat then
    match rev l with
    | x :: y :: r =>
        if Ascii.eqb x "=" then
          if Ascii.eqb y "=" then rev r else rev (y :: r)
        else l
    | [x] => if Ascii.eqb x "=" then [] else l
    | [] => l
    end
  else l.
Proof.
  unfold Base64.strip_padding.
  destruct (length l mod 4 =? 0)%nat; [|done].
  destruct (rev l) as [|x [|y r]]; [done| |].
  - by destruct x as [[] [] [] [] [] [] [] []].
  - destruct x as [[] [] [] [] [] [] [] []]; try done.
    by destruct y as [[] [] [] [] [] [] [] []].
Qed.

Lemma strip_padding_rev r :
  Base64.strip_padding (rev r) = Spec.without_padding (rev r).
Proof.
  rewrite strip_padding_cases. unfold Spec.without_padding, Spec.ends_with.
  rewrite rev_involutive.
  destruct (Nat.eqb_spec (length (rev r) mod 4) 0) as [E|E];
    [rewrite bool_decide_eq_true_2 by done
    |by rewrite bool_decide_eq_false_2 by done].
  clear E.
  destruct r as [|x [|y r]].
  - reflexivity.
  - cbn. destruct (Ascii.eqb_spec x "=") as [->|Hx]; [reflexivity|].
    rewrite bool_decide_eq_false_2 by (by intros [=]).
    by rewrite bool_decide_eq_false_2 by (by intros [=]).
  - cbn [rev length]. rewrite <-!app_assoc. cbn [app].
    rewrite !length_app. cbn [length].
    replace (length (rev r) + 2 - 2)%nat with (length (rev r)) by lia.
    replace (length (rev r) + 2 - 1)%nat with (length (rev r ++ [y])).
    2:{ rewrite length_app. cbn. lia. }
    rewrite drop_app_length, take_app_length.
    change (rev r ++ [y; x]) with (rev r ++ [y] ++ [x]).
    rewrite (app_assoc (rev r)), drop_app_length, take_app_length.
    destruct (Ascii.eqb_spec x "=") as [->|Hx].
    + destruct (Ascii.eqb_spec y "=") as [->|Hy].
      * by rewrite bool_decide_eq_true_2.
      * rewrite bool_decide_eq_false_2 by (by intros [=]).
        by rewrite bool_decide_eq_true_2.
    + rewrite bool_decide_eq_false_2 by (by intros [=]).
      rewrite bool_decide_eq_false_2 by (by intros [=]). done.
Qed.

Lemma strip_padding_spec l : Base64.strip_padding l = Spec.without_padding l.
Proof. rewrite <-(rev_involutive l). apply strip_padding_rev. Qed.

(** A test that holds of every pair of digits holds of any two. *)
Lemma below_64 (P : nat → nat → bool) :
  forallb (fun a => forallb (P a) (seq 0 64)) (seq 0 64) = true →
  ∀ a b, (a < 64)%nat → (b < 64)%nat → P a b = true.
Proof.
  intros H a b Ha Hb.
  rewrite forallb_forall in H. specialize (H a).
  rewrite forallb_forall in H. apply H; apply in_seq; lia.
Qed.

(** The three bytes of four digits, by the bits and by the arithmetic of
    the script. *)
Lemma first_byte a b :
  (a < 64)%nat → (b < 64)%nat →
  Spec.number (Spec.bits 6 a ++ take 2 (Spec.bits 6 b))
  = 4 * Z.of_nat a + Z.of_nat b / 16.
Proof.
  intros Ha Hb. apply Z.eqb_eq.
  by apply (below_64 (fun a b =>
    Spec.number (Spec.bits 6 a ++ take 2 (Spec.bits 6 b))
    =? 4 * Z.of_nat a + Z.of_nat b / 16)); [vm_compute| |].
Qed.

Lemma second_byte b c :
  (b < 64)%nat → (c < 64)%nat →
  Spec.number (drop 2 (Spec.bits 6 b) ++ take 4 (Spec.bits 6 c))
  = 16 * (Z.of_nat b mod 16) + Z.of_nat c / 4.
Proof.
  intros Hb Hc. apply Z.eqb_eq.
  by apply (below_64 (fun b c =>
    Spec.number (drop 2 (Spec.bits 6 b) ++ take 4 (Spec.bits 6 c))
    =? 16 * (Z.of_nat b mod 16) + Z.of_nat c / 4)); [vm_compute| |].
Qed.

Lemma third_byte c d :
  (c < 64)%nat → (d < 64)%nat →
  Spec.number (drop 4 (Spec.bits 6 c) ++ Spec.bits 6 d)
  = 64 * (Z.of_nat c mod 4) + Z.of_nat d.
Proof.
  intros Hc Hd. apply Z.eqb_eq.
  by apply (below_64 (fun c d =>
    Spec.number (drop 4 (Spec.bits 6 c) ++ Spec.bits 6 d)
    =? 64 * (Z.of_nat c mod 4) + Z.of_nat d)); [vm_compute| |].
Qed.

(** A byte keeps its value through the binary string. *)
Lemma byte_code x :
  0 ≤ x < 256 → Base64.code (ascii_of_N (Z.to_N x)) mod 256 = x.
Proof.
  intros Hx. unfold Base64.code.
  rewrite N_ascii_embedding by lia. rewrite Z2N.id by lia.
  by apply Z.mod_small.
Qed.

(** The bytes of the script are the bytes of the bits of the digits. *)
Lemma decode_octets n ds :
  (length ds ≤ n)%nat → Forall (fun d => d < 64)%nat ds →
  Base64.to_Uint8Array
    (string_of_list_ascii
       ((fun n => ascii_of_N (Z.to_N n)) <$> Base64.decode (Z.of_nat <$> ds)))
  = Spec.octets (ds ≫= Spec.bits 6).
Proof.
  unfold Base64.to_Uint8Array. rewrite list_ascii_of_string_of_list_ascii.
  rewrite <-list_fmap_compose.
  revert ds. induction n as [|n IH]; intros ds Hn Hds.
  { by destruct ds; [|simpl in Hn; lia]. }
  destruct ds as [|a [|b [|c [|d rest]]]]; [done|done| | |].
  - apply Forall_cons in Hds as [Ha [Hb _]%Forall_cons].
    pose proof (first_byte a b Ha Hb) as H1.
    cbn [fmap list_fmap Base64.decode mbind list_bind Spec.bits app
         Spec.octets take] in H1 |- *.
    cbn [compose]. rewrite H1.
    replace ((Z.of_nat a * 64 + Z.of_nat b) / 16)
      with (4 * Z.of_nat a + Z.of_nat b / 16) by (Z.to_euclidean_division_equations; lia).
    by rewrite byte_code by (Z.to_euclidean_division_equations; lia).
  - apply Forall_cons in Hds as [Ha [Hb [Hc _]%Forall_cons]%Forall_cons].
    pose proof (first_byte a b Ha Hb) as H1.
    pose proof (second_byte b c Hb Hc) as H2.
    cbn [fmap list_fmap Base64.decode mbind list_bind Spec.bits app
         Spec.octets take drop] in H1, H2 |- *.
    cbn [compose]. rewrite H1, H2.
    replace ((Z.of_nat a * 4096 + Z.of_nat b * 64 + Z.of_nat c) / 4 / 256)
      with (4 * Z.of_nat a + Z.of_nat b / 16) by (Z.to_euclidean_division_equations; lia).
    replace (((Z.of_nat a * 4096 + Z.of_nat b * 64 + Z.of_nat c) / 4) mod 256)
      with (16 * (Z.of_nat b mod 16) + Z.of_nat c / 4) by (Z.to_euclidean_division_equations; lia).
    by rewrite !byte_code by (Z.to_euclidean_division_equations; lia).
  - apply Forall_cons in Hds
      as [Ha [Hb [Hc [Hd Hrest]%Forall_cons]%Forall_cons]%Forall_cons].
    pose proof (first_byte a b Ha Hb) as H1.
    pose proof (second_byte b c Hb Hc) as H2.
    pose proof (third_byte c d Hc Hd) as H3.
    specialize (IH rest). simpl in Hn.
    cbn [fmap list_fmap Base64.decode mbind list_bind Spec.bits app
         Spec.octets take drop] in H1, H2, H3, IH |- *.
    cbn [compose]. rewrite H1, H2, H3, <-IH by (done || lia).
    replace ((Z.of_nat a * 262144 + Z.of_nat b * 4096 + Z.of_nat c * 64
              + Z.of_nat d) / 65536)
      with (4 * Z.of_nat a + Z.of_nat b / 16) by (Z.to_euclidean_division_equations; lia).
    replace (((Z.of_nat a * 262144 + Z.of_nat b * 4096 + Z.of_nat c * 64
               + Z.of_nat d) / 256) mod 256)
      with (16 * (Z.of_nat b mod 16) + Z.of_nat c / 4) by (Z.to_euclidean_division_equations; lia).
    replace ((Z.of_nat a * 262144 + Z.of_nat b * 4096 + Z.of_nat c * 64
              + Z.of_nat d) mod 256)
      with (64 * (Z.of_nat c mod 4) + Z.of_nat d) by (Z.to_euclidean_division_equations; lia).
    by rewrite !byte_code by (Z.to_euclidean_division_equations; lia).
Qed.

Lemma mapM_value l :
  mapM Base64.value l = fmap Z.of_nat <$> mapM Spec.index l.
Proof.
  induction l as [|c l IH]; [done|].
  cbn -[Spec.index Base64.value]. rewrite value_index, IH.
  destruct (Spec.index c); [|done]. cbn -[Spec.index].
  by destruct (mapM Spec.index l).
Qed.

Lemma mapM_index_range l ds :
  mapM Spec.index l = Some ds → Forall (fun d => d < 64)%nat ds.
Proof.
  rewrite mapM_Some. induction 1 as [|c d l ds Hc _ IH]; constructor;
    [by apply (index_range c)|done].
Qed.

(** [atob] and the loop over the binary string give the bytes of the
    decoding by bits, and fail when it has none. *)
Lemma atob_spec s :
  Base64.to_Uint8Array <$> Base64.atob s = Spec.base64_decoding s.
Proof.
  unfold Base64.atob, Spec.base64_decoding.
  rewrite strip_padding_spec.
  rewrite (list_filter_iff _ (fun c => c ∉ Spec.white_space))
    by apply white_space_test.
  set (l := Spec.without_padding _).
  destruct (Nat.eqb_spec (length l mod 4) 1) as [E|E];
    [by rewrite bool_decide_eq_true_2|rewrite bool_decide_eq_false_2 by done].
  rewrite mapM_value.
  destruct (mapM Spec.index l) as [ds|] eqn:Eds; [|done].
  cbn. f_equal. apply (decode_octets (length ds)); [done|].
  by apply (mapM_index_range l).
Qed.

End Base64Facts.

(** The decoding by bits undoes the encoding of RFC 4648. *)
Section RoundTrip.

Lemma octets_spare bs : (length bs < 8)%nat → Spec.octets bs = [].
Proof.
  intros H. do 8 (destruct bs as [|? bs]; [done|]). simpl in H. lia.
Qed.

Lemma number_bits_8 b :
  0 ≤ b < 256 → Spec.number (Spec.bits 8 (Z.to_nat b)) = b.
Proof.
  intros Hb.
  assert (forallb (fun n => Spec.number (Spec.bits 8 n) =? Z.of_nat n)
                  (seq 0 256) = true) as H by (by vm_compute).
  rewrite forallb_forall in H. specialize (H (Z.to_nat b)).
  rewrite Z.eqb_eq in H. rewrite H; [lia|]. apply in_seq. lia.
Qed.

Lemma octets_bytes bytes spare :
  Forall (fun b => 0 ≤ b < 256) bytes → (length spare < 8)%nat →
  Spec.octets ((bytes ≫= fun b => Spec.bits 8 (Z.to_nat b)) ++ spare) = bytes.
Proof.
  intros Hbytes Hspare. induction Hbytes as [|b bytes Hb _ IH].
  { by apply octets_spare. }
  rewrite bind_cons, <-app_assoc.
  pose proof (number_bits_8 b Hb) as Hn.
  cbn [Spec.bits app Spec.octets] in Hn, IH |- *. by rewrite Hn, IH.
Qed.

Lemma bits_number_6 b5 b4 b3 b2 b1 b0 :
  Spec.bits 6 (Z.to_nat (Spec.number [b5; b4; b3; b2; b1; b0]))
  = [b5; b4; b3; b2; b1; b0].
Proof. by destruct b5, b4, b3, b2, b1, b0. Qed.

Lemma number_6_range b5 b4 b3 b2 b1 b0 :
  (Z.to_nat (Spec.number [b5; b4; b3; b2; b1; b0]) < 64)%nat.
Proof. destruct b5, b4, b3, b2, b1, b0; vm_compute; lia. Qed.

(** The digits of a run of bits have the bits of the run, filled up with
    zeros to a multiple of six. *)
Lemma sextets_bits n bs :
  (length bs ≤ n)%nat →
  Forall (fun d => d < 64)%nat (Spec.sextets bs)
  ∧ length (Spec.sextets bs) = ((length bs + 5) / 6)%nat
  ∧ ∃ fill,
      Spec.sextets bs ≫= Spec.bits 6 = bs ++ fill
      ∧ (length fill < 6)%nat.
Proof.
  revert bs. induction n as [|n IH]; intros bs Hn.
  { destruct bs; [|simpl in Hn; lia]. split_and!; [constructor|reflexivity|exists []; split; [done|simpl; lia]]. }
  destruct bs as [|b5 bs]; [split_and!; [constructor|reflexivity|exists []; split; [done|simpl; lia]]|].
  destruct bs as [|b4 bs].
  { split_and!;
      [constructor; [apply (number_6_range b5 false false false false false)|constructor]|reflexivity|].
    exists (replicate 5 false). split; [|simpl; lia].
    cbn -[Spec.bits Spec.number]. by rewrite bits_number_6. }
  destruct bs as [|b3 bs].
  { split_and!;
      [constructor; [apply (number_6_range b5 b4 false false false false)|constructor]|reflexivity|].
    exists (replicate 4 false). split; [|simpl; lia].
    cbn -[Spec.bits Spec.number]. by rewrite bits_number_6. }
  destruct bs as [|b2 bs].
  { split_and!;
      [constructor; [apply (number_6_range b5 b4 b3 false false false)|constructor]|reflexivity|].
    exists (replicate 3 false). split; [|simpl; lia].
    cbn -[Spec.bits Spec.number]. by rewrite bits_number_6. }
  destruct bs as [|b1 bs].
  { split_and!;
      [constructor; [apply (number_6_range b5 b4 b3 b2 false false)|constructor]|reflexivity|].
    exists (replicate 2 false). split; [|simpl; lia].
    cbn -[Spec.bits Spec.number]. by rewrite bits_number_6. }
  destruct bs as [|b0 bs].
  { split_and!;
      [constructor; [apply (number_6_range b5 b4 b3 b2 b1 false)|constructor]|reflexivity|].
    exists (replicate 1 false). split; [|simpl; lia].
    cbn -[Spec.bits Spec.number]. by rewrite bits_number_6. }
  destruct (IH bs) as (Hd & Hl & fill & Hb & Hf); [simpl in Hn; lia|].
  cbn [Spec.sextets]. split_and!.
  - constructor; [apply number_6_range|done].
  - cbn [length]. rewrite Hl.
    replace (S (S (S (S (S (S (length bs)))))) + 5)%nat
      with (length bs + 5 + 1 * 6)%nat by lia.
    rewrite Nat.div_add by lia. lia.
  - exists fill. split; [|done].
    rewrite bind_cons, bits_number_6, Hb. done.
Qed.

Lemma bits_8_length bytes :
  length (bytes ≫= fun b => Spec.bits 8 (Z.to_nat b)) = (8 * length bytes)%nat.
Proof.
  induction bytes as [|b bytes IH]; [done|].
  rewrite bind_cons, length_app, IH. simpl. lia.
Qed.

Lemma index_nth d :
  (d < 64)%nat →
  Spec.index (nth d Spec.alphabet "="%char) = Some d
  ∧ nth d Spec.alphabet "="%char ≠ "="%char
  ∧ nth d Spec.alphabet "="%char ∉ Spec.white_space.
Proof.
  intros Hd.
  assert (forallb (fun d =>
            bool_decide (Spec.index (nth d Spec.alphabet "="%char) = Some d
                         ∧ nth d Spec.alphabet "="%char ≠ "="%char
                         ∧ nth d Spec.alphabet "="%char ∉ Spec.white_space))
            (seq 0 64) = true) as H by (by vm_compute).
  rewrite forallb_forall in H. specialize (H d).
  assert (In d (seq 0 64)) as Hin by (apply in_seq; lia).
  apply H in Hin. by apply bool_decide_eq_true_1 in Hin.
Qed.

Lemma filter_all {A} (P : A → Prop) `{∀ x, Decision (P x)} (l : list A) :
  Forall P l → filter P l = l.
Proof.
  induction 1 as [|x l Hx _ IH]; [done|].
  by rewrite filter_cons, decide_True, IH.
Qed.

(** The decoding of the base64 text of some bytes is the bytes. *)
Lemma base64_round_trip bytes :
  Forall (fun b => 0 ≤ b < 256) bytes →
  Spec.base64_decoding (Spec.base64_encoding bytes) = Some bytes.
Proof.
  intros Hbytes. unfold Spec.base64_decoding, Spec.base64_encoding.
  rewrite list_ascii_of_string_of_list_ascii.
  destruct (sextets_bits _ (bytes ≫= fun b => Spec.bits 8 (Z.to_nat b))
              (Nat.le_refl _)) as (Hds & Hlen & fill & Hbits & Hfill).
  rewrite bits_8_length in Hlen.
  set (ds := Spec.sextets _) in *.
  set (chars := (fun d => nth d Spec.alphabet "="%char) <$> ds).
  assert (length chars = length ds) as Hchars by apply length_fmap.
  assert (Forall (fun c => c ≠ "="%char ∧ c ∉ Spec.white_space) chars) as Hc.
  { apply Forall_fmap. eapply Forall_impl; [exact Hds|].
    intros d Hd. by destruct (index_nth d Hd) as (_ & ? & ?). }
  assert (mapM Spec.index chars = Some ds) as Hindex.
  { apply mapM_Some. unfold chars. clear -Hds.
    induction Hds as [|d ds Hd _ IH]; constructor; [|done].
    by destruct (index_nth d Hd) as (? & _). }
  assert (length chars mod 4 ≠ 1)%nat as Hmod.
  { rewrite Hchars, Hlen. intros E.
    apply (f_equal Z.of_nat) in E. revert E.
    rewrite Nat2Z.inj_mod, Nat2Z.inj_div, Nat2Z.inj_add, Nat2Z.inj_mul.
    Z.to_euclidean_division_equations. lia. }
  set (k := ((4 - length chars mod 4) mod 4)%nat).
  rewrite filter_all.
  2:{ apply Forall_app. split.
      - eapply Forall_impl; [exact Hc|]. by intros c [_ ?].
      - apply Forall_replicate. by vm_compute; intros H; inversion H
          as [|? ? ? H']; repeat (inversion H' as [|? ? ? H'']; clear H';
                                   rename H'' into H'). }
  assert (Spec.without_padding (chars ++ replicate k "="%char) = chars) as ->.
  { rewrite <-strip_padding_spec, strip_padding_cases.
    rewrite rev_app_distr, length_app, length_replicate.
    assert (rev (replicate k "="%char) = replicate k "="%char) as ->.
    { clear. induction k as [|k IH]; [done|].
      cbn [replicate rev]. rewrite IH. clear.
      induction k as [|k IH]; [done|]. cbn [replicate app]. by rewrite IH. }
    assert (length chars mod 4 = 0 ∨ length chars mod 4 = 2
            ∨ length chars mod 4 = 3)%nat as Hm.
    { pose proof (Nat.mod_upper_bound (length chars) 4). lia. }
    assert ((length chars + k) mod 4 = 0)%nat as Hk.
    { unfold k. rewrite Nat.Div0.add_mod.
      by destruct Hm as [E|[E|E]]; rewrite E. }
    rewrite Hk. cbn [Nat.eqb].
    assert (k = 0 ∨ k = 1 ∨ k = 2)%nat as Hk'.
    { unfold k.
      destruct Hm as [E|[E|E]]; rewrite E;
        [by left|by right; right|by right; left]. }
    assert (rev chars = [] ∨ ∃ x r, rev chars = x :: r ∧ x ≠ "="%char)
      as Hrev.
    { destruct (rev chars) as [|x r] eqn:E; [by left|right].
      exists x, r. split; [done|].
      assert (x ∈ chars) as Hx.
      { apply list_elem_of_In, in_rev. rewrite E. by left. }
      rewrite Forall_forall in Hc. by destruct (Hc x Hx). }
    assert (length chars = 0%nat → k = 0%nat) as Hempty.
    { intros E. unfold k. by rewrite E. }
    destruct Hk' as [-> |[-> | ->]]; cbn [replicate app].
    - rewrite app_nil_r.
      destruct Hrev as [E|(x & r & E & Hx)]; rewrite E.
      + done.
      + apply Ascii.eqb_neq in Hx. destruct r; by rewrite Hx.
    - destruct Hrev as [E|(x & r & E & Hx)]; rewrite E.
      + apply (f_equal (@length _)) in E. rewrite length_rev in E.
        by specialize (Hempty E).
      + apply Ascii.eqb_neq in Hx. rewrite Ascii.eqb_refl, Hx.
        by rewrite <-E, rev_involutive.
    - rewrite !Ascii.eqb_refl. apply rev_involutive. }
  rewrite bool_decide_eq_false_2 by done.
  rewrite Hindex. cbn [mbind option_bind]. f_equal.
  rewrite Hbits. apply octets_bytes; [done|lia].
Qed.

End RoundTrip.

Lemma remove_newlines_spec s : remove_newlines s = Spec.without_newlines s.
Proof.
  unfold remove_newlines, Spec.without_newlines.
  induction s as [|c s IH]; [done|].
  cbn [JS.filter_chars list_ascii_of_string]. rewrite filter_cons.
  unfold JS.is_not at 1. destruct (Ascii.eqb_spec c "010") as [->|Hc].
  - cbn [negb]. by case_decide.
  - cbn [negb]. rewrite decide_True by done.
    cbn [string_of_list_ascii]. by rewrite IH.
Qed.

(** What the script puts in the archive for a file is the entry of the
    specification. *)
Lemma decoded_entry W token owner repo file :
  decoded W token owner repo file = entry W token owner repo file.
Proof.
  unfold decoded, entry.
  destruct (payload W token owner repo file) as [data|]; [|done].
  cbn [mbind option_bind].
  destruct (String.eqb_spec data "") as [->|Hne]; [done|].
  rewrite decide_False by done.
  by rewrite atob_spec, remove_newlines_spec.
Qed.

(* ===================================================================== *)
(** * The archive: claims C1, C3 and C7 *)
(* ===================================================================== *)

Lemma decoded_Some W token owner repo file b :
  decoded W token owner repo file = Some b ↔
  ∃ data bin,
    payload W token owner repo file = Some data ∧ data ≠ ""
    ∧ Base64.atob (remove_newlines data) = Some bin
    ∧ b = Base64.to_Uint8Array bin.
Proof.
  unfold decoded. split.
  - destruct (payload W token owner repo file) as [data|]; [|by intros [=]].
    cbn [mbind option_bind].
    destruct (String.eqb_spec data ""); [by intros [=]|].
    destruct (Base64.atob (remove_newlines data)) as [bin|] eqn:E;
      [|by intros [=]].
    intros [= <-]. by exists data, bin.
  - intros (data & bin & -> & Hne & E & ->). cbn [mbind option_bind].
    destruct (String.eqb_spec data ""); [done|]. by rewrite E.
Qed.

Lemma decoded_count_0 W token owner repo files :
  (∀ file, file ∈ files → decoded W token owner repo file = None) →
  decoded_count W token owner repo files = 0%nat.
Proof.
  intros H. unfold decoded_count.
  induction files as [|file files IH]; [done|].
  rewrite filter_cons. case_decide as Hd.
  - rewrite H in Hd by (by left). by destruct Hd.
  - apply IH. intros f Hf. apply H. by right.
Qed.

Lemma decoded_count_pos W token owner repo files file :
  file ∈ files → is_Some (decoded W token owner repo file) →
  decoded_count W token owner repo files ≠ 0%nat.
Proof.
  intros Hin Hd. unfold decoded_count.
  assert (file ∈ filter (fun file => is_Some (decoded W token owner repo file)) files)
    as Hf by (by apply list_elem_of_filter).
  destruct (filter _ files); [by apply elem_of_nil in Hf|done].
Qed.

Lemma library_events_quiet W :
  requests (library_events W) = [] ∧ saves (library_events W) = []
  ∧ generated (library_events W) = [] ∧ warnings (library_events W) = [].
Proof. unfold library_events. by destruct (World.JSZip_defined W). Qed.

(** What a file decodes to is a matter of its path. *)
Lemma decoded_path W token owner repo file file' :
  File.path file = File.path file' →
  decoded W token owner repo file = decoded W token owner repo file'.
Proof. intros E. unfold decoded, payload. by rewrite E. Qed.

Lemma foldl_add_file_lookup_any W token owner repo files z file :
  file ∈ files →
  foldl (add_file W token owner repo) z files !! File.path file =
  match decoded W token owner repo file with
  | Some b => Some b
  | None => z !! File.path file
  end.
Proof.
  revert z file. induction files as [|g files IH]; intros z file;
    [by intros ?%elem_of_nil|].
  assert (add_file W token owner repo z g !! File.path file =
          match decoded W token owner repo file with
          | Some b => if decide (File.path g = File.path file)
                      then Some b else z !! File.path file
          | None => z !! File.path file
          end) as Hg.
  { unfold add_file.
    destruct (decide (File.path g = File.path file)) as [E|Hne].
    - rewrite (decoded_path _ _ _ _ _ _ E), E.
      destruct (decoded W token owner repo file); [|done].
      by rewrite lookup_insert_eq.
    - destruct (decoded W token owner repo g); destruct (decoded _ _ _ _ file);
        by rewrite ?lookup_insert_ne. }
  intros Hin. cbn [foldl].
  destruct (decide (File.path file ∈ File.path <$> files)) as [Hp|Hp].
  - apply list_elem_of_fmap in Hp as (f' & E & Hf').
    rewrite E, (IH _ f' Hf'), <-E, Hg, <-(decoded_path _ _ _ _ _ _ E).
    by destruct (decoded W token owner repo file).
  - rewrite foldl_add_file_other by done. rewrite Hg.
    apply elem_of_cons in Hin as [->|Hin].
    + destruct (decoded W token owner repo g); [|done]. by case_decide.
    + destruct Hp. by apply list_elem_of_fmap_2.
Qed.

(** A turn of the loop on a file that comes without a content: the
    warning, and the archive and the count of successes are as before. *)
Lemma download_file_no_content W token owner repo totalFiles file st :
  no_content W token owner repo file →
  download_file W token totalFiles owner repo file st =
  ([downloading file (downloadedCount st + 1) totalFiles;
    Request (contents_url owner repo (File.path file)) token;
    ConsoleWarn ("No content found for " +:+ File.name file) None],
   Return (ZipState (zip st) (downloadedCount st + 1) (successfulDownloads st))).
Proof.
  intros (r & j & Hs & Hok & Hb & Hj). unfold served in Hs.
  unfold download_file. rewrite !mbind_unfold, fetch_unfold, Hs.
  cbn -[pretty String.append contents_url Base64.atob]. rewrite Hok.
  cbn -[pretty String.append contents_url Base64.atob].
  rewrite json_of_unfold, Hb.
  destruct j as [items|o]; [done|].
  cbn -[pretty String.append contents_url Base64.atob].
  by destruct Hj as [-> | ->].
Qed.

Lemma download_file_returns W token owner repo totalFiles file st :
  ∃ tr st',
    download_file W token totalFiles owner repo file st = (tr, Return st').
Proof.
  destruct (decoded W token owner repo file) as [b|] eqn:E.
  - rewrite (download_file_decoded _ _ _ _ _ _ _ b E). by eexists _, _.
  - destruct (download_file_failed W token owner repo totalFiles file st E)
      as (text & e & dc & -> & _).
    by eexists _, _.
Qed.

(** The events of a loop whose turns all return have the events of the
    turn of each element. *)
Lemma for_of_turn {X S} (body : X -> S -> M S) l st x :
  (∀ x st, ∃ tr st', body x st = (tr, Return st')) →
  x ∈ l →
  ∃ st0 tr1 tr2, (for_of l body st).1 = tr1 ++ (body x st0).1 ++ tr2.
Proof.
  intros Hbody. revert st. induction l as [|y l IH]; intros st;
    [by intros ?%elem_of_nil|].
  rewrite for_of_cons.
  destruct (Hbody y st) as (tr & st' & E).
  intros [->|Hin]%elem_of_cons.
  - exists st, [], (for_of l body st').1. by rewrite E, bind_Return.
  - destruct (IH st' Hin) as (st0 & tr1 & tr2 & E').
    exists st0, (tr ++ tr1), tr2.
    by rewrite E, bind_Return; cbn [fst]; rewrite E', <-app_assoc.
Qed.

(** A file without a content is warned about. *)
Lemma no_content_warning W token owner repo files folderName file :
  World.JSZip_defined W || World.script_loads W = true →
  file ∈ files → no_content W token owner repo file →
  ("No content found for " +:+ File.name file, None)
    ∈ warnings (createAndDownloadZip W token files folderName owner repo).1.
Proof.
  intros Hlib Hin Hfile.
  destruct (for_of_turn (download_file W token (length files) owner repo)
              files (ZipState ∅ 0 0) file
              (fun file st =>
                 download_file_returns W token owner repo (length files) file st)
              Hin)
    as (st0 & tr1 & tr2 & Etr).
  rewrite (download_file_no_content _ _ _ _ _ _ _ Hfile) in Etr.
  cbn [fst] in Etr.
  assert (∃ tail,
            (createAndDownloadZip W token files folderName owner repo).1
            = library_events W
                ++ (for_of files (download_file W token (length files) owner repo)
                      (ZipState ∅ 0 0)).1 ++ tail) as [tail ->].
  { destruct (download_loop W token owner repo (length files) files
                (ZipState ∅ 0 0)) as (tr & st' & Eloop & _).
    unfold createAndDownloadZip, library_events.
    assert ((if World.JSZip_defined W then ret tt
             else emit (LoadScript
                   "https://cdnjs.cloudflare.com/ajax/libs/jszip/3.10.1/jszip.min.js");;
                  if World.script_loads W then ret tt else throw LibraryLoadError)
            = (if World.JSZip_defined W then []
               else [LoadScript
                   "https://cdnjs.cloudflare.com/ajax/libs/jszip/3.10.1/jszip.min.js"],
               Return tt)) as ->.
    { destruct (World.JSZip_defined W); [done|].
      simpl in Hlib. by rewrite Hlib. }
    rewrite !mbind_unfold, bind_Return. cbn [fst snd].
    rewrite Eloop, bind_Return. cbn [fst].
    by eexists. }
  rewrite Etr, !warnings_app. cbn [warnings omap].
  apply elem_of_app. right. apply elem_of_app. left.
  apply elem_of_app. right. apply elem_of_app. left.
  apply elem_of_cons. by left.
Qed.

(** What [createAndDownloadZip] saves, if anything: the archive of the
    files, under the folder name with the extension. *)
Lemma createAndDownloadZip_saves W token files folderName owner repo :
  saves (createAndDownloadZip W token files folderName owner repo).1 = []
  ∨ ((createAndDownloadZip W token files folderName owner repo).2 = Return tt
     ∧ saves (createAndDownloadZip W token files folderName owner repo).1
       = [(folderName +:+ ".zip", archive_of W token owner repo files)]).
Proof.
  destruct (library_events_quiet W) as (_ & Hls & _ & _).
  destruct (World.JSZip_defined W || World.script_loads W) eqn:Hlib.
  - destruct (createAndDownloadZip_spec W token owner repo files folderName Hlib)
      as (tr & _ & Hs & _ & _ & _ & ->).
    destruct (decoded_count _ _ _ _ files =? 0)%nat; cbn [fst snd].
    { left. by rewrite saves_app, Hls, Hs. }
    destruct (World.blob_size W _ =? 0); cbn [fst snd].
    { left. by rewrite !saves_app, Hls, Hs. }
    right. split; [done|]. by rewrite !saves_app, Hls, Hs.
  - apply orb_false_iff in Hlib as [H1 H2].
    rewrite createAndDownloadZip_no_library by done. by left.
Qed.

(** C1, as the script has it. After a run of [createAndDownloadZip] that
    returns, the archive that is saved has an entry for every file that is
    fetched with success, which is to say whose request was answered with
    a success carrying a content that is not empty and that, without its
    line feeds, has a base64 decoding: the entry is under the full path of
    the file and its bytes are that decoding, the decoding being the one
    of [Spec], by the bits, and not the loop of the script. The archive
    has no other entry, and when the paths of the files are distinct, as
    those of a listing are, it has as many entries as there are such
    files. A file whose content came back empty, or did not come back, has
    no entry; when its request was answered with a success, the console
    has the warning [No content found for] with its name. The decoding
    gives back what was encoded: a file whose content is the base64 text
    of some bytes, with line feeds anywhere, has these bytes as its
    entry. *)
Theorem archive_holds_decoded_files W token owner repo files folderName :
  (createAndDownloadZip W token files folderName owner repo).2 = Return tt →
  ∃ z,
    saves (createAndDownloadZip W token files folderName owner repo).1
    = [(folderName +:+ ".zip", z)]
    ∧ (∀ p b,
         z !! p = Some b ↔
         ∃ file data,
           file ∈ files ∧ File.path file = p
           ∧ payload W token owner repo file = Some data ∧ data ≠ ""
           ∧ Spec.base64_decoding (Spec.without_newlines data) = Some b)
    ∧ (NoDup (File.path <$> files) →
       size z
       = length (filter (fun file => is_Some (entry W token owner repo file))
                        files))
    ∧ (∀ file, file ∈ files →
         payload W token owner repo file = Some ""
         ∨ payload W token owner repo file = None →
         z !! File.path file = None)
    ∧ (∀ file, file ∈ files → no_content W token owner repo file →
         ("No content found for " +:+ File.name file, None)
           ∈ warnings
               (createAndDownloadZip W token files folderName owner repo).1)
    ∧ (∀ file data bytes,
         file ∈ files →
         payload W token owner repo file = Some data → data ≠ "" →
         Forall (fun b => 0 ≤ b < 256) bytes →
         Spec.without_newlines data = Spec.base64_encoding bytes →
         z !! File.path file = Some bytes).
Proof.
  intros Hret.
  assert (World.JSZip_defined W || World.script_loads W = true) as Hlib.
  { destruct (World.JSZip_defined W || World.script_loads W) eqn:Hlib; [done|].
    apply orb_false_iff in Hlib as [H1 H2].
    by rewrite createAndDownloadZip_no_library in Hret. }
  destruct (createAndDownloadZip_saves W token files folderName owner repo)
    as [Hs|[_ Hs]].
  { exfalso. revert Hret Hs.
    destruct (library_events_quiet W) as (_ & Hls & _ & _).
    destruct (createAndDownloadZip_spec W token owner repo files folderName Hlib)
      as (tr & _ & Hs & _ & _ & _ & ->).
    destruct (decoded_count _ _ _ _ files =? 0)%nat; [done|].
    destruct (World.blob_size W _ =? 0); [done|]. cbn [fst snd].
    by rewrite !saves_app, Hls, Hs. }
  exists (archive_of W token owner repo files). split; [done|].
  assert (∀ file, file ∈ files →
            archive_of W token owner repo files !! File.path file
            = entry W token owner repo file) as Hlookup.
  { intros file Hin. unfold archive_of.
    rewrite foldl_add_file_lookup_any, decoded_entry by done.
    by destruct (entry W token owner repo file). }
  assert (∀ file b,
            entry W token owner repo file = Some b ↔
            ∃ data, payload W token owner repo file = Some data ∧ data ≠ ""
                    ∧ Spec.base64_decoding (Spec.without_newlines data) = Some b)
    as Hentry.
  { intros file b. unfold entry.
    destruct (payload W token owner repo file) as [data|]; cbn [mbind option_bind].
    - case_decide as Hd.
      + split; [done|]. by intros (? & [= <-] & ? & _).
      + split; [by exists data|]. by intros (? & [= <-] & _ & ?).
    - split; [done|]. by intros (? & [=] & _). }
  split_and!.
  - intros p b. split.
    + intros [H|(file & Hin & <- & Hd)]%foldl_add_file_inv; [done|].
      rewrite decoded_entry in Hd. apply Hentry in Hd as (data & ? & ? & ?).
      by exists file, data.
    + intros (file & data & Hin & <- & Hp & Hne & Hb).
      rewrite Hlookup by done. apply Hentry. by exists data.
  - intros Hnd. unfold archive_of. rewrite foldl_add_file_size; [|done|done].
    rewrite map_size_empty. unfold decoded_count. cbn [Nat.add]. f_equal.
    apply list_filter_iff. intros file. by rewrite decoded_entry.
  - intros file Hin Hp. rewrite Hlookup by done. unfold entry.
    by destruct Hp as [-> | ->].
  - intros file Hin Hfile. by apply no_content_warning.
  - intros file data bytes Hin Hp Hne Hbytes Hdata.
    rewrite Hlookup by done. apply Hentry. exists data.
    split_and!; [done..|]. rewrite Hdata. by apply base64_round_trip.
Qed.

(** The archive of the files of [acme/widgets]: [README.md], whose
    content is [SGVs], a line feed, [bG8=] and a line feed, has the five
    bytes of [Hello]; [src/utils/a.js], whose content is the base64 text
    of the byte 97 and a line feed, has that byte; [.gitkeep], which came
    back empty, has no entry and a warning; of the five files three have
    an entry. *)
Lemma archive_holds_decoded_files_witness :
  ∃ z,
    saves (createAndDownloadZip Demo.world Demo.token Demo.root_files
             "widgets" "acme" "widgets").1
    = [("widgets.zip", z)]
    ∧ z !! "README.md" = Some [72; 101; 108; 108; 111]
    ∧ z !! "src/utils/a.js" = Some [97]
    ∧ z !! ".gitkeep" = None
    ∧ size z = 3%nat
    ∧ ("No content found for .gitkeep", None)
        ∈ warnings
            (createAndDownloadZip Demo.world Demo.token Demo.root_files
               "widgets" "acme" "widgets").1.
Proof.
  destruct (archive_holds_decoded_files Demo.world Demo.token "acme" "widgets"
              Demo.root_files "widgets")
    as (z & Hsaves & Hentries & Hsize & Hnone & Hwarn & Hbytes);
    [vm_compute; reflexivity|].
  exists z. split_and!.
  - exact Hsaves.
  - apply Hentries.
    exists (File.make "README.md" "sha-README.md" "README.md" 5), "SGVs
bG8=
".
    split_and!; [left|reflexivity|vm_compute; reflexivity
                |discriminate|vm_compute; reflexivity].
  - apply (Hbytes (File.make "src/utils/a.js" "sha-a.js" "a.js" 1) "YQ==
" [97]).
    + do 2 right. left.
    + vm_compute. reflexivity.
    + discriminate.
    + constructor; [lia|constructor].
    + vm_compute. reflexivity.
  - apply (Hnone Demo.gitkeep); [right; left|].
    left. vm_compute. reflexivity.
  - rewrite Hsize; [vm_compute; reflexivity|].
    apply (bool_decide_unpack _). vm_compute. exact I.
  - apply (Hwarn Demo.gitkeep); [right; left|].
    eexists _, _. split_and!; [vm_compute; reflexivity|reflexivity|reflexivity|].
    right. reflexivity.
Defined.

(** C1, as the claim has it, fails on a file that is empty. The file
    [.gitkeep] of the demo repository is fetched with success: the answer
    is a 200 whose content is the empty string, the base64 encoding of no
    byte. The run returns and saves an archive, and the archive has no
    entry for [.gitkeep]. *)
Lemma empty_file_is_not_archived :
  (createAndDownloadZip Demo.world Demo.token Demo.root_files
     "widgets" "acme" "widgets").2 = Return tt
  ∧ Demo.gitkeep ∈ Demo.root_files
  ∧ served Demo.world Demo.token "acme" "widgets" (File.path Demo.gitkeep)
    = Some (Response.make 200 "OK"
              (Some (JObject (Demo.file_object ".gitkeep" ".gitkeep" 0 ""))))
  ∧ payload Demo.world Demo.token "acme" "widgets" Demo.gitkeep = Some ""
  ∧ Base64.to_Uint8Array <$> Base64.atob (remove_newlines "") = Some []
  ∧ Spec.base64_decoding (Spec.without_newlines "") = Some []
  ∧ ∃ z, saves (createAndDownloadZip Demo.world Demo.token Demo.root_files
                  "widgets" "acme" "widgets").1 = [("widgets.zip", z)]
         ∧ z !! File.path Demo.gitkeep = None.
Proof.
  split_and!; try (vm_compute; reflexivity).
  - right. left.
  - eexists. split; [vm_compute; reflexivity|]. vm_compute. reflexivity.
Qed.

(** C3. In the loop of [createAndDownloadZip], once JSZip is there, every
    file of the listing is asked for, in the order of the listing, whatever
    happens to the files before it. A file that fails (its request is not
    answered with a success carrying a content that is not empty and
    decodes) is reported by a warning on the console that names it, and has
    no entry in the archive unless another file of the same path decodes;
    the files that decode have their entries. When a file decodes, the
    operation goes on to generate the archive of those that do. When none
    does, it throws [NoFilesDownloadedError] and neither generates nor
    saves an archive. *)
Theorem file_failures_do_not_abort W token owner repo files folderName :
  World.JSZip_defined W || World.script_loads W = true →
  requests (createAndDownloadZip W token files folderName owner repo).1
  = (fun file => contents_url owner repo (File.path file)) <$> files
  ∧ (∀ file, file ∈ files → decoded W token owner repo file = None →
       (∃ text e,
          (text, e)
            ∈ warnings (createAndDownloadZip W token files folderName owner repo).1
          ∧ warns_about file text)
       ∧ ((∀ file', file' ∈ files → File.path file' = File.path file →
             decoded W token owner repo file' = None) →
          archive_of W token owner repo files !! File.path file = None))
  ∧ (∀ file b, file ∈ files → decoded W token owner repo file = Some b →
       generated (createAndDownloadZip W token files folderName owner repo).1
       = [archive_of W token owner repo files]
       ∧ (NoDup (File.path <$> files) →
          archive_of W token owner repo files !! File.path file = Some b))
  ∧ ((∀ file, file ∈ files → decoded W token owner repo file = None) →
       (createAndDownloadZip W token files folderName owner repo).2
       = Throw NoFilesDownloadedError
       ∧ generated (createAndDownloadZip W token files folderName owner repo).1 = []
       ∧ saves (createAndDownloadZip W token files folderName owner repo).1 = []).
Proof.
  intros Hlib.
  destruct (library_events_quiet W) as (Hlr & Hls & Hlg & Hlw).
  destruct (createAndDownloadZip_spec W token owner repo files folderName Hlib)
    as (tr & Hr & Hs & Hg & Hw & _ & E).
  split_and!.
  - rewrite E. destruct (_ =? 0)%nat; [|destruct (_ =? 0)]; cbn [fst];
      rewrite !requests_app, Hlr, Hr; cbn [app]; by rewrite ?app_nil_r.
  - intros file Hin Hd. split.
    + destruct (Hw file Hin Hd) as (text & e & Hin' & Hwarn).
      exists text, e. split; [|done].
      rewrite E. destruct (_ =? 0)%nat; [|destruct (_ =? 0)]; cbn [fst];
        rewrite !warnings_app; apply elem_of_app; right;
        try (apply elem_of_app; left); done.
    + intros Hall.
      destruct (archive_of W token owner repo files !! File.path file)
        as [b|] eqn:Eb; [|done].
      apply foldl_add_file_inv in Eb as [Eb|(f & Hf & Hp & Hdf)]; [done|].
      rewrite (Hall f Hf Hp) in Hdf. done.
  - intros file b Hin Hd. split.
    + pose proof (decoded_count_pos W token owner repo files file Hin
                    ltac:(by eexists)) as Hpos%Nat.eqb_neq.
      rewrite E, Hpos.
      destruct (_ =? 0); cbn [fst]; rewrite !generated_app, Hlg, Hg; done.
    + intros Hnd. unfold archive_of.
      rewrite foldl_add_file_lookup by done. by rewrite Hd.
  - intros Hall. rewrite E.
    rewrite (decoded_count_0 _ _ _ _ _ Hall). cbn [Nat.eqb fst snd].
    split; [done|]. by rewrite generated_app, saves_app, Hlg, Hls, Hg, Hs.
Qed.

(** The five files of [acme/widgets] are asked for, although the second
    comes back empty and the last is refused. *)
Lemma file_failures_do_not_abort_witness :
  requests (createAndDownloadZip Demo.world Demo.token Demo.root_files
              "widgets" "acme" "widgets").1
  = (fun file => contents_url "acme" "widgets" (File.path file))
      <$> Demo.root_files.
Proof.
  refine (proj1 (file_failures_do_not_abort Demo.world Demo.token
                   "acme" "widgets" Demo.root_files "widgets" _)).
  reflexivity.
Defined.

Lemma parse_cases url :
  parseGitHubUrl url = Throw InvalidUrlError ∨ ∃ t, parseGitHubUrl url = Return t.
Proof.
  unfold parseGitHubUrl.
  destruct (Regex.exec repoRegex _); [right; by eexists|].
  destruct (Regex.exec dirRegex _); [right; by eexists|by left].
Qed.

(** Every path has a last segment: the text after its last slash, or
    the path when it has no slash. *)
Lemma last_segment_exists p :
  ∃ dirs seg,
    JS.all_chars (JS.is_not "/") seg = true
    ∧ (p = seg ∨ p = dirs +:+ "/" +:+ seg).
Proof.
  induction p as [|c p (dirs & seg & Hseg & [-> | ->])].
  - by exists "", ""; split; [|left].
  - destruct (Ascii.eqb_spec c "/") as [->|Hc].
    + exists "", seg. split; [done|]. right.
      by rewrite append_nil_l, append_cons, append_nil_l.
    + exists "", (String c seg). split; [|by left].
      cbn [JS.all_chars]. rewrite Hseg, andb_true_r. by apply is_not_spec.
  - exists (String c dirs), seg. split; [done|]. right.
    by rewrite append_cons.
Qed.

(** C7, as the script has it. When the click handler saves an archive, it
    saves one, and the file name is the folder name of the parsed URL with
    the extension [.zip]: the name of the repository for a whole
    repository and, for a subdirectory, the name of the repository, a dash
    and the last segment of the path, which is the text after the last
    slash of the path, or the path when it has no slash; when that text is
    empty, because the path is empty or ends with a slash, [root] stands
    for it. Every path has such a last segment. For
    [https://github.com/acme/widgets/tree/main/src/utils] the archive is
    named [widgets-utils.zip]. *)
Theorem archive_file_name :
  (∀ W token fuel value,
     saves (downloadContent W token fuel value).1 ≠ [] →
     ∃ t z,
       parseGitHubUrl (JS.trim value) = Return t
       ∧ saves (downloadContent W token fuel value).1
         = [(folderName_of t +:+ ".zip", z)])
  ∧ (∀ t, Target.isRepo t = true → folderName_of t = Target.repo t)
  ∧ (∀ t dirs seg,
       Target.isRepo t = false →
       JS.all_chars (JS.is_not "/") seg = true →
       Target.path t = seg ∨ Target.path t = dirs +:+ "/" +:+ seg →
       folderName_of t
       = Target.repo t +:+ "-" +:+ (if decide (seg = "") then "root" else seg))
  ∧ (∀ p, ∃ dirs seg,
       JS.all_chars (JS.is_not "/") seg = true
       ∧ (p = seg ∨ p = dirs +:+ "/" +:+ seg))
  ∧ (∀ W token fuel,
       saves (downloadContent W token fuel
                "https://github.com/acme/widgets/tree/main/src/utils").1 ≠ [] →
       ∃ z, saves (downloadContent W token fuel
                     "https://github.com/acme/widgets/tree/main/src/utils").1
            = [("widgets-utils.zip", z)]).
Proof.
  assert (∀ W token fuel value,
     saves (downloadContent W token fuel value).1 ≠ [] →
     ∃ t z,
       parseGitHubUrl (JS.trim value) = Return t
       ∧ saves (downloadContent W token fuel value).1
         = [(folderName_of t +:+ ".zip", z)]) as Hsave.
  { intros W token fuel value Hne.
    destruct (decide (JS.trim value = "")) as [Hempty|Hurl].
    { by rewrite downloadContent_empty in Hne. }
    destruct (parse_cases (JS.trim value)) as [Hinv|[t Ht]].
    { by rewrite downloadContent_invalid in Hne. }
    exists t. revert Hne. rewrite (downloadContent_parsed _ _ _ _ t Hurl Ht).
    pose proof (listing_only_requests W token fuel (Target.owner t)
                  (Target.repo t) (Target.path t) []) as Hq.
    destruct (fetchDirectoryContents _ _ _ _ _ _ _) as [trl [files|e|]];
      apply only_requests_quiet in Hq as (Hs & _ & _); cbn [fst] in Hs.
    - destruct (length files =? 0)%nat.
      { cbn [fst]. by rewrite !saves_app, Hs. }
      pose proof (createAndDownloadZip_saves W token files (folderName_of t)
                    (Target.owner t) (Target.repo t)) as Hz.
      destruct (createAndDownloadZip _ _ _ _ _ _) as [trz resz].
      cbn [fst snd] in Hz.
      assert (saves [found files] = []) as Hf by done.
      change (found files :: ?l) with ([found files] ++ l).
      destruct Hz as [Hz|[-> Hz]].
      + destruct resz as [[]|e|]; cbn [fst]; rewrite !saves_app, Hs, Hf, Hz;
          done.
      + cbn [fst]. rewrite !saves_app, Hs, Hf, Hz. intros _. by eexists.
    - cbn [fst]. by rewrite !saves_app, Hs.
    - cbn [fst]. by rewrite !saves_app, Hs. }
  split_and!.
  - exact Hsave.
  - intros t E. unfold folderName_of. by rewrite E.
  - intros t dirs seg E Hseg Hp. unfold folderName_of.
    rewrite E.
    assert (JS.pop (JS.split "/" (Target.path t)) = Some seg) as ->.
    { destruct Hp as [-> | ->];
        [by apply pop_split_segment|by apply pop_split_after_slash]. }
    by destruct seg.
  - exact last_segment_exists.
  - intros W token fuel Hne.
    destruct (Hsave W token fuel _ Hne) as (t & z & Ht & Hz).
    exists z. rewrite Hz.
    vm_compute in Ht. injection Ht as <-. reflexivity.
Qed.

(** The directory [src/utils] of [acme/widgets] is saved under the name of
    the example. *)
Lemma archive_file_name_witness :
  ∃ z, saves (downloadContent Demo.world Demo.token 10
                "https://github.com/acme/widgets/tree/main/src/utils").1
       = [("widgets-utils.zip", z)].
Proof.
  destruct archive_file_name as (_ & _ & _ & _ & Hexample).
  apply Hexample. vm_compute. discriminate.
Defined.

(** C7, as the claim has it, fails on a path that ends with a slash. For
    [https://github.com/acme/widgets/tree/main/src//] the parser strips one
    slash and returns the path [src/], which is not empty and whose last
    directory is [src]; the archive of the run is saved as
    [widgets-root.zip]. *)
Lemma slash_ended_path_is_named_root :
  parseGitHubUrl (JS.trim Edge.slashed_url)
  = Return (Target.make "acme" "widgets" "src/" false)
  ∧ Target.path (Target.make "acme" "widgets" "src/" false) ≠ ""
  ∧ (downloadContent Edge.slashed Demo.token 10 Edge.slashed_url).2 = Return tt
  ∧ ∃ z, saves (downloadContent Edge.slashed Demo.token 10 Edge.slashed_url).1
         = [("widgets-root.zip", z)].
Proof.
  split_and!; [vm_compute; reflexivity|discriminate|vm_compute; reflexivity|].
  eexists. vm_compute. reflexivity.
Qed.

(* ===================================================================== *)
(** * The token prompt: claim C8 *)
(* ===================================================================== *)

(** C8. At startup with no token in [localStorage], every answer that is a
    cancelled prompt or a text of at most ten characters is rejected: it is
    followed by an alert and by a new prompt, and nothing is written to
    [localStorage]; as long as only such answers came, the script is still
    at the prompt. The first answer of more than ten characters is
    accepted: it is written to [localStorage] under [DIR_DL_TOKEN], it
    becomes the token, and the loop ends without reading further. *)
Theorem token_prompt storage bad good rest :
  stored_token storage = None →
  Forall rejected bad →
  (10 < String.length good)%nat →
  startup storage bad
  = ((bad ≫= fun _ => rejection) ++ [Prompt "Enter GitHub Token:"], Pending)
  ∧ startup storage (bad ++ Some good :: rest)
    = ((bad ≫= fun _ => rejection) ++ acceptance good,
       Return (Session (Some good) true (<["DIR_DL_TOKEN" := good]> storage))).
Proof.
  intros Hstored Hbad Hgood. unfold startup. rewrite Hstored. split.
  - rewrite <-(app_nil_r bad) at 1.
    rewrite prompt_loop_rejected by done. by rewrite prompt_loop_waiting.
  - rewrite prompt_loop_rejected by done.
    by rewrite prompt_loop_accepted.
Qed.

(** A cancelled prompt, an empty answer and ten characters, then a token. *)
Lemma token_prompt_witness :
  startup ∅ [None; Some ""; Some "0123456789"]
  = (([None; Some ""; Some "0123456789"] ≫= fun _ => rejection)
       ++ [Prompt "Enter GitHub Token:"], Pending)
  ∧ startup ∅ ([None; Some ""; Some "0123456789"]
                 ++ Some "ghp_0123456789abcdef" :: [Some "not read"])
    = (([None; Some ""; Some "0123456789"] ≫= fun _ => rejection)
         ++ acceptance "ghp_0123456789abcdef",
       Return (Session (Some "ghp_0123456789abcdef") true
                       (<["DIR_DL_TOKEN" := "ghp_0123456789abcdef"]> ∅))).
Proof.
  apply token_prompt.
  - reflexivity.
  - repeat constructor; simpl; lia.
  - simpl. lia.
Defined.

(* ===================================================================== *)
(** * Further properties of the parser *)
(* ===================================================================== *)

Section ParserMore.

Import Regex.

(** The leftmost match wins. *)
Lemma exec_leftmost r pre suf caps :
  (∀ p q, pre = p +:+ q → q ≠ "" → run_here r (q +:+ suf) = None) →
  run_here r suf = Some caps →
  exec r (pre +:+ suf) = Some caps.
Proof.
  intros Hleft Hhere. induction pre as [|c pre IH].
  - rewrite append_nil_l. destruct suf; simpl; by rewrite Hhere.
  - rewrite append_cons. simpl. rewrite <-append_cons.
    rewrite (Hleft "" (String c pre)) by done.
    apply IH. intros p q -> Hq. by apply (Hleft (String c p)).
Qed.

(** Where no [g] is, no match of a pattern of the script starts. *)
Lemma run_here_no_g r' q suf :
  JS.all_chars (JS.is_not "g") q = true → q ≠ "" →
  run_here (Seq (word "github.com/") r') (q +:+ suf) = None.
Proof.
  intros Hq Hne. destruct q as [|c q]; [done|].
  simpl in Hq. apply andb_true_iff in Hq as [Hc%is_not_spec _].
  unfold run_here. rewrite run_seq, append_cons.
  by apply run_word_mismatch.
Qed.

Lemma all_chars_suffix p s t :
  JS.all_chars p (s +:+ t) = true → JS.all_chars p t = true.
Proof. rewrite all_chars_app. by intros [_ ?]%andb_true_iff. Qed.

(** A text that ends with a slash before its end is cut there. *)
Lemma append_slash_inv x y z :
  x +:+ "/" = y +:+ z → z ≠ "" → ∃ z', z = z' +:+ "/" ∧ x = y +:+ z'.
Proof.
  revert x. induction y as [|c y IH]; intros x E Hz.
  - rewrite append_nil_l in E. subst z.
    exists x. by rewrite append_nil_l.
  - destruct x as [|d x].
    + rewrite append_nil_l, append_cons in E. simplify_eq.
      destruct y; destruct z; done.
    + rewrite !append_cons in E. simplify_eq.
      destruct (IH x) as (z' & -> & ->); [done..|].
      exists z'. by rewrite append_cons.
Qed.

Lemma segment_last x : segment x = true → ∀ y, x ≠ y +:+ "/".
Proof.
  intros [_ Hall]%segment_spec y ->.
  rewrite <-(append_nil_r (y +:+ "/")), append_assoc in Hall.
  by rewrite no_slash_app_slash in Hall.
Qed.

(** A slash at the end makes no whole-repository URL, and no directory URL
    that was not one without it. *)
Lemma repo_shape_slash u : ¬ repo_shape (u +:+ "/").
Proof.
  intros (pre & owner & repo & E & _ & Hr).
  assert (u +:+ "/" +:+ "" = (pre +:+ "github.com/" +:+ owner) +:+ "/" +:+ repo)
    as E' by (by rewrite append_nil_r, !append_assoc).
  apply last_slash_unique in E' as [_ <-]; [done|done|].
  by apply segment_spec in Hr as [_ ?].
Qed.

Lemma dir_shape_slash u : dir_shape (u +:+ "/") → dir_shape u.
Proof.
  intros (pre & owner & repo & branch & rest & E & Ho & Hr & Hb).
  assert (u +:+ "/"
          = (pre +:+ "github.com/" +:+ owner +:+ "/" +:+ repo +:+ "/tree/")
              +:+ branch +:+ rest) as E' by (by rewrite E, !append_assoc).
  apply append_slash_inv in E' as (z' & Ez & ->).
  - destruct rest as [|c rest].
    + rewrite append_nil_r in Ez. by apply segment_last in Ez.
    + apply eq_sym, append_slash_inv in Ez as (rest' & Er & ->); [|done].
      exists pre, owner, repo, branch, rest'.
      split; [by rewrite !append_assoc|done].
  - intros [-> _]%append_eq_nil. done.
Qed.

End ParserMore.

(** X1. One slash at the end of the input does not count: a URL and the
    same URL followed by a slash are parsed alike. *)
Theorem trailing_slash_ignored u :
  strip_trailing_slash u = u →
  parseGitHubUrl (u +:+ "/") = parseGitHubUrl u.
Proof.
  intros Hu. unfold parseGitHubUrl.
  rewrite strip_trailing_slash_app by done.
  change (strip_trailing_slash "/") with "". by rewrite append_nil_r, Hu.
Qed.

(** The URL of a repository, with and without the slash. *)
Lemma trailing_slash_ignored_witness :
  parseGitHubUrl ("https://github.com/acme/widgets" +:+ "/")
  = parseGitHubUrl "https://github.com/acme/widgets".
Proof. apply trailing_slash_ignored. reflexivity. Defined.

(** X2. One slash only is stripped: an input that ends with two slashes is
    refused, unless it has the branch-subdirectory shape without them. The
    URL of a repository followed by two slashes is refused. *)
Theorem second_trailing_slash_refused u :
  ¬ dir_shape u →
  parseGitHubUrl (u +:+ "//") = Throw InvalidUrlError.
Proof.
  intros Hdir. apply parse_invalid.
  - replace (u +:+ "//") with ((u +:+ "/") +:+ "/") by (by rewrite append_assoc).
    rewrite strip_trailing_slash_app by done.
    change (strip_trailing_slash "/") with "". rewrite append_nil_r.
    apply repo_shape_slash.
  - replace (u +:+ "//") with ((u +:+ "/") +:+ "/") by (by rewrite append_assoc).
    rewrite strip_trailing_slash_app by done.
    change (strip_trailing_slash "/") with "". rewrite append_nil_r.
    intros H. by apply Hdir, dir_shape_slash.
Qed.

Lemma second_trailing_slash_refused_witness :
  parseGitHubUrl ("https://github.com/acme/widgets" +:+ "//")
  = Throw InvalidUrlError.
Proof.
  apply second_trailing_slash_refused.
  apply exec_dir_None. vm_compute. reflexivity.
Defined.

(** X3. The branch of a directory URL is discarded: what the parser returns
    for [<pre>github.com/<owner>/<repo>/tree/<branch>/<path>], where [pre]
    is a scheme such as [https://] (a text without [g]) and the URL does
    not end like a whole-repository URL, is the owner, the repository and
    the first line of the path without its trailing slash, whatever the
    branch. *)
Theorem branch_is_discarded pre owner repo branch p :
  JS.all_chars (JS.is_not "g") pre = true →
  segment owner = true → segment repo = true → segment branch = true →
  ¬ repo_shape (strip_trailing_slash
                  (pre +:+ "github.com/" +:+ owner +:+ "/" +:+ repo +:+ "/tree/"
                     +:+ branch +:+ "/" +:+ p)) →
  parseGitHubUrl (pre +:+ "github.com/" +:+ owner +:+ "/" +:+ repo +:+ "/tree/"
                    +:+ branch +:+ "/" +:+ p)
  = Return (Target.make owner repo
              (JS.take_while (Regex.accepts Regex.Dot) (strip_trailing_slash p))
              false).
Proof.
  intros Hpre Ho Hr Hb.
  assert (∃ rest,
    strip_trailing_slash
      (pre +:+ "github.com/" +:+ owner +:+ "/" +:+ repo +:+ "/tree/"
         +:+ branch +:+ "/" +:+ p)
    = pre +:+ "github.com/" +:+ owner +:+ "/" +:+ repo +:+ "/tree/"
        +:+ branch +:+ rest
    ∧ JS.take_while (Regex.accepts (Regex.NoneOf "/")) rest = ""
    ∧ path_after_branch rest
      = JS.take_while (Regex.accepts Regex.Dot) (strip_trailing_slash p))
    as (rest & Es & Hrest & Hpath).
  { replace (pre +:+ "github.com/" +:+ owner +:+ "/" +:+ repo +:+ "/tree/"
               +:+ branch +:+ "/" +:+ p)
      with ((pre +:+ "github.com/" +:+ owner +:+ "/" +:+ repo +:+ "/tree/"
               +:+ branch) +:+ "/" +:+ p) by (by rewrite !append_assoc).
    rewrite strip_trailing_slash_app by done. rewrite !append_assoc.
    destruct p as [|c p].
    - exists "". split_and!; reflexivity.
    - exists ("/" +:+ strip_trailing_slash (String c p)).
      split_and!; [|done..].
      by rewrite (strip_trailing_slash_app "/" (String c p)). }
  unfold parseGitHubUrl. rewrite Es.
  intros Hrepo%exec_repo_None. rewrite Hrepo.
  assert (Regex.exec dirRegex
            (pre +:+ "github.com/" +:+ owner +:+ "/" +:+ repo +:+ "/tree/"
               +:+ branch +:+ rest)
          = Some [owner; repo; path_after_branch rest]) as ->.
  { apply exec_leftmost.
    - intros q1 q2 -> Hq2. apply run_here_no_g; [|done].
      by eapply all_chars_suffix.
    - apply run_here_dir. by exists owner, repo, branch, rest. }
  cbn [group lookup list_lookup default from_option].
  do 2 f_equal. rewrite <-Hpath. apply or_else_empty.
Qed.

(** A directory on a branch that is not the default one. *)
Lemma branch_is_discarded_witness :
  parseGitHubUrl ("https://" +:+ "github.com/" +:+ "acme" +:+ "/" +:+ "widgets"
                    +:+ "/tree/" +:+ "feature-x" +:+ "/" +:+ "src/utils/")
  = Return (Target.make "acme" "widgets"
              (JS.take_while (Regex.accepts Regex.Dot)
                 (strip_trailing_slash "src/utils/"))
              false).
Proof.
  apply branch_is_discarded; try reflexivity.
  apply exec_repo_None. vm_compute. reflexivity.
Defined.

(** X4. Whatever the parser returns is well formed: the owner and the
    repository are not empty and have no slash, the path of a whole
    repository is empty, and a path holds no line terminator. *)
Theorem parsed_target_well_formed url t :
  parseGitHubUrl url = Return t →
  segment (Target.owner t) = true
  ∧ segment (Target.repo t) = true
  ∧ (Target.isRepo t = true → Target.path t = "")
  ∧ JS.all_chars (Regex.accepts Regex.Dot) (Target.path t) = true.
Proof.
  unfold parseGitHubUrl.
  destruct (Regex.exec repoRegex _) as [caps|] eqn:E.
  { apply exec_repo in E as (pre & owner & repo & _ & Ho & Hr & ->).
    intros [= <-]. by split_and!. }
  destruct (Regex.exec dirRegex _) as [caps|] eqn:E'; [|done].
  apply exec_dir_Some in E'
    as (pre & owner & repo & branch & rest & _ & Ho & Hr & _ & _ & ->).
  intros [= <-]. cbn [Target.owner Target.repo Target.isRepo Target.path].
  split_and!; [done|done|done|].
  pose proof (all_chars_take_while (Regex.accepts Regex.Dot)
                match rest with String "/" p => p | _ => rest end) as Hall.
  fold (path_after_branch rest) in Hall.
  by destruct (path_after_branch rest).
Qed.

Lemma parsed_target_well_formed_witness :
  segment "acme" = true
  ∧ segment "widgets" = true
  ∧ (false = true → "src/utils" = "")
  ∧ JS.all_chars (Regex.accepts Regex.Dot) "src/utils" = true.
Proof.
  apply (parsed_target_well_formed
           "https://github.com/acme/widgets/tree/main/src/utils"
           (Target.make "acme" "widgets" "src/utils" false)).
  reflexivity.
Defined.

Lemma split_pieces c s :
  Forall (fun piece => JS.all_chars (JS.is_not c) piece = true) (JS.split c s).
Proof.
  induction s as [|d s IH]; [by repeat constructor|].
  simpl. destruct (Ascii.eqb_spec d c) as [->|Hne]; [by constructor|].
  destruct (JS.split c s) as [|piece pieces] eqn:E;
    [by apply split_nonempty in E|].
  inversion IH; subst. constructor; [|done].
  simpl. apply andb_true_iff. split; [by apply is_not_spec|done].
Qed.

Lemma pop_elem_of l x : JS.pop l = Some x → x ∈ l.
Proof.
  unfold JS.pop. induction l as [|y [|z l] IH]; [done| |].
  - intros [= ->]. by left.
  - intros H. right. by apply IH.
Qed.

(** X5. The folder name of a parsed URL can be a file name: it is not
    empty and has no slash. *)
Theorem folder_name_has_no_slash url t :
  parseGitHubUrl url = Return t →
  folderName_of t ≠ ""
  ∧ JS.all_chars (JS.is_not "/") (folderName_of t) = true.
Proof.
  intros (Ho & [Hne Hr]%segment_spec & _ & _)%parsed_target_well_formed.
  unfold folderName_of. destruct (Target.isRepo t); [done|].
  split.
  - intros [? _]%append_eq_nil. done.
  - rewrite !all_chars_app, Hr. cbn [andb JS.all_chars].
    destruct (JS.pop (JS.split "/" (Target.path t))) as [seg|] eqn:E; [|done].
    apply pop_elem_of in E.
    pose proof (split_pieces "/" (Target.path t)) as Hall.
    rewrite Forall_forall in Hall. specialize (Hall seg E).
    by destruct seg.
Qed.

Lemma folder_name_has_no_slash_witness :
  folderName_of (Target.make "acme" "widgets" "src/utils" false) ≠ ""
  ∧ JS.all_chars (JS.is_not "/")
      (folderName_of (Target.make "acme" "widgets" "src/utils" false)) = true.
Proof.
  apply (folder_name_has_no_slash
           "https://github.com/acme/widgets/tree/main/src/utils").
  reflexivity.
Defined.

(* ===================================================================== *)
(** * Further properties of the click handler *)
(* ===================================================================== *)

Lemma trimEnd_idem s : JS.trimEnd (JS.trimEnd s) = JS.trimEnd s.
Proof.
  induction s as [|c s IH]; [done|].
  cbn [JS.trimEnd]. destruct (JS.trimEnd s) as [|d t] eqn:E.
  - destruct (JS.is_white_space c) eqn:Ec; [done|].
    cbn [JS.trimEnd]. by rewrite Ec.
  - cbn [JS.trimEnd] in *. by rewrite IH.
Qed.

Lemma trimEnd_head c s :
  JS.is_white_space c = false → ∃ t, JS.trimEnd (String c s) = String c t.
Proof.
  intros Hc. cbn [JS.trimEnd]. destruct (JS.trimEnd s); [|by eexists].
  rewrite Hc. by eexists.
Qed.

Lemma drop_while_cases p s :
  JS.drop_while p s = ""
  ∨ ∃ c t, JS.drop_while p s = String c t ∧ p c = false.
Proof.
  induction s as [|c s IH]; [by left|].
  simpl. destruct (p c) eqn:E; [done|]. right. by exists c, s.
Qed.

Lemma trim_idem s : JS.trim (JS.trim s) = JS.trim s.
Proof.
  unfold JS.trim.
  destruct (drop_while_cases JS.is_white_space s) as [->|(c & t & -> & Hc)];
    [done|].
  destruct (trimEnd_head c t Hc) as [t' E]. rewrite E.
  cbn [JS.drop_while]. rewrite Hc, <-E. apply trimEnd_idem.
Qed.

(** X6. The click handler ignores the white space around the text of the
    input field: a run on a text and a run on the text trimmed are the
    same run. *)
Theorem handler_ignores_surrounding_space W token fuel value :
  downloadContent W token fuel (JS.trim value)
  = downloadContent W token fuel value.
Proof. unfold downloadContent. by rewrite trim_idem. Qed.

(** The events of a walk are requests about the repository. *)
Lemma listing_zip_events W token fuel owner repo path allFiles :
  Forall (zip_event token owner repo)
         (fetchDirectoryContents W token fuel owner repo path allFiles).1.
Proof.
  revert path allFiles. induction fuel as [|fuel IH]; intros path allFiles;
    [by constructor|].
  rewrite fetchDirectoryContents_S.
  assert (zip_event token owner repo (Request (contents_url owner repo path) token))
    as Hreq by (split; [done|by eexists]).
  assert (∀ items acc,
    Forall (zip_event token owner repo)
      (for_of items
         (fun item allFiles =>
            if String.eqb (Item.type item) "file" then
              ret (allFiles ++ [descriptor item])
            else if String.eqb (Item.type item) "dir" then
              fetchDirectoryContents W token fuel owner repo (Item.path item)
                                     allFiles
            else ret allFiles) acc).1) as Hloop.
  { induction items as [|item items IHitems]; intros acc; [by constructor|].
    rewrite for_of_cons.
    assert (Forall (zip_event token owner repo)
              (if String.eqb (Item.type item) "file" then
                 ret (acc ++ [descriptor item])
               else if String.eqb (Item.type item) "dir" then
                 fetchDirectoryContents W token fuel owner repo (Item.path item) acc
               else ret acc).1) as Hitem.
    { destruct (String.eqb (Item.type item) "file"); [by constructor|].
      destruct (String.eqb (Item.type item) "dir"); [apply IH|by constructor]. }
    destruct (if String.eqb (Item.type item) "file" then _ else _)
      as [tr1 [acc'|e|]]; [|done..].
    rewrite bind_Return. cbn [fst]. apply Forall_app. split; [done|apply IHitems]. }
  destruct (served W token owner repo path) as [r|];
    [|by constructor; [|constructor]].
  destruct (Response.ok r); [|by constructor; [|constructor]].
  destruct (Response.body r) as [[items|o]|];
    [|by constructor; [|constructor]..].
  specialize (Hloop items allFiles).
  destruct (for_of items _ allFiles) as [tr res].
  by constructor.
Qed.

(** The loop of the archive builder returns, and its events are status
    lines, warnings and requests about the repository. *)
Lemma download_loop_zip_events W token owner repo totalFiles files st :
  Forall (zip_event token owner repo)
    (for_of files (download_file W token totalFiles owner repo) st).1
  ∧ ∃ st', (for_of files (download_file W token totalFiles owner repo) st).2
           = Return st'.
Proof.
  revert st. induction files as [|file files IH]; intros st.
  { split; [by constructor|by eexists]. }
  rewrite for_of_cons.
  assert (zip_event token owner repo
            (Request (contents_url owner repo (File.path file)) token))
    as Hreq by (split; [done|by eexists]).
  destruct (decoded W token owner repo file) as [b|] eqn:E.
  - rewrite (download_file_decoded _ _ _ _ _ _ _ b E), bind_Return.
    destruct (IH (ZipState (<[File.path file:=b]> (zip st))
                           (downloadedCount st + 1)
                           (successfulDownloads st + 1))) as [Hev Hret].
    cbn [fst snd]. split; [|done].
    constructor; [done|]. by constructor.
  - destruct (download_file_failed W token owner repo totalFiles file st E)
      as (text & e & dc & -> & _).
    rewrite bind_Return.
    destruct (IH (ZipState (zip st) dc (successfulDownloads st))) as [Hev Hret].
    cbn [fst snd]. split; [|done].
    constructor; [done|]. constructor; [done|]. by constructor.
Qed.

(** The archive builder ends, and its events are those of [zip_event]. *)
Lemma createAndDownloadZip_zip_events W token files folderName owner repo :
  Forall (zip_event token owner repo)
    (createAndDownloadZip W token files folderName owner repo).1
  ∧ (createAndDownloadZip W token files folderName owner repo).2 ≠ Pending.
Proof.
  unfold createAndDownloadZip.
  destruct (download_loop_zip_events W token owner repo (length files) files
              (ZipState ∅ 0 0)) as [Hev [st' Hret]].
  destruct (for_of files _ _) as [tr res]. cbn [fst snd] in Hev, Hret. subst res.
  destruct (World.JSZip_defined W); [|destruct (World.script_loads W)];
    cbn -[String.append pretty megabytes];
    repeat match goal with
           | |- context [if ?b then _ else _] =>
               destruct b; cbn -[String.append pretty megabytes]
           end;
    (split; [|done]);
    rewrite ?app_nil_r;
    repeat first [apply Forall_app; split | apply Forall_cons; split
                 | apply Forall_nil ];
    done.
Qed.

Lemma createAndDownloadZip_Throw_saves W token files folderName owner repo e :
  (createAndDownloadZip W token files folderName owner repo).2 = Throw e →
  saves (createAndDownloadZip W token files folderName owner repo).1 = [].
Proof.
  intros E.
  destruct (createAndDownloadZip_saves W token files folderName owner repo)
    as [H|[H _]]; [done|congruence].
Qed.

Lemma createAndDownloadZip_Return_saves W token files folderName owner repo :
  (createAndDownloadZip W token files folderName owner repo).2 = Return tt →
  saves (createAndDownloadZip W token files folderName owner repo).1
  = [(folderName +:+ ".zip", archive_of W token owner repo files)].
Proof.
  destruct (createAndDownloadZip_saves W token files folderName owner repo)
    as [Hs|[_ Hs]]; [|done].
  intros Hret. exfalso. revert Hret Hs.
  destruct (library_events_quiet W) as (_ & Hls & _ & _).
  destruct (World.JSZip_defined W || World.script_loads W) eqn:Hlib.
  - destruct (createAndDownloadZip_spec W token owner repo files folderName Hlib)
      as (tr & _ & Hs & _ & _ & _ & ->).
    destruct (decoded_count _ _ _ _ files =? 0)%nat; [done|].
    destruct (World.blob_size W _ =? 0); [done|]. cbn [fst snd].
    by rewrite !saves_app, Hls, Hs.
  - apply orb_false_iff in Hlib as [H1 H2].
    by rewrite createAndDownloadZip_no_library.
Qed.

(** The runs of the click handler, by the way they end: on an empty input,
    on a URL that is refused, while the listing is pending, on a failure
    of the listing or of the archive, on an empty listing, and on a save.
    Between the first status lines and the last, there is nothing but
    events of the lister and of the archive builder. *)
Lemma downloadContent_shape W token fuel value :
  (JS.trim value = ""
   ∧ downloadContent W token fuel value
     = ([Status "Please enter a GitHub repository or directory URL" "error"],
        Return tt))
  ∨ (JS.trim value ≠ ""
     ∧ parseGitHubUrl (JS.trim value) = Throw InvalidUrlError
     ∧ downloadContent W token fuel value
       = (Status "Parsing URL..." "info" :: failing InvalidUrlError, Return tt))
  ∨ ∃ t mid,
      JS.trim value ≠ ""
      ∧ parseGitHubUrl (JS.trim value) = Return t
      ∧ Forall (zip_event token (Target.owner t) (Target.repo t)) mid
      ∧ ((downloadContent W token fuel value = (starting ++ mid, Pending)
          ∧ Forall (fun ev => ∃ url, ev = Request url token) mid)
         ∨ (∃ e, downloadContent W token fuel value
                 = (starting ++ mid ++ failing e, Return tt)
                 ∧ saves mid = [])
         ∨ (downloadContent W token fuel value
            = (starting ++ mid
                 ++ [Status "No files found in the directory" "error";
                     Disabled false],
               Return tt)
            ∧ saves mid = [])
         ∨ (∃ z, downloadContent W token fuel value
                 = (starting ++ mid
                      ++ [Status "Download completed successfully!" "success";
                          Disabled false],
                    Return tt)
                 ∧ saves mid = [(folderName_of t +:+ ".zip", z)])).
Proof.
  destruct (decide (JS.trim value = "")) as [Hempty|Hne].
  { left. split; [done|]. by apply downloadContent_empty. }
  destruct (parse_cases (JS.trim value)) as [Hinv|[t Ht]].
  { right. left. split_and!; [done..|]. by apply downloadContent_invalid. }
  right. right. exists t.
  rewrite (downloadContent_parsed _ _ _ _ t Hne Ht).
  pose proof (listing_zip_events W token fuel (Target.owner t) (Target.repo t)
                (Target.path t) []) as Hl.
  pose proof (listing_only_requests W token fuel (Target.owner t) (Target.repo t)
                (Target.path t) []) as Hq.
  destruct (fetchDirectoryContents _ _ _ _ _ _ _) as [trl [files|e|]];
    cbn [fst] in Hl, Hq;
    pose proof (only_requests_quiet _ _ Hq) as (Hs & _ & _).
  - destruct (length files =? 0)%nat.
    { exists trl. split_and!; [done..|]. right. right. left. done. }
    pose proof (createAndDownloadZip_zip_events W token files (folderName_of t)
                  (Target.owner t) (Target.repo t)) as [Hz Hnp].
    pose proof (createAndDownloadZip_saves W token files (folderName_of t)
                  (Target.owner t) (Target.repo t)) as Hsv.
    pose proof (createAndDownloadZip_Throw_saves W token files (folderName_of t)
                  (Target.owner t) (Target.repo t)) as Hth.
    pose proof (createAndDownloadZip_Return_saves W token files (folderName_of t)
                  (Target.owner t) (Target.repo t)) as Hrs.
    destruct (createAndDownloadZip _ _ _ _ _ _) as [trz [[]|e|]];
      cbn [fst snd] in *; [| |done].
    + exists (trl ++ found files :: trz). split_and!; [done..| |].
      { apply Forall_app. split; [done|]. by constructor. }
      right. right. right.
      eexists. split; [by rewrite <-app_assoc|].
      rewrite saves_app, Hs. cbn [app]. by apply Hrs.
    + exists (trl ++ found files :: trz). split_and!; [done..| |].
      { apply Forall_app. split; [done|]. by constructor. }
      right. left. exists e. split; [by rewrite <-app_assoc|].
      rewrite saves_app, Hs. cbn [app]. by apply (Hth e).
  - exists trl. split_and!; [done..|]. right. left. by exists e.
  - exists trl. split_and!; [done..|]. by left.
Qed.

Lemma status_line_app tr1 tr2 el :
  status_line (tr1 ++ tr2) el = status_line tr2 (status_line tr1 el).
Proof. apply foldl_app. Qed.

Lemma status_line_requests token tr el :
  Forall (fun ev => ∃ url, ev = Request url token) tr → status_line tr el = el.
Proof. induction 1 as [|ev tr [url ->] _ IH]; [done|]. exact IH. Qed.

Lemma saves_failing e : saves (failing e) = [].
Proof. reflexivity. Qed.

(** X7. The status line tells the truth about the save: after a run of the
    click handler, whatever the status line was before, its class is
    [log-success] exactly when the run saved an archive. *)
Theorem success_is_shown_iff_saved W token fuel value el :
  LogElement.className (status_line (downloadContent W token fuel value).1 el)
  = "log-success"
  ↔ saves (downloadContent W token fuel value).1 ≠ [].
Proof.
  destruct (downloadContent_shape W token fuel value)
    as [[_ ->]|[(_ & _ & ->)|(t & mid & _ & _ & _ & H)]]; [done|done|].
  destruct H as [[-> Hq]|[(e & -> & Hs)|[[-> Hs]|(z & -> & Hs)]]]; cbn [fst].
  - rewrite status_line_app, (status_line_requests token) by done.
    apply only_requests_quiet in Hq as (Hs & _ & _).
    rewrite saves_app, Hs. done.
  - rewrite !status_line_app, !saves_app, Hs. done.
  - rewrite !status_line_app, !saves_app, Hs. done.
  - rewrite !status_line_app, !saves_app, Hs. done.
Qed.

Lemma guarded_app tr1 tr2 b :
  guarded (tr1 ++ tr2) b = guarded tr1 b && guarded tr2 (disabled_after tr1 b).
Proof.
  revert b. induction tr1 as [|ev tr1 IH]; intros b; [done|].
  destruct ev; cbn [app guarded disabled_after foldl]; try apply IH.
  rewrite IH. by destruct b.
Qed.

Lemma disabled_after_app tr1 tr2 b :
  disabled_after (tr1 ++ tr2) b = disabled_after tr2 (disabled_after tr1 b).
Proof. apply foldl_app. Qed.

Lemma zip_events_button token owner repo tr b :
  Forall (zip_event token owner repo) tr →
  disabled_after tr b = b ∧ guarded tr true = true.
Proof.
  induction 1 as [|ev tr Hev _ [IH1 IH2]]; [done|].
  destruct ev; try done.
Qed.

(** X8. The button guards the requests: in a run of the click handler every
    request is sent while the button is disabled, whatever the button was
    before the run; a run that ends on an input that is not blank leaves
    the button enabled, and a run on a blank input leaves it as it was. *)
Theorem button_guards_requests W token fuel value b :
  guarded (downloadContent W token fuel value).1 b = true
  ∧ ((downloadContent W token fuel value).2 = Return tt →
     JS.trim value ≠ "" →
     disabled_after (downloadContent W token fuel value).1 b = false)
  ∧ (JS.trim value = "" →
     disabled_after (downloadContent W token fuel value).1 b = b).
Proof.
  destruct (downloadContent_shape W token fuel value)
    as [[He ->]|[(Hne & _ & ->)|(t & mid & Hne & _ & Hmid & H)]];
    [done|done|].
  assert (∀ tail, guarded (starting ++ mid ++ tail) b = guarded tail true
                  ∧ disabled_after (starting ++ mid ++ tail) b
                    = disabled_after tail true) as Hmid'.
  { intros tail.
    destruct (zip_events_button _ _ _ mid true Hmid) as [Hd Hg].
    rewrite !guarded_app, !disabled_after_app.
    change (disabled_after starting b) with true.
    change (guarded starting b) with true.
    by rewrite Hd, Hg. }
  destruct H as [[-> Hq]|[(e & -> & Hs)|[[-> Hs]|(z & -> & Hs)]]]; cbn [fst snd].
  - destruct (Hmid' []) as [Hg _]. rewrite app_nil_r in Hg.
    split_and!; [done|done|done].
  - destruct (Hmid' (failing e)) as [-> ->]. done.
  - destruct (Hmid' [Status "No files found in the directory" "error";
                     Disabled false]) as [-> ->]. done.
  - destruct (Hmid' [Status "Download completed successfully!" "success";
                     Disabled false]) as [-> ->]. done.
Qed.

Lemma button_guards_requests_witness :
  disabled_after
    (downloadContent Demo.world Demo.token 10
       "https://github.com/acme/widgets").1 true = false
  ∧ disabled_after (downloadContent Demo.world Demo.token 10 "  ").1 true = true.
Proof.
  split.
  - destruct (button_guards_requests Demo.world Demo.token 10
                "https://github.com/acme/widgets" true) as (_ & H & _).
    apply H; [reflexivity|by vm_compute].
  - destruct (button_guards_requests Demo.world Demo.token 10
                "  " true) as (_ & _ & H).
    apply H. reflexivity.
Defined.

Lemma lister_first_request W token fuel owner repo path allFiles :
  ∃ tr,
    (fetchDirectoryContents W token (S fuel) owner repo path allFiles).1
    = Request (contents_url owner repo path) token :: tr.
Proof.
  rewrite fetchDirectoryContents_S.
  destruct (served W token owner repo path) as [r|]; [|by eexists].
  destruct (Response.ok r); [|by eexists].
  destruct (Response.body r) as [[items|o]|]; [|by eexists..].
  destruct (for_of items _ allFiles). by eexists.
Qed.

(** X9. What is handed to [fetch]: once the URL is parsed, every request
    of the run carries the token of the session, and the URL of the
    request is the text [https://api.github.com/repos/], the owner, a
    slash, the repository, [/contents/] and a path, with the owner and the
    repository that the parser found; the first request of a run is for
    the path that the parser found, character for character. This is the
    text that [fetch] is given: the script escapes nothing, and where a
    text with [..], [?] or [#] in it takes the request is the matter of
    the browser. *)
Theorem requests_are_contents_urls W token fuel value t :
  parseGitHubUrl (JS.trim value) = Return t →
  (∀ url tk,
     Request url tk ∈ (downloadContent W token fuel value).1 →
     tk = token
     ∧ ∃ path, url = contents_url (Target.owner t) (Target.repo t) path)
  ∧ head (requests (downloadContent W token (S fuel) value).1)
    = Some (contents_url (Target.owner t) (Target.repo t) (Target.path t)).
Proof.
  intros Ht. split.
  - intros url tk.
    destruct (downloadContent_shape W token fuel value)
      as [[_ ->]|[(_ & Ht' & _)|(t' & mid & _ & Ht' & Hmid & H)]];
      [by intros [=]%list_elem_of_singleton|congruence|].
    assert (t' = t) as -> by congruence.
    assert (∀ tail, (∀ u k, Request u k ∉ tail) →
              Request url tk ∈ starting ++ mid ++ tail →
              tk = token
              ∧ ∃ path, url = contents_url (Target.owner t) (Target.repo t) path)
      as Hin.
    { intros tail Htail [Hin|[Hin|Hin]%elem_of_app]%elem_of_app.
      - unfold starting in Hin. set_solver.
      - rewrite Forall_forall in Hmid. exact (Hmid _ Hin).
      - by apply Htail in Hin. }
    destruct H as [[-> Hq]|[(e & -> & Hs)|[[-> Hs]|(z & -> & Hs)]]]; cbn [fst].
    + rewrite <-(app_nil_r mid). apply Hin. intros u k ?%elem_of_nil. done.
    + apply Hin. intros u k. unfold failing. set_solver.
    + apply Hin. intros u k. set_solver.
    + apply Hin. intros u k. set_solver.
  - assert (JS.trim value ≠ "") as Hne.
    { intros E. rewrite E in Ht. vm_compute in Ht. discriminate. }
    rewrite (downloadContent_parsed _ _ _ _ t Hne Ht).
    destruct (lister_first_request W token fuel (Target.owner t)
                (Target.repo t) (Target.path t) []) as [tr Etr].
    destruct (fetchDirectoryContents W token (S fuel) _ _ _ _) as [trl resl].
    cbn [fst] in Etr. subst trl.
    destruct resl as [files|e|]; [|reflexivity..].
    destruct (length files =? 0)%nat; [reflexivity|].
    by destruct (createAndDownloadZip _ _ _ _ _ _) as [trz [[]|e|]].
Qed.

Lemma requests_are_contents_urls_witness :
  (∀ url tk,
     Request url tk
       ∈ (downloadContent Demo.world Demo.token 10
            "https://github.com/acme/widgets/tree/main/src/utils").1 →
     tk = Demo.token ∧ ∃ path, url = contents_url "acme" "widgets" path)
  ∧ head (requests
            (downloadContent Demo.world Demo.token 10
               "https://github.com/acme/widgets/tree/main/src/utils").1)
    = Some "https://api.github.com/repos/acme/widgets/contents/src/utils".
Proof.
  apply (requests_are_contents_urls Demo.world Demo.token 9
           "https://github.com/acme/widgets/tree/main/src/utils"
           (Target.make "acme" "widgets" "src/utils" false)).
  reflexivity.
Defined.

(** X10. A tree that lists and has no regular file (empty directories,
    submodules, links) ends the run after the listing: the status line
    says that no file was found, the button is enabled again, and nothing
    else happens: JSZip is not loaded, no file is asked for, nothing is
    saved. *)
Theorem empty_listing_is_reported W token value t :
  JS.trim value ≠ "" →
  parseGitHubUrl (JS.trim value) = Return t →
  lists W token (Target.owner t) (Target.repo t) (Target.path t) [] →
  ∃ n, ∀ fuel, (n ≤ fuel)%nat →
    downloadContent W token fuel value
    = (starting
         ++ (fetchDirectoryContents W token fuel (Target.owner t)
               (Target.repo t) (Target.path t) []).1
         ++ [Status "No files found in the directory" "error"; Disabled false],
       Return tt)
    ∧ Forall (fun ev => ∃ url, ev = Request url token)
        (fetchDirectoryContents W token fuel (Target.owner t)
           (Target.repo t) (Target.path t) []).1.
Proof.
  intros Hne Ht Hl.
  destruct (lists_returns _ _ _ _ _ _ Hl) as [n Hn]. exists n.
  intros fuel Hle. split; [|apply listing_only_requests].
  rewrite (downloadContent_parsed _ _ _ _ t Hne Ht).
  specialize (Hn fuel Hle []).
  destruct (fetchDirectoryContents _ _ _ _ _ _ _) as [trl res].
  cbn [fst snd] in *. by subst res.
Qed.

(** The repository [acme/bare]. *)
Lemma empty_listing_is_reported_witness :
  ∃ n, ∀ fuel, (n ≤ fuel)%nat →
    downloadContent Edge.bare Demo.token fuel "https://github.com/acme/bare"
    = (starting
         ++ (fetchDirectoryContents Edge.bare Demo.token fuel "acme" "bare" "" []).1
         ++ [Status "No files found in the directory" "error"; Disabled false],
       Return tt)
    ∧ Forall (fun ev => ∃ url, ev = Request url Demo.token)
        (fetchDirectoryContents Edge.bare Demo.token fuel "acme" "bare" "" []).1.
Proof.
  apply (empty_listing_is_reported Edge.bare Demo.token
           "https://github.com/acme/bare"
           (Target.make "acme" "bare" "" true)).
  - by vm_compute.
  - reflexivity.
  - eapply lists_dir; [reflexivity..|].
    apply lists_other; [done|done|].
    apply (lists_subdir _ _ _ _ (Demo.entry "dir" "docs" "docs" 0) _ [] []);
      [reflexivity| |apply lists_nil].
    eapply lists_dir; [reflexivity..|]. apply lists_nil.
Defined.

(** X11. When JSZip is not there and its script does not load, the run
    fails before the first file: after the listing the handler reports
    [Failed to load JSZip library], having asked for no file and saved
    nothing. *)
Theorem library_failure_is_reported W token fuel value t files :
  JS.trim value ≠ "" →
  parseGitHubUrl (JS.trim value) = Return t →
  (fetchDirectoryContents W token fuel (Target.owner t) (Target.repo t)
     (Target.path t) []).2 = Return files →
  files ≠ [] →
  World.JSZip_defined W = false → World.script_loads W = false →
  downloadContent W token fuel value
  = (starting
       ++ (fetchDirectoryContents W token fuel (Target.owner t) (Target.repo t)
             (Target.path t) []).1
       ++ found files :: library_events W ++ failing LibraryLoadError,
     Return tt)
  ∧ requests (downloadContent W token fuel value).1
    = requests (fetchDirectoryContents W token fuel (Target.owner t)
                  (Target.repo t) (Target.path t) []).1
  ∧ saves (downloadContent W token fuel value).1 = [].
Proof.
  intros Hne Ht Hret Hfiles H1 H2.
  assert (downloadContent W token fuel value
          = (starting
               ++ (fetchDirectoryContents W token fuel (Target.owner t)
                     (Target.repo t) (Target.path t) []).1
               ++ found files :: library_events W ++ failing LibraryLoadError,
             Return tt)) as E.
  { rewrite (downloadContent_parsed _ _ _ _ t Hne Ht).
    destruct (fetchDirectoryContents _ _ _ _ _ _ _) as [trl res].
    cbn [fst snd] in *. subst res.
    destruct files as [|file files]; [done|]. cbn [length Nat.eqb].
    by rewrite createAndDownloadZip_no_library. }
  split; [done|]. rewrite E. cbn [fst].
  pose proof (listing_only_requests W token fuel (Target.owner t)
                (Target.repo t) (Target.path t) []) as Hq.
  apply only_requests_quiet in Hq as (Hs & _ & _).
  destruct (library_events_quiet W) as (Hlr & Hls & _ & _).
  split.
  - rewrite !requests_app.
    change (found files :: ?l) with ([found files] ++ l).
    rewrite !requests_app, Hlr. cbn. by rewrite app_nil_r.
  - rewrite !saves_app.
    change (found files :: ?l) with ([found files] ++ l).
    by rewrite !saves_app, Hs, Hls.
Qed.

(** The demo remote, in a browser that cannot load JSZip. *)
Lemma library_failure_is_reported_witness :
  saves (downloadContent Edge.offline Demo.token 10
           "https://github.com/acme/widgets/tree/main/src/utils").1 = [].
Proof.
  refine (proj2 (proj2 (library_failure_is_reported Edge.offline Demo.token 10
            "https://github.com/acme/widgets/tree/main/src/utils"
            (Target.make "acme" "widgets" "src/utils" false)
            Edge.utils_files _ _ _ _ _ _)));
    try reflexivity; by vm_compute.
Defined.

(** X12. When JSZip generates a blob of size zero, the archive is
    generated and not saved: [createAndDownloadZip] throws
    [EmptyArchiveError] after the call of [generateAsync]. *)
Theorem empty_blob_is_not_saved W token owner repo files folderName file :
  World.JSZip_defined W || World.script_loads W = true →
  file ∈ files → is_Some (decoded W token owner repo file) →
  World.blob_size W (archive_of W token owner repo files) = 0 →
  (createAndDownloadZip W token files folderName owner repo).2
  = Throw EmptyArchiveError
  ∧ generated (createAndDownloadZip W token files folderName owner repo).1
    = [archive_of W token owner repo files]
  ∧ saves (createAndDownloadZip W token files folderName owner repo).1 = [].
Proof.
  intros Hlib Hin Hd Hsize.
  destruct (library_events_quiet W) as (_ & Hls & Hlg & _).
  destruct (createAndDownloadZip_spec W token owner repo files folderName Hlib)
    as (tr & _ & Hs & Hg & _ & _ & ->).
  pose proof (decoded_count_pos W token owner repo files file Hin Hd)
    as Hpos%Nat.eqb_neq.
  rewrite Hpos, Hsize. cbn [Z.eqb fst snd].
  by rewrite !generated_app, !saves_app, Hls, Hlg, Hs, Hg.
Qed.

Lemma empty_blob_is_not_saved_witness :
  (createAndDownloadZip Edge.hollow Demo.token Edge.utils_files "widgets-utils"
     "acme" "widgets").2
  = Throw EmptyArchiveError
  ∧ generated (createAndDownloadZip Edge.hollow Demo.token Edge.utils_files
                 "widgets-utils" "acme" "widgets").1
    = [archive_of Edge.hollow Demo.token "acme" "widgets" Edge.utils_files]
  ∧ saves (createAndDownloadZip Edge.hollow Demo.token Edge.utils_files
             "widgets-utils" "acme" "widgets").1 = [].
Proof.
  apply (empty_blob_is_not_saved Edge.hollow Demo.token "acme" "widgets"
           Edge.utils_files "widgets-utils"
           (File.make "src/utils/a.js" "sha-a.js" "a.js" 1)).
  - reflexivity.
  - by left.
  - vm_compute. by eexists.
  - reflexivity.
Defined.

(* ===================================================================== *)
(** * Further properties of the archive builder *)
(* ===================================================================== *)

Lemma archive_of_paths W token owner repo files files' :
  (∀ p, p ∈ File.path <$> files ↔ p ∈ File.path <$> files') →
  archive_of W token owner repo files = archive_of W token owner repo files'.
Proof.
  assert (∀ l file, file ∈ l →
            archive_of W token owner repo l !! File.path file
            = decoded W token owner repo file) as Hlookup.
  { intros l file Hin. unfold archive_of.
    rewrite foldl_add_file_lookup_any by done.
    by destruct (decoded W token owner repo file). }
  intros Hsame. apply map_eq. intros p.
  destruct (decide (p ∈ File.path <$> files)) as [Hp|Hp].
  - pose proof (proj1 (Hsame p) Hp) as Hp'.
    apply list_elem_of_fmap in Hp as (f & -> & Hf).
    apply list_elem_of_fmap in Hp' as (f' & E & Hf').
    rewrite (Hlookup files f Hf), E, (Hlookup files' f' Hf').
    by apply decoded_path.
  - assert (p ∉ File.path <$> files') as Hp' by (by rewrite <-Hsame).
    unfold archive_of. by rewrite !foldl_add_file_other.
Qed.

Lemma decoded_count_paths W token owner repo files files' :
  (∀ p, p ∈ File.path <$> files → p ∈ File.path <$> files') →
  decoded_count W token owner repo files' = 0%nat →
  decoded_count W token owner repo files = 0%nat.
Proof.
  intros Hsame H0. apply decoded_count_0. intros file Hin.
  destruct (decoded W token owner repo file) as [b|] eqn:Hd; [|done].
  assert (File.path file ∈ File.path <$> files') as Hp
    by (by apply Hsame, list_elem_of_fmap_2).
  apply list_elem_of_fmap in Hp as (file' & E & Hin').
  destruct (decoded_count_pos W token owner repo files' file' Hin'); [|done].
  rewrite <-(decoded_path _ _ _ _ _ _ E), Hd. by eexists.
Qed.

(** X13. What [createAndDownloadZip] generates and saves is a matter of
    the paths of its files: once JSZip is there, two lists of files with
    the same paths, in any order and with any repetition, end alike and
    have the same archive generated and saved; and a file of the one list
    that has an entry, in the sense of the specification, has it in the
    archive generated for the other, wherever it stands in its list. *)
Theorem archive_depends_on_paths W token owner repo files files' folderName :
  World.JSZip_defined W || World.script_loads W = true →
  (∀ p, p ∈ File.path <$> files ↔ p ∈ File.path <$> files') →
  (createAndDownloadZip W token files folderName owner repo).2
  = (createAndDownloadZip W token files' folderName owner repo).2
  ∧ generated (createAndDownloadZip W token files folderName owner repo).1
    = generated (createAndDownloadZip W token files' folderName owner repo).1
  ∧ saves (createAndDownloadZip W token files folderName owner repo).1
    = saves (createAndDownloadZip W token files' folderName owner repo).1
  ∧ (∀ file b,
       file ∈ files → entry W token owner repo file = Some b →
       ∃ z,
         generated (createAndDownloadZip W token files' folderName owner repo).1
         = [z]
         ∧ z !! File.path file = Some b).
Proof.
  intros Hlib Hsame.
  pose proof (archive_of_paths W token owner repo files files' Hsame) as Harch.
  assert ((decoded_count W token owner repo files =? 0)%nat
          = (decoded_count W token owner repo files' =? 0)%nat) as Hcount.
  { destruct (Nat.eqb_spec (decoded_count W token owner repo files') 0) as [E|E].
    - apply Nat.eqb_eq. revert E. apply decoded_count_paths.
      intros p. apply Hsame.
    - apply Nat.eqb_neq. intros E'. apply E. revert E'.
      apply decoded_count_paths. intros p. apply Hsame. }
  destruct (library_events_quiet W) as (_ & Hls & Hlg & _).
  destruct (createAndDownloadZip_spec W token owner repo files folderName Hlib)
    as (tr & _ & Hs & Hg & _ & _ & E).
  destruct (createAndDownloadZip_spec W token owner repo files' folderName Hlib)
    as (tr' & _ & Hs' & Hg' & _ & _ & E').
  rewrite <-Hcount, <-Harch in E'.
  assert (∀ file b,
            file ∈ files → entry W token owner repo file = Some b →
            decoded_count W token owner repo files ≠ 0%nat
            ∧ archive_of W token owner repo files !! File.path file = Some b)
    as Hentry.
  { intros file b Hin Hb. rewrite <-decoded_entry in Hb. split.
    - apply (decoded_count_pos _ _ _ _ _ file Hin). rewrite Hb. by eexists.
    - unfold archive_of. by rewrite foldl_add_file_lookup_any, Hb by done. }
  rewrite E, E'. clear E E'.
  destruct (Nat.eqb_spec (decoded_count W token owner repo files) 0) as [H0|H0].
  { cbn [fst snd]. rewrite !generated_app, !saves_app, Hls, Hlg, Hs, Hg, Hs', Hg'.
    split_and!; [done..|].
    intros file b Hin Hb. by destruct (Hentry file b Hin Hb). }
  destruct (World.blob_size W _ =? 0); cbn [fst snd];
    rewrite !generated_app, !saves_app, Hls, Hlg, Hs, Hg, Hs', Hg';
    (split_and!; [done..|]);
    intros file b Hin Hb; destruct (Hentry file b Hin Hb) as [_ Hz];
    by eexists.
Qed.

(** The files of [acme/widgets] in the order of the listing, and in the
    reverse order followed by the two files of [src/utils] once more. *)
Lemma archive_depends_on_paths_witness :
  (createAndDownloadZip Demo.world Demo.token Demo.root_files
     "widgets" "acme" "widgets").2
  = (createAndDownloadZip Demo.world Demo.token
       (reverse Demo.root_files ++ Edge.utils_files)
       "widgets" "acme" "widgets").2
  ∧ generated (createAndDownloadZip Demo.world Demo.token Demo.root_files
                 "widgets" "acme" "widgets").1
    = generated (createAndDownloadZip Demo.world Demo.token
                   (reverse Demo.root_files ++ Edge.utils_files)
                   "widgets" "acme" "widgets").1
  ∧ saves (createAndDownloadZip Demo.world Demo.token Demo.root_files
             "widgets" "acme" "widgets").1
    = saves (createAndDownloadZip Demo.world Demo.token
               (reverse Demo.root_files ++ Edge.utils_files)
               "widgets" "acme" "widgets").1
  ∧ (∀ file b,
       file ∈ Demo.root_files →
       entry Demo.world Demo.token "acme" "widgets" file = Some b →
       ∃ z,
         generated (createAndDownloadZip Demo.world Demo.token
                      (reverse Demo.root_files ++ Edge.utils_files)
                      "widgets" "acme" "widgets").1
         = [z]
         ∧ z !! File.path file = Some b).
Proof.
  apply archive_depends_on_paths; [reflexivity|].
  intros p. rewrite fmap_app, elem_of_app, fmap_reverse, elem_of_reverse.
  split; [by left|]. intros [Hp|Hp]; [done|].
  vm_compute in Hp. vm_compute. set_solver.
Defined.

(** X14. The removal of the newlines before [atob] changes nothing:
    [atob] drops the newlines, with the other white space, itself. A
    payload decodes to the same bytes, or fails alike, with and without
    the call of [replace]. *)
Theorem newline_removal_is_redundant data :
  Base64.atob (remove_newlines data) = Base64.atob data.
Proof.
  unfold Base64.atob, remove_newlines.
  assert (filter (fun c => Base64.is_ascii_whitespace c = false)
            (list_ascii_of_string (JS.filter_chars (JS.is_not "010") data))
          = filter (fun c => Base64.is_ascii_whitespace c = false)
              (list_ascii_of_string data)) as ->; [|done].
  induction data as [|c data IH]; [done|].
  cbn [JS.filter_chars].
  destruct (JS.is_not "010" c) eqn:Ec.
  - cbn [list_ascii_of_string]. by rewrite !filter_cons, IH.
  - cbn [list_ascii_of_string]. rewrite IH, filter_cons.
    unfold JS.is_not in Ec. apply negb_false_iff, Ascii.eqb_eq in Ec as ->.
    by case_decide.
Qed.

(* ===================================================================== *)
(** * Further properties of the directory lister *)
(* ===================================================================== *)

Lemma bind_ret {A B} (f : A -> M B) a : bind f (ret a) = f a.
Proof. unfold ret. rewrite bind_Return. by destruct (f a). Qed.

(** X15. The lister returns only on a tree that lists, and only adds: when
    a walk returns, the files it started with are still there, in front
    and in order, and what follows them is the list of the files of the
    tree. A tree with a request that fails, is refused, or is not answered
    with an array never gives a list. *)
Theorem lister_returns_only_listings W token fuel owner repo path allFiles files :
  (fetchDirectoryContents W token fuel owner repo path allFiles).2 = Return files →
  ∃ new, files = allFiles ++ new ∧ lists W token owner repo path new.
Proof.
  revert path allFiles files.
  induction fuel as [|fuel IH]; intros path allFiles files; [done|].
  rewrite fetchDirectoryContents_S.
  assert (∀ items acc files,
    (for_of items
       (fun item allFiles =>
          if String.eqb (Item.type item) "file" then
            ret (allFiles ++ [descriptor item])
          else if String.eqb (Item.type item) "dir" then
            fetchDirectoryContents W token fuel owner repo (Item.path item)
                                   allFiles
          else ret allFiles) acc).2 = Return files →
    ∃ new, files = acc ++ new ∧ lists_items W token owner repo items new)
    as Hloop.
  { induction items as [|item items IHitems]; intros acc fs.
    { intros [= <-]. exists []. split; [by rewrite app_nil_r|constructor]. }
    rewrite for_of_cons. cbv beta.
    destruct (String.eqb_spec (Item.type item) "file") as [Hf|Hf].
    { rewrite bind_ret.
      intros (new & -> & Hnew)%IHitems.
      exists (descriptor item :: new).
      split; [by rewrite <-app_assoc|by constructor]. }
    destruct (String.eqb_spec (Item.type item) "dir") as [Hd|Hd].
    { destruct (fetchDirectoryContents W token fuel owner repo (Item.path item) acc)
        as [tr1 [acc1|e|]] eqn:E1; [|done..].
      rewrite bind_Return. cbn [snd].
      destruct (IH (Item.path item) acc acc1) as (new1 & -> & Hnew1);
        [by rewrite E1|].
      intros (new2 & -> & Hnew2)%IHitems.
      exists (new1 ++ new2).
      split; [by rewrite <-app_assoc|by constructor]. }
    rewrite bind_ret.
    intros (new & -> & Hnew)%IHitems.
    exists new. split; [done|by constructor]. }
  destruct (served W token owner repo path) as [r|] eqn:Er; [|done].
  destruct (Response.ok r) eqn:Hok; [|done].
  destruct (Response.body r) as [[items|o]|] eqn:Hbody; [|done..].
  specialize (Hloop items allFiles files).
  destruct (for_of items _ allFiles) as [tr res]. cbn [snd] in *.
  intros (new & -> & Hnew)%Hloop.
  exists new. split; [done|]. by eapply lists_dir.
Qed.

(** The walk of [acme/widgets] from two files that were there before. *)
Lemma lister_returns_only_listings_witness :
  ∃ new,
    Edge.utils_files ++ Demo.root_files = Edge.utils_files ++ new
    ∧ lists Demo.world Demo.token "acme" "widgets" "" new.
Proof.
  apply (lister_returns_only_listings Demo.world Demo.token 10 "acme" "widgets"
           "" Edge.utils_files).
  reflexivity.
Defined.

Scheme visits_mut := Induction for visits Sort Prop
  with visits_items_mut := Induction for visits_items Sort Prop.

(** X16. The lister sends one request for each directory: on a tree that
    lists, and with the depth the tree needs, the requests of a walk are
    those for the path it starts at and for every directory below it, each
    directory before what it contains, in the order of the listings, and no
    other. *)
Theorem lister_requests_each_directory_once W token owner repo path dirs :
  visits W token owner repo path dirs →
  ∃ n, ∀ fuel, (n ≤ fuel)%nat → ∀ allFiles,
    requests (fetchDirectoryContents W token fuel owner repo path allFiles).1
    = contents_url owner repo <$> dirs
    ∧ ∃ files,
        (fetchDirectoryContents W token fuel owner repo path allFiles).2
        = Return files.
Proof.
  intros H.
  induction H using visits_mut with
    (P0 := fun items dirs _ =>
       ∃ n, ∀ fuel, (n ≤ fuel)%nat → ∀ acc,
         requests
           (for_of items
              (fun item allFiles =>
                 if String.eqb (Item.type item) "file" then
                   ret (allFiles ++ [descriptor item])
                 else if String.eqb (Item.type item) "dir" then
                   fetchDirectoryContents W token fuel owner repo
                                          (Item.path item) allFiles
                 else ret allFiles) acc).1
         = contents_url owner repo <$> dirs
         ∧ ∃ files,
             (for_of items
                (fun item allFiles =>
                   if String.eqb (Item.type item) "file" then
                     ret (allFiles ++ [descriptor item])
                   else if String.eqb (Item.type item) "dir" then
                     fetchDirectoryContents W token fuel owner repo
                                            (Item.path item) allFiles
                   else ret allFiles) acc).2 = Return files).
  - destruct IHvisits as [k Hk]. exists (S k).
    intros [|fuel] Hle allFiles; [lia|].
    rewrite fetchDirectoryContents_S, e, e0, e1.
    destruct (Hk fuel ltac:(lia) allFiles) as [Hr [files Hf]].
    destruct (for_of items _ allFiles) as [tr res]. cbn [fst snd] in *.
    split; [|by exists files]. by rewrite fmap_cons, <-Hr.
  - exists 0%nat. intros fuel _ acc. split; [done|by eexists].
  - destruct IHvisits as [k1 Hk1], IHvisits0 as [k2 Hk2].
    exists (k1 `max` k2)%nat. intros fuel Hle acc.
    rewrite for_of_cons. cbv beta. rewrite e.
    change (String.eqb "dir" "file") with false.
    change (String.eqb "dir" "dir") with true. cbv iota.
    destruct (Hk1 fuel ltac:(lia) acc) as [Hr1 [acc1 Hf1]].
    destruct (fetchDirectoryContents W token fuel owner repo (Item.path item) acc)
      as [tr1 res1]. cbn [fst snd] in Hr1, Hf1. subst res1.
    rewrite bind_Return. cbn [fst snd].
    destruct (Hk2 fuel ltac:(lia) acc1) as [Hr2 Hf2].
    split; [|done]. by rewrite requests_app, fmap_app, Hr1, Hr2.
  - destruct IHvisits as [k Hk]. exists k. intros fuel Hle acc.
    rewrite for_of_cons. cbv beta.
    destruct (String.eqb (Item.type item) "file").
    + rewrite bind_ret. by apply Hk.
    + apply String.eqb_neq in n. rewrite n.
      rewrite bind_ret. by apply Hk.
Qed.

(** The three directories of [acme/widgets]. *)
Lemma lister_requests_each_directory_once_witness :
  ∃ n, ∀ fuel, (n ≤ fuel)%nat → ∀ allFiles,
    requests (fetchDirectoryContents Demo.world Demo.token fuel "acme" "widgets"
                "" allFiles).1
    = contents_url "acme" "widgets" <$> [""; "src"; "src/utils"]
    ∧ ∃ files,
        (fetchDirectoryContents Demo.world Demo.token fuel "acme" "widgets"
           "" allFiles).2 = Return files.
Proof.
  apply lister_requests_each_directory_once.
  eapply visits_dir; [reflexivity..|].
  apply visits_skip; [done|]. apply visits_skip; [done|].
  apply (visits_subdir _ _ _ _ (Demo.entry "dir" "src" "src" 0) _
           ["src"; "src/utils"] []); [reflexivity| |].
  - eapply visits_dir; [reflexivity..|].
    apply (visits_subdir _ _ _ _ (Demo.entry "dir" "src/utils" "utils" 0) _
             ["src/utils"] []); [reflexivity| |].
    + eapply visits_dir; [reflexivity..|].
      apply visits_skip; [done|]. apply visits_skip; [done|]. apply visits_nil.
    + apply visits_skip; [done|]. apply visits_nil.
  - apply visits_skip; [done|]. apply visits_skip; [done|]. apply visits_nil.
Defined.

(* ===================================================================== *)
(** * Further properties of the token prompt *)
(* ===================================================================== *)

Lemma startup_stored storage tok answers :
  storage !! "DIR_DL_TOKEN" = Some tok → tok ≠ "" →
  startup storage answers = ([], Return (Session (Some tok) false storage)).
Proof.
  intros E Hne. unfold startup, stored_token. rewrite E.
  destruct tok as [|c tok]; [done|]. cbn [JS.truthy].
  by destruct answers.
Qed.

Lemma startup_prompts storage bad good rest :
  stored_token storage = None →
  Forall rejected bad →
  (10 < String.length good)%nat →
  startup storage bad
  = ((bad ≫= fun _ => rejection) ++ [Prompt "Enter GitHub Token:"], Pending)
  ∧ startup storage (bad ++ Some good :: rest)
    = ((bad ≫= fun _ => rejection) ++ acceptance good,
       Return (Session (Some good) true (<["DIR_DL_TOKEN" := good]> storage))).
Proof.
  intros Hstored Hbad Hgood. unfold startup. rewrite Hstored. split.
  - rewrite <-(app_nil_r bad) at 1.
    rewrite prompt_loop_rejected by done. by rewrite prompt_loop_waiting.
  - rewrite prompt_loop_rejected by done.
    by rewrite prompt_loop_accepted.
Qed.

(** X17. A token that is stored is taken on trust: when [localStorage] has
    a text that is not empty under [DIR_DL_TOKEN], the script takes it as
    the token without a prompt and without the test of its length, so a
    stored text of ten characters or less is a token too. *)
Theorem stored_token_is_trusted storage tok answers :
  storage !! "DIR_DL_TOKEN" = Some tok → tok ≠ "" →
  startup storage answers = ([], Return (Session (Some tok) false storage)).
Proof. apply startup_stored. Qed.

(** A stored text of three characters. *)
Lemma stored_token_is_trusted_witness :
  startup {["DIR_DL_TOKEN" := "abc"]} [Some "ghp_0123456789abcdef"]
  = ([], Return (Session (Some "abc") false {["DIR_DL_TOKEN" := "abc"]})).
Proof. apply stored_token_is_trusted; [reflexivity|done]. Defined.

(** X18. A token that was accepted is not asked for again: after the
    prompt loop has accepted a token, the next load of the page, with the
    store as the loop left it, starts with that token and without a
    prompt. *)
Theorem accepted_token_survives_reload storage bad good rest answers :
  stored_token storage = None →
  Forall rejected bad →
  (10 < String.length good)%nat →
  ∃ st,
    (startup storage (bad ++ Some good :: rest)).2 = Return st
    ∧ startup (localStorage st) answers
      = ([], Return (Session (Some good) false (localStorage st))).
Proof.
  intros Hstored Hbad Hgood.
  destruct (startup_prompts storage bad good rest Hstored Hbad Hgood) as [_ ->].
  eexists. split; [done|]. cbn [localStorage].
  apply startup_stored; [by rewrite lookup_insert_eq|].
  intros ->. simpl in Hgood. lia.
Qed.

Lemma accepted_token_survives_reload_witness :
  ∃ st,
    (startup ∅ ([None; Some "short"] ++ Some "ghp_0123456789abcdef" :: [])).2
    = Return st
    ∧ startup (localStorage st) [Some "ghp_another_token_1"]
      = ([], Return (Session (Some "ghp_0123456789abcdef") false (localStorage st))).
Proof.
  apply accepted_token_survives_reload.
  - reflexivity.
  - repeat constructor; simpl; lia.
  - simpl. lia.
Defined.

(** X19. The reset forgets the token and nothing else: after a click on
    the reset button the script prompts again, whatever token was stored,
    with the same test of the answers; and when a token is accepted, the
    store is the one before the reset with the new token in the place of
    the old one. *)
Theorem reset_asks_again storage bad good rest :
  Forall rejected bad →
  (10 < String.length good)%nat →
  reload storage bad
  = ((bad ≫= fun _ => rejection) ++ [Prompt "Enter GitHub Token:"], Pending)
  ∧ reload storage (bad ++ Some good :: rest)
    = ((bad ≫= fun _ => rejection) ++ acceptance good,
       Return (Session (Some good) true (<["DIR_DL_TOKEN" := good]> storage))).
Proof.
  intros Hbad Hgood. unfold reload.
  assert (stored_token (delete "DIR_DL_TOKEN" storage) = None) as Hstored.
  { unfold stored_token. by rewrite lookup_delete_eq. }
  destruct (startup_prompts _ bad good rest Hstored Hbad Hgood) as [-> ->].
  by rewrite insert_delete_eq.
Qed.

(** A reset with a token and another key in the store. *)
Lemma reset_asks_again_witness :
  reload {["DIR_DL_TOKEN" := "ghp_0123456789abcdef"; "theme" := "dark"]} [@None string]
  = (([@None string] ≫= fun _ => rejection) ++ [Prompt "Enter GitHub Token:"], Pending)
  ∧ reload {["DIR_DL_TOKEN" := "ghp_0123456789abcdef"; "theme" := "dark"]}
      ([@None string] ++ Some "ghp_another_token_1" :: [])
    = (([@None string] ≫= fun _ => rejection) ++ acceptance "ghp_another_token_1",
       Return (Session (Some "ghp_another_token_1") true
                 (<["DIR_DL_TOKEN" := "ghp_another_token_1"]>
                    {["DIR_DL_TOKEN" := "ghp_0123456789abcdef";
                      "theme" := "dark"]}))).
Proof.
  apply reset_asks_again.
  - repeat constructor.
  - simpl. lia.
Defined.
